(** * Non-transitive dice game (task3.js): shallow embedding and properties

    The development follows the layout of [task3.js]:
    - [JS]: the fragment of JavaScript values, numbers and string
      operations the program relies on ([parseInt], [trim], [split],
      [toUpperCase], [+], [%], [===], [>], array indexing);
    - [Dice], [ProbabilityCalculator]: the pure classes;
    - [Args]: [parseDiceConfig] and [validateArguments];
    - [Runtime]: the world the program runs in (entropy source,
      [Math.random], scripted console input, console output) and a small
      monad over it;
    - [SecureRandomGenerator], [DiceGame], [Program]: the effectful classes
      and [main].

    Numbers are modelled as mathematical integers.  The model agrees with
    JavaScript wherever the Numbers involved are safe integers (below 2^53
    in absolute value, where IEEE doubles are exact and print all their
    digits); that is the case for everything the program computes from its
    prompts and its draws.  Face values come from the command line and can
    be larger: there JavaScript's [parseInt] rounds to a double and Numbers
    from 1e21 on print with an exponent, which this model does not follow,
    so the statements that print faces and read them back are made for safe
    integers ([safe_integer]).  The single place where JavaScript leaves
    the integer domain on purpose, the 32-bit shift [<<], is modelled with
    its wrap-around. *)

From Stdlib Require Import ZArith List String Ascii Bool Lia QArith.
Import ListNotations.

Local Open Scope string_scope.
Local Open Scope Z_scope.

(* ===================================================================== *)
(** ** JavaScript values and primitive operations *)
(* ===================================================================== *)

Module JS.

(** A Number that is either an integer or [NaN]. *)
Inductive num : Type :=
| Int (z : Z)
| NaN.

Inductive value : Type :=
| VNum (n : num)
| VStr (s : string)
| VBool (b : bool)
| VNull
| VUndefined.

(** The value of [a / b] on integers [a], [b]. *)
Inductive real : Type :=
| Finite (q : Q)
| Infinite (positive : bool)
| NotANumber.

Definition js_div (a b : Z) : real :=
  if b =? 0 then
    if a =? 0 then NotANumber else Infinite (0 <? a)
  else if 0 <? b then Finite (Qmake a (Z.to_pos b))
  else Finite (Qmake (- a) (Z.to_pos (- b))).

(** *** Characters and strings (ASCII) *)

Definition code (c : ascii) : Z := Z.of_nat (nat_of_ascii c).

(** WhiteSpace and LineTerminator code points below 128:
    TAB, LF, VT, FF, CR, SP. *)
Definition is_white_space (c : ascii) : bool :=
  let n := code c in ((9 <=? n) && (n <=? 13)) || (n =? 32).

Fixpoint trimStart (s : string) : string :=
  match s with
  | String c s' => if is_white_space c then trimStart s' else s
  | EmptyString => EmptyString
  end.

Fixpoint rev_string (s acc : string) : string :=
  match s with
  | String c s' => rev_string s' (String c acc)
  | EmptyString => acc
  end.

Definition trimEnd (s : string) : string :=
  rev_string (trimStart (rev_string s "")) "".

(** [String.prototype.trim]. *)
Definition trim (s : string) : string := trimEnd (trimStart s).

Definition upper_char (c : ascii) : ascii :=
  let n := code c in
  if (97 <=? n) && (n <=? 122) then ascii_of_nat (nat_of_ascii c - 32) else c.

(** [String.prototype.toUpperCase]. *)
Fixpoint toUpperCase (s : string) : string :=
  match s with
  | String c s' => String (upper_char c) (toUpperCase s')
  | EmptyString => EmptyString
  end.

(** [s.split(',')]: the pieces between commas, [""] for the empty string. *)
Fixpoint split_comma (s : string) : list string :=
  match s with
  | EmptyString => [""]
  | String c s' =>
      if Ascii.eqb c "," then "" :: split_comma s'
      else match split_comma s' with
           | piece :: rest => String c piece :: rest
           | [] => [String c ""]
           end
  end.

(** [arr.join(',')] on an array of strings. *)
Fixpoint join_comma (l : list string) : string :=
  match l with
  | [] => ""
  | [x] => x
  | x :: rest => x ++ String "," (join_comma rest)
  end.

(** Value of a character as a digit in radix up to 36. *)
Definition digit_value (c : ascii) : option Z :=
  let n := code c in
  if (48 <=? n) && (n <=? 57) then Some (n - 48)
  else if (97 <=? n) && (n <=? 122) then Some (n - 87)
  else if (65 <=? n) && (n <=? 90) then Some (n - 55)
  else None.

Definition is_digit (radix : Z) (c : ascii) : bool :=
  match digit_value c with
  | Some d => d <? radix
  | None => false
  end.

(** Value of the longest prefix of [s] made of radix-[radix] digits. *)
Fixpoint read_digits (radix : Z) (s : string) (acc : Z) : Z :=
  match s with
  | String c s' =>
      match digit_value c with
      | Some d => if d <? radix then read_digits radix s' (acc * radix + d) else acc
      | None => acc
      end
  | EmptyString => acc
  end.

Definition starts_with_digit (radix : Z) (s : string) : bool :=
  match s with
  | String c _ => is_digit radix c
  | EmptyString => false
  end.

(** [parseInt(s)] with no radix argument: skip leading white space, read
    an optional sign, an optional [0x]/[0X] prefix, then the longest run
    of digits; [NaN] when that run is empty.  Whatever follows the run
    is ignored.  The result is the integer the digits spell; JavaScript
    returns the nearest double, which is the same Number as long as that
    integer is below 2^53 in absolute value. *)
Definition parseInt (s : string) : num :=
  let s1 := trimStart s in
  let '(sign, s2) :=
    match s1 with
    | String "-" r => (-1, r)
    | String "+" r => (1, r)
    | _ => (1, s1)
    end in
  let '(radix, s3) :=
    match s2 with
    | String "0" (String "x" r) => (16, r)
    | String "0" (String "X" r) => (16, r)
    | _ => (10, s2)
    end in
  if starts_with_digit radix s3 then Int (sign * read_digits radix s3 0) else NaN.

Definition isNaN (n : num) : bool :=
  match n with NaN => true | Int _ => false end.

(** *** Number to string *)

Definition digit_char (d : Z) : ascii := ascii_of_nat (Z.to_nat (48 + d)).

Fixpoint decimal_digits (fuel : nat) (n : Z) (acc : string) : string :=
  let acc' := String (digit_char (n mod 10)) acc in
  match fuel with
  | O => acc'
  | S fuel' => if n <? 10 then acc' else decimal_digits fuel' (n / 10) acc'
  end.

(** [Number.prototype.toString] on an integer: all its decimal digits,
    as JavaScript prints a Number holding an integer below 1e21 in
    absolute value (from there on it prints an exponent). *)
Definition number_to_string (z : Z) : string :=
  if z <? 0 then String "-" (decimal_digits (Z.to_nat (- z)) (- z) "")
  else decimal_digits (Z.to_nat z) z "".

Definition to_string (v : value) : string :=
  match v with
  | VNum (Int z) => number_to_string z
  | VNum NaN => "NaN"
  | VStr s => s
  | VBool true => "true"
  | VBool false => "false"
  | VNull => "null"
  | VUndefined => "undefined"
  end.

(** *** String to number *)

Fixpoint all_digits (s : string) : bool :=
  match s with
  | String c s' => is_digit 10 c && all_digits s'
  | EmptyString => true
  end.

(** [Number(s)] on the strings this model gives a Number to: white space
    around an optionally signed run of decimal digits, and the empty
    string (0).  Every other string is mapped to [NaN]; that is what
    JavaScript does for any string holding a character that no numeric
    literal contains (such as [?]), which is the only kind of string the
    program ever converts. *)
Definition string_to_number (s : string) : num :=
  let t := trim s in
  match t with
  | EmptyString => Int 0
  | String "-" r =>
      if starts_with_digit 10 r && all_digits r then Int (- read_digits 10 r 0) else NaN
  | String "+" r =>
      if starts_with_digit 10 r && all_digits r then Int (read_digits 10 r 0) else NaN
  | _ => if all_digits t then Int (read_digits 10 t 0) else NaN
  end.

Definition to_number (v : value) : num :=
  match v with
  | VNum n => n
  | VStr s => string_to_number s
  | VBool true => Int 1
  | VBool false => Int 0
  | VNull => Int 0
  | VUndefined => NaN
  end.

(** *** Operators *)

Definition num_add (a b : num) : num :=
  match a, b with
  | Int x, Int y => Int (x + y)
  | _, _ => NaN
  end.

(** [a % b] on Numbers: truncated remainder, [NaN] for a zero divisor. *)
Definition num_rem (a b : num) : num :=
  match a, b with
  | Int x, Int y => if y =? 0 then NaN else Int (Z.rem x y)
  | _, _ => NaN
  end.

Definition is_string (v : value) : bool :=
  match v with VStr _ => true | _ => false end.

(** [a + b]: concatenation as soon as one operand is a string. *)
Definition js_add (a b : value) : value :=
  if is_string a || is_string b then VStr (to_string a ++ to_string b)
  else VNum (num_add (to_number a) (to_number b)).

(** [a % b]. *)
Definition js_rem (a b : value) : value :=
  VNum (num_rem (to_number a) (to_number b)).

(** [a === b]. *)
Definition strict_eq (a b : value) : bool :=
  match a, b with
  | VNum (Int x), VNum (Int y) => x =? y
  | VStr s, VStr t => String.eqb s t
  | VBool x, VBool y => Bool.eqb x y
  | VNull, VNull => true
  | VUndefined, VUndefined => true
  | _, _ => false
  end.

Definition num_gt (a b : num) : bool :=
  match a, b with
  | Int x, Int y => x >? y
  | _, _ => false
  end.

(** [a > b]: code-unit order on two strings, numeric order otherwise
    (false as soon as one side converts to [NaN]). *)
Definition js_gt (a b : value) : bool :=
  match a, b with
  | VStr s, VStr t =>
      match String.compare s t with Gt => true | _ => false end
  | _, _ => num_gt (to_number a) (to_number b)
  end.

(** [x << k] on Numbers holding integers: the left operand is reduced
    to a signed 32-bit integer, shifted, and reduced again. *)
Definition to_int32 (z : Z) : Z := (z + 2 ^ 31) mod 2 ^ 32 - 2 ^ 31.

Definition shl32 (x k : Z) : Z := to_int32 (Z.shiftl (to_int32 x) (k mod 32)).

(** [arr[key]] on an array of integers.  A Number key selects an element
    when it is an integer index in bounds; a string key does when it is
    the canonical decimal form of such an index, and ["length"] is the
    length.  Every other key of this value model yields [undefined]. *)
Definition array_get (arr : list Z) (key : value) : value :=
  let at_index (i : Z) :=
    if (0 <=? i) && (i <? Z.of_nat (List.length arr))
    then VNum (Int (nth (Z.to_nat i) arr 0))
    else VUndefined in
  match key with
  | VNum (Int i) => at_index i
  | VStr s =>
      if String.eqb s "length" then VNum (Int (Z.of_nat (List.length arr)))
      else if all_digits s && starts_with_digit 10 s
              && String.eqb (number_to_string (read_digits 10 s 0)) s
      then at_index (read_digits 10 s 0)
      else VUndefined
  | _ => VUndefined
  end.

End JS.

Import JS.

Section ListHelpers.
Context {A B : Type}.

(** [arr.map((x, i) => f(i, x))], counting from [i]. *)
Fixpoint mapi_from (i : Z) (f : Z -> A -> B) (l : list A) : list B :=
  match l with
  | [] => []
  | x :: l' => f i x :: mapi_from (i + 1) f l'
  end.

Definition mapi (f : Z -> A -> B) (l : list A) : list B := mapi_from 0 f l.

(** [arr.filter((x, i) => p(i))], counting from [i]. *)
Fixpoint filteri_from (i : Z) (p : Z -> bool) (l : list A) : list A :=
  match l with
  | [] => []
  | x :: l' =>
      if p i then x :: filteri_from (i + 1) p l' else filteri_from (i + 1) p l'
  end.

Definition filteri (p : Z -> bool) (l : list A) : list A := filteri_from 0 p l.
End ListHelpers.

(** [arr[i]] for a Number [i] holding an integer: [None] is [undefined]. *)
Definition index_get {A : Type} (l : list A) (i : Z) : option A :=
  if i <? 0 then None else nth_error l (Z.to_nat i).

(** The integers [lo], [lo+1], ..., [hi] of a counting [for] loop. *)
Definition range_incl (lo hi : Z) : list Z :=
  map (fun k => lo + Z.of_nat k) (seq 0 (Z.to_nat (hi - lo + 1))).

(* ===================================================================== *)
(** ** class Dice *)
(* ===================================================================== *)

Module Dice.

Record t : Type := make { faces : list Z; index : Z; name : string }.

(** [constructor(faces, index)]. *)
Definition new (faces : list Z) (index : Z) : t :=
  {| faces := faces; index := index;
     name := "Dice " ++ number_to_string (index + 1) |}.

Definition getValue (d : t) (faceIndex : value) : value :=
  array_get (faces d) faceIndex.

Definition getFaceCount (d : t) : Z := Z.of_nat (List.length (faces d)).

(** [this.faces.join(',')], the text of a die in the selection menu. *)
Definition faces_text (d : t) : string :=
  join_comma (map number_to_string (faces d)).

(** [toString()]. *)
Definition toString (d : t) : string := "[" ++ faces_text d ++ "]".

End Dice.

(* ===================================================================== *)
(** ** class ProbabilityCalculator *)
(* ===================================================================== *)

Module ProbabilityCalculator.

(** The two counters of [calculatePairProbability] after the inner loop
    has run over [faces2] for one [face1]. *)
Definition inner_loop (face1 : Z) (faces2 : list Z) (st : Z * Z) : Z * Z :=
  fold_left
    (fun '(wins, total) face2 =>
       ((if face1 >? face2 then wins + 1 else wins), total + 1))
    faces2 st.

Definition outer_loop (faces1 faces2 : list Z) (st : Z * Z) : Z * Z :=
  fold_left (fun st face1 => inner_loop face1 faces2 st) faces1 st.

Definition calculatePairProbability (dice1 dice2 : Dice.t) : real :=
  let '(wins, total) := outer_loop (Dice.faces dice1) (Dice.faces dice2) (0, 0) in
  js_div wins total.

Definition calculateWinProbabilities (dice : list Dice.t) : list (list real) :=
  mapi (fun i dice_i =>
          mapi (fun j dice_j =>
                  if i =? j then Finite (1 # 2)
                  else calculatePairProbability dice_i dice_j)
               dice)
       dice.

(** The contract of the Probability Engine as the specification words
    it: the number of face pairs of the Cartesian product in which the
    first face is strictly greater, over the product of the face
    counts. *)
Definition pairwiseWinProbability_spec (dieA dieB : Dice.t) : real :=
  js_div
    (Z.of_nat (List.length
       (filter (fun '(a, b) => a >? b)
               (list_prod (Dice.faces dieA) (Dice.faces dieB)))))
    (Dice.getFaceCount dieA * Dice.getFaceCount dieB).

End ProbabilityCalculator.

(* ===================================================================== *)
(** ** parseDiceConfig, validateArguments *)
(* ===================================================================== *)

(** Thrown errors, by the message (or kind) they carry. *)
Inductive error : Type :=
| FacesNotIntegers                 (* 'All face values must be integers' *)
| WrongFaceCount (got : nat)       (* 'Each dice must have exactly 6 faces, got <n>' *)
| TooFewDice (got : nat)           (* 'At least 3 dice configurations required, got <n>' *)
| InDice (number : Z) (cause : error)  (* 'Error in dice <i+1>: <message>' *)
| RangeError                       (* crypto.randomBytes with a size that is not a count *)
| TypeError.                       (* property read on undefined *)

Inductive except (A : Type) : Type :=
| Return (a : A)
| Raise (e : error).
Arguments Return {A} a.
Arguments Raise {A} e.

Module Args.

(** The callback of [map] in [parseDiceConfig], applied left to right;
    the first token that parses to [NaN] throws. *)
Fixpoint parse_faces (tokens : list string) : except (list Z) :=
  match tokens with
  | [] => Return []
  | x :: rest =>
      match parseInt (trim x) with
      | NaN => Raise FacesNotIntegers
      | Int num =>
          match parse_faces rest with
          | Return values => Return (num :: values)
          | Raise e => Raise e
          end
      end
  end.

Definition parseDiceConfig (configStr : string) : except (list Z) :=
  match parse_faces (split_comma configStr) with
  | Raise e => Raise e
  | Return values =>
      if negb (Nat.eqb (List.length values) 6)
      then Raise (WrongFaceCount (List.length values))
      else Return values
  end.

(** The [for] loop of [validateArguments], from argument number [i]. *)
Fixpoint validate_from (i : Z) (args : list string) : except (list (list Z)) :=
  match args with
  | [] => Return []
  | a :: rest =>
      match parseDiceConfig a with
      | Raise e => Raise (InDice (i + 1) e)
      | Return config =>
          match validate_from (i + 1) rest with
          | Return configs => Return (config :: configs)
          | Raise e => Raise e
          end
      end
  end.

Definition validateArguments (args : list string) : except (list (list Z)) :=
  if (List.length args <? 3)%nat then Raise (TooFewDice (List.length args))
  else validate_from 0 args.

(** The face count of a die given as an argument: the number of
    comma-separated tokens. *)
Definition face_count (configStr : string) : nat :=
  List.length (split_comma configStr).

(** Every token of the argument has a leading integer [parseInt] reads. *)
Definition tokens_parse (configStr : string) : bool :=
  forallb (fun x => negb (isNaN (parseInt (trim x)))) (split_comma configStr).

End Args.

(* ===================================================================== *)
(** ** The world the program runs in *)
(* ===================================================================== *)

Module Runtime.

(** The upper-case hex digest of HMAC-SHA256, kept symbolic. *)
Inductive digest : Type :=
| HmacSha256 (key : list Z) (message : string).

(** One constructor per line the program writes, with the data the line
    interpolates. *)
Inductive event : Type :=
| LogGenerating (purpose : string)
| LogCommitment (min max : Z) (hmac : digest)
| LogAddModulo (modulus : Z)
| LogNumberOption (i : Z)
| LogExitOption
| LogHelpOption
| Prompt (text : string)
| LogInvalidNumber (min max : Z)
| LogReveal (computerNumber : Z) (key : list Z)
| LogFairResult (computerNumber : Z) (userNumber result : value) (modulus : Z)
| LogProbabilityTable (probabilities : list (list real)) (dice : list Dice.t)
| LogDetermineFirst
| LogComputerChoice (selectedDice : option Dice.t)
| LogChooseYourDice
| LogDiceOption (i : Z) (faces : list Z)
| LogUserChoice (chosen : option Dice.t)
| LogInvalidDice
| LogTimeToRoll (playerName : string)
| LogRollResult (playerName : string) (rollResult : value)
| LogIWin (mine yours : value)
| LogYouWin (yours mine : value)
| LogTie (first second : value)
| LogInsufficientArguments
| LogUsage
| LogErrorMessage (e : error)
| LogUnexpectedError (e : error).

Record world : Type := mkWorld {
  entropy : nat -> Z;       (* the bytes crypto.randomBytes hands out, in order *)
  entropy_used : nat;
  uniform : nat -> Z;       (* Math.random() returns uniform(k) / 2^53 *)
  uniform_used : nat;
  stdin : list string;      (* the lines the user will type *)
  stdout : list event;      (* what has been written, oldest first *)
  rl_closed : bool          (* rl.close() has run *)
}.

Inductive result (A : Type) : Type :=
| Done (a : A) (w : world)
| Throw (e : error) (w : world)
| Blocked        (* waiting at a prompt for a line that never comes *)
| Timeout.       (* a loop ran longer than the iteration bound *)
Arguments Done {A} a w.
Arguments Throw {A} e w.
Arguments Blocked {A}.
Arguments Timeout {A}.

Definition M (A : Type) : Type := world -> result A.

Definition ret {A} (a : A) : M A := fun w => Done a w.

Definition bind {A B} (m : M A) (k : A -> M B) : M B :=
  fun w =>
    match m w with
    | Done a w' => k a w'
    | Throw e w' => Throw e w'
    | Blocked => Blocked
    | Timeout => Timeout
    end.

Definition throw {A} (e : error) : M A := fun w => Throw e w.

Definition timeout {A} : M A := fun _ => Timeout.

(** [try { m } catch (e) { handler(e) }]. *)
Definition try_catch {A} (m : M A) (handler : error -> M A) : M A :=
  fun w =>
    match m w with
    | Throw e w' => handler e w'
    | r => r
    end.

(** [try { m } finally { cleanup }]. *)
Definition try_finally {A} (m : M A) (cleanup : M unit) : M A :=
  fun w =>
    match m w with
    | Done a w' => bind cleanup (fun _ => ret a) w'
    | Throw e w' => bind cleanup (fun _ => throw e) w'
    | Blocked => Blocked
    | Timeout => Timeout
    end.

(** The world after one more line has been written. *)
Definition write (w : world) (e : event) : world :=
  mkWorld (entropy w) (entropy_used w) (uniform w) (uniform_used w)
          (stdin w) (stdout w ++ [e])%list (rl_closed w).

Definition console_log (e : event) : M unit := fun w => Done tt (write w e).

(** [crypto.randomBytes(n)]: the next [n] bytes of the source. *)
Definition randomBytes (n : nat) : M (list Z) :=
  fun w =>
    Done (map (fun k => entropy w k mod 256) (seq (entropy_used w) n))
         (mkWorld (entropy w) (entropy_used w + n) (uniform w) (uniform_used w)
                  (stdin w) (stdout w) (rl_closed w)).

(** [Math.random()], as the numerator [k] of the result [k / 2^53]. *)
Definition math_random : M Z :=
  fun w =>
    Done (uniform w (uniform_used w) mod 2 ^ 53)
         (mkWorld (entropy w) (entropy_used w) (uniform w) (S (uniform_used w))
                  (stdin w) (stdout w) (rl_closed w)).

(** [rl.question(prompt, cb)]: writes the prompt and calls back with the
    next input line. *)
Definition question (prompt : string) : M string :=
  fun w =>
    match stdin w with
    | [] => Blocked
    | answer :: rest =>
        Done answer
             (mkWorld (entropy w) (entropy_used w) (uniform w) (uniform_used w)
                      rest (stdout w ++ [Prompt prompt])%list (rl_closed w))
    end.

(** [rl.close()]. *)
Definition rl_close : M unit :=
  fun w =>
    Done tt (mkWorld (entropy w) (entropy_used w) (uniform w) (uniform_used w)
                     (stdin w) (stdout w) true).

(** A counting or [for ... of] loop whose body only has effects. *)
Fixpoint for_each {A} (l : list A) (body : A -> M unit) : M unit :=
  match l with
  | [] => ret tt
  | x :: l' => bind (body x) (fun _ => for_each l' body)
  end.

(** The same world with more lines waiting on the input. *)
Definition more_input (w : world) (lines : list string) : world :=
  mkWorld (entropy w) (entropy_used w) (uniform w) (uniform_used w)
          (stdin w ++ lines)%list (stdout w) (rl_closed w).

(** The win, lose and tie lines of [playGame]. *)
Definition is_adjudication (e : event) : bool :=
  match e with
  | LogIWin _ _ | LogYouWin _ _ | LogTie _ _ => true
  | _ => false
  end.

Definition is_reveal (e : event) : bool :=
  match e with
  | LogReveal _ _ => true
  | _ => false
  end.

Definition is_table (e : event) : bool :=
  match e with
  | LogProbabilityTable _ _ => true
  | _ => false
  end.

End Runtime.

Import Runtime.

Declare Scope monad_scope.
Delimit Scope monad_scope with monad.
Notation "x <- c1 ;; c2" := (bind c1 (fun x => c2))
  (at level 61, c1 at next level, right associativity) : monad_scope.
Notation "c1 ;; c2" := (bind c1 (fun _ => c2))
  (at level 61, right associativity) : monad_scope.
Local Open Scope monad_scope.

(* ===================================================================== *)
(** ** class SecureRandomGenerator *)
(* ===================================================================== *)

Module SecureRandomGenerator.

Definition generateSecureKey : M (list Z) := randomBytes 32.

(** [Math.ceil(Math.log2(range) / 8)] for [range >= 1]. *)
Definition bytesNeeded (range : Z) : nat :=
  Z.to_nat ((Z.log2_up range + 7) / 8).

(** The [for] loop that assembles the drawn bytes. *)
Definition assemble (randomBytes : list Z) : Z :=
  fold_left (fun randomValue byte => shl32 randomValue 8 + byte) randomBytes 0.

Definition maxValid (n : nat) (range : Z) : Z :=
  (256 ^ Z.of_nat n / range) * range - 1.

Definition calculateHMAC (message : value) (key : list Z) : digest :=
  HmacSha256 key (to_string message).

Definition getUserInput (prompt : string) : M string :=
  answer <- question prompt ;;
  ret (trim answer).

Definition num_ge (a : num) (b : Z) : bool :=
  match a with Int x => x >=? b | NaN => false end.

Definition num_le (a : num) (b : Z) : bool :=
  match a with Int x => x <=? b | NaN => false end.

Definition num_lt (a : num) (b : Z) : bool :=
  match a with Int x => x <? b | NaN => false end.

Section Bounded.
(** Bound on the number of iterations of any one loop. *)
Variable fuel : nat.

(** The [do ... while (randomValue > maxValid)] loop. *)
Fixpoint draw_loop (n : nat) (range : Z) (count : nat) : M Z :=
  match n with
  | O => timeout
  | S n' =>
      randomBytes <- randomBytes count ;;
      let randomValue := assemble randomBytes in
      if randomValue >? maxValid count range
      then draw_loop n' range count
      else ret randomValue
  end.

Definition generateUniformRandom (min max : Z) (key : list Z) : M Z :=
  let range := max - min + 1 in
  if range <=? 0 then throw RangeError
  else
    randomValue <- draw_loop fuel range (bytesNeeded range) ;;
    ret (Z.rem randomValue range + min).

Fixpoint getUserNumber_loop (n : nat) (min max : Z) : M value :=
  match n with
  | O => timeout
  | S n' =>
      console_log (LogAddModulo (max - min + 1)) ;;
      for_each (range_incl min max) (fun i => console_log (LogNumberOption i)) ;;
      console_log LogExitOption ;;
      console_log LogHelpOption ;;
      choice <- getUserInput "Your selection: " ;;
      if String.eqb (toUpperCase choice) "X" then ret VNull
      else if String.eqb choice "?" then ret (VStr "?")
      else
        let num := parseInt choice in
        if negb (isNaN num) && num_ge num min && num_le num max
        then ret (VNum num)
        else
          console_log (LogInvalidNumber min max) ;;
          getUserNumber_loop n' min max
  end.

Definition getUserNumber (min max : Z) : M value :=
  getUserNumber_loop fuel min max.

Definition fairRandomGeneration (min max : Z) (purpose : string) : M value :=
  console_log (LogGenerating purpose) ;;
  key <- generateSecureKey ;;
  computerNumber <- generateUniformRandom min max key ;;
  let hmac := calculateHMAC (VNum (Int computerNumber)) key in
  console_log (LogCommitment min max hmac) ;;
  userNumber <- getUserNumber min max ;;
  if strict_eq userNumber VNull then ret VNull
  else
    console_log (LogReveal computerNumber key) ;;
    let result :=
      js_add (js_rem (js_add (VNum (Int computerNumber)) userNumber)
                     (VNum (Int (max - min + 1))))
             (VNum (Int min)) in
    console_log (LogFairResult computerNumber userNumber result (max - min + 1)) ;;
    ret result.
End Bounded.

(** What the assembling loop computes when no shift overflows: the
    bytes read as a big-endian numeral. *)
Definition big_endian (bytes : list Z) : Z :=
  fold_left (fun acc byte => acc * 256 + byte) bytes 0.

End SecureRandomGenerator.

(* ===================================================================== *)
(** ** class ProbabilityCalculator: display *)
(* ===================================================================== *)

(** [displayProbabilityTable]: all the lines of the table as one event. *)
Definition displayProbabilityTable (dice : list Dice.t) : M unit :=
  console_log
    (LogProbabilityTable (ProbabilityCalculator.calculateWinProbabilities dice) dice).

(* ===================================================================== *)
(** ** class DiceGame *)
(* ===================================================================== *)

Module DiceGame.

Import SecureRandomGenerator.

Record t : Type := make { dice : list Dice.t }.

(** [constructor(diceConfigs)]; the readline interface is the world. *)
Definition new (diceConfigs : list (list Z)) : t :=
  {| dice := mapi (fun i config => Dice.new config i) diceConfigs |}.

(** [arr[key]] on the array of dice: [None] is [undefined]. *)
Definition dice_get (l : list Dice.t) (key : value) : option Dice.t :=
  match key with
  | VNum (Int i) => index_get l i
  | VStr s =>
      if all_digits s && starts_with_digit 10 s
         && String.eqb (number_to_string (read_digits 10 s 0)) s
      then index_get l (read_digits 10 s 0)
      else None
  | _ => None
  end.

Definition truthy (v : value) : bool :=
  match v with
  | VBool b => b
  | VNum (Int z) => negb (z =? 0)
  | VNum NaN => false
  | VStr s => negb (String.eqb s "")
  | VNull | VUndefined => false
  end.

Section Game.
Variable fuel : nat.
Variable this : t.

Fixpoint determineFirstPlayer_loop (n : nat) : M value :=
  match n with
  | O => timeout
  | S n' =>
      result <- fairRandomGeneration fuel 0 1 "first move determination" ;;
      if strict_eq result VNull then ret VNull
      else if strict_eq result (VStr "?") then
        displayProbabilityTable (dice this) ;;
        determineFirstPlayer_loop n'
      else ret (VBool (strict_eq result (VNum (Int 0))))
  end.

Definition determineFirstPlayer : M value :=
  console_log LogDetermineFirst ;;
  determineFirstPlayer_loop fuel.

(** [computerChooseDice(excludeIndex)]; the position
    [Math.floor(Math.random() * availableDice.length)] is taken on the
    exact product. *)
Definition computerChooseDice (excludeIndex : value) : M value :=
  let availableDice :=
    filteri (fun i => negb (strict_eq (VNum (Int i)) excludeIndex)) (dice this) in
  r <- math_random ;;
  let randomIndex := r * Z.of_nat (List.length availableDice) / 2 ^ 53 in
  let selectedDice := index_get availableDice randomIndex in
  console_log (LogComputerChoice selectedDice) ;;
  match selectedDice with
  | Some d => ret (VNum (Int (Dice.index d)))
  | None => throw TypeError
  end.

Definition getUserInput (prompt : string) : M string :=
  answer <- question prompt ;;
  ret (trim answer).

Fixpoint userChooseDice_loop (n : nat) (excludeIndex : value) : M value :=
  match n with
  | O => timeout
  | S n' =>
      console_log LogChooseYourDice ;;
      for_each (mapi (fun i d => (i, d)) (dice this))
        (fun '(i, d) =>
           if negb (strict_eq (VNum (Int i)) excludeIndex)
           then console_log (LogDiceOption i (Dice.faces d))
           else ret tt) ;;
      console_log LogExitOption ;;
      console_log LogHelpOption ;;
      choice <- getUserInput "Your selection: " ;;
      if String.eqb (toUpperCase choice) "X" then ret VNull
      else if String.eqb choice "?" then
        displayProbabilityTable (dice this) ;;
        userChooseDice_loop n' excludeIndex
      else
        let diceIndex := parseInt choice in
        if negb (isNaN diceIndex) && num_ge diceIndex 0
           && num_lt diceIndex (Z.of_nat (List.length (dice this)))
           && negb (strict_eq (VNum diceIndex) excludeIndex)
        then
          console_log (LogUserChoice (dice_get (dice this) (VNum diceIndex))) ;;
          ret (VNum diceIndex)
        else
          console_log LogInvalidDice ;;
          userChooseDice_loop n' excludeIndex
  end.

Definition userChooseDice (excludeIndex : value) : M value :=
  userChooseDice_loop fuel excludeIndex.

Fixpoint rollDice_loop (n : nat) (d : Dice.t) (playerName : string) : M value :=
  match n with
  | O => timeout
  | S n' =>
      faceIndex <- fairRandomGeneration fuel 0 (Dice.getFaceCount d - 1)
                     (playerName ++ " dice roll") ;;
      if strict_eq faceIndex VNull then ret VNull
      else if strict_eq faceIndex (VStr "?") then
        displayProbabilityTable (dice this) ;;
        rollDice_loop n' d playerName
      else
        let rollResult := Dice.getValue d faceIndex in
        console_log (LogRollResult playerName rollResult) ;;
        ret rollResult
  end.

(** [rollDice(dice, playerName)]; the first argument is [undefined]
    when the caller's array lookup found no die. *)
Definition rollDice (d : option Dice.t) (playerName : string) : M value :=
  console_log (LogTimeToRoll playerName) ;;
  match d with
  | Some d => rollDice_loop fuel d playerName
  | None => throw TypeError
  end.

(** The body of the [try] block, from the dice selection on. *)
Definition play_from_selection
    (computerFirst firstPlayerDiceIndex secondPlayerDiceIndex : value)
    (firstPlayerName secondPlayerName : string) : M unit :=
  let firstDice := dice_get (dice this) firstPlayerDiceIndex in
  let secondDice := dice_get (dice this) secondPlayerDiceIndex in
  firstRoll <- rollDice firstDice firstPlayerName ;;
  if strict_eq firstRoll VNull then ret tt
  else
    secondRoll <- rollDice secondDice secondPlayerName ;;
    if strict_eq secondRoll VNull then ret tt
    else if truthy computerFirst then
      if js_gt firstRoll secondRoll then console_log (LogIWin firstRoll secondRoll)
      else if js_gt secondRoll firstRoll then console_log (LogYouWin secondRoll firstRoll)
      else console_log (LogTie firstRoll secondRoll)
    else
      if js_gt firstRoll secondRoll then console_log (LogYouWin firstRoll secondRoll)
      else if js_gt secondRoll firstRoll then console_log (LogIWin secondRoll firstRoll)
      else console_log (LogTie firstRoll secondRoll).

Definition play_body : M unit :=
  computerFirst <- determineFirstPlayer ;;
  if strict_eq computerFirst VNull then ret tt
  else if truthy computerFirst then
    firstPlayerDiceIndex <- computerChooseDice (VNum (Int (-1))) ;;
    secondPlayerDiceIndex <- userChooseDice firstPlayerDiceIndex ;;
    if strict_eq secondPlayerDiceIndex VNull then ret tt
    else play_from_selection computerFirst firstPlayerDiceIndex
                             secondPlayerDiceIndex "my" "your"
  else
    firstPlayerDiceIndex <- userChooseDice (VNum (Int (-1))) ;;
    if strict_eq firstPlayerDiceIndex VNull then ret tt
    else
      secondPlayerDiceIndex <- computerChooseDice firstPlayerDiceIndex ;;
      play_from_selection computerFirst firstPlayerDiceIndex
                          secondPlayerDiceIndex "your" "my".

(** [playGame]: no modelled error carries the code ['SIGINT'], so the
    [catch] clause rethrows; [finally] closes the input. *)
Definition playGame : M unit :=
  try_finally (try_catch play_body (fun e => throw e)) rl_close.
End Game.

End DiceGame.

(* ===================================================================== *)
(** ** main *)
(* ===================================================================== *)

Module Program.

(** [message.includes('dice') || ... ('required') || ... ('faces') ||
    ... ('integers')] on the message of each kind of error. *)
Definition is_usage_error (e : error) : bool :=
  match e with
  | FacesNotIntegers | WrongFaceCount _ | TooFewDice _ | InDice _ _ => true
  | RangeError | TypeError => false
  end.

(** [main], returning the exit code of the process: [process.exit(1)] on
    the error paths, 0 when [main] returns and nothing is left pending. *)
Definition main (fuel : nat) (args : list string) : M Z :=
  if (List.length args <? 3)%nat then
    console_log LogInsufficientArguments ;;
    console_log LogUsage ;;
    ret 1
  else
    try_catch
      (match Args.validateArguments args with
       | Raise e => throw e
       | Return diceConfigs =>
           let game := DiceGame.new diceConfigs in
           DiceGame.playGame fuel game ;;
           ret 0
       end)
      (fun e =>
         (if is_usage_error e
          then console_log (LogErrorMessage e) ;; console_log LogUsage
          else console_log (LogUnexpectedError e)) ;;
         ret 1).

End Program.

(* ===================================================================== *)
(** ** Auxiliary definitions used in the statements *)
(* ===================================================================== *)

(** [probabilities[i][j]]. *)
Definition matrix_entry (m : list (list real)) (i j : nat) : option real :=
  match nth_error m i with
  | Some row => nth_error row j
  | None => None
  end.

(** How many faces of [faces2] a given face beats. *)
Definition wins_against (face1 : Z) (faces2 : list Z) : Z :=
  Z.of_nat (List.length (filter (fun face2 => face1 >? face2) faces2)).

(** A fresh process: given entropy bytes, [Math.random] outcomes and the
    lines the user will type; sources repeat 0 once the lists run out. *)
Definition initial_world (bytes floats : list Z) (lines : list string) : world :=
  mkWorld (fun k => nth k bytes 0) 0 (fun k => nth k floats 0) 0 lines [] false.

(** The line cancels a prompt: trimmed and upper-cased it is [X]. *)
Definition is_cancel (line : string) : bool :=
  String.eqb (toUpperCase (trim line)) "X".

(** The line, as a prompt reads it, is a number entry for [u]. *)
Definition enters_number (line : string) (u : Z) : Prop :=
  String.eqb (toUpperCase (trim line)) "X" = false /\
  String.eqb (trim line) "?" = false /\
  parseInt (trim line) = Int u.

Definition no_adjudication (w : world) : Prop :=
  forallb (fun e => negb (is_adjudication e)) (stdout w) = true.

Definition is_byte (b : Z) : Prop := 0 <= b < 256.

(** A numeral: a non-empty run of decimal digits. *)
Definition numeral (s : string) : Prop :=
  all_digits s = true /\ starts_with_digit 10 s = true.

(** [m] looks at no more of the input than it reads: a run that finishes
    finishes the same way when further lines are waiting, and it writes
    no adjudication line. *)
Definition Framed {A} (m : M A) : Prop :=
  forall w a w',
    m w = Done a w' ->
    (forall lines, m (more_input w lines) = Done a (more_input w' lines)) /\
    (no_adjudication w -> no_adjudication w').

(** [m] never waits for input. *)
Definition NoBlock {A} (m : M A) : Prop := forall w, m w <> Blocked.

(** Whenever [m] is left waiting at a prompt, a cancelling line typed
    there makes it return at once with a result satisfying [P], leaving
    the lines after it unread and writing no adjudication line. *)
Definition Cancels {A} (P : A -> Prop) (m : M A) : Prop :=
  forall w x rest,
    m w = Blocked ->
    is_cancel x = true ->
    exists a w',
      m (more_input w (x :: rest)) = Done a w' /\
      P a /\ stdin w' = rest /\
      (no_adjudication w -> no_adjudication w').

Definition is_null (v : value) : Prop := v = VNull.

(** The test of [userChooseDice] on the parsed selection. *)
Definition acceptable (this : DiceGame.t) (excludeIndex : value) (diceIndex : num) : bool :=
  negb (isNaN diceIndex) && SecureRandomGenerator.num_ge diceIndex 0
  && SecureRandomGenerator.num_lt diceIndex (Z.of_nat (List.length (DiceGame.dice this)))
  && negb (strict_eq (VNum diceIndex) excludeIndex).

(** [m] only writes: it always finishes, and leaves the input as it was. *)
Definition Writes {A} (m : M A) : Prop :=
  forall w, exists a w', m w = Done a w' /\ stdin w' = stdin w.

(** Every result [m] returns satisfies [P]. *)
Definition Returns {A} (P : A -> Prop) (m : M A) : Prop :=
  forall w a w', m w = Done a w' -> P a.

(** The commitment phase of a fair exchange: the key is drawn, then the
    computer's number. *)
Definition commitment (fuel : nat) (min max : Z) (purpose : string) : M Z :=
  console_log (LogGenerating purpose) ;;
  key <- SecureRandomGenerator.generateSecureKey ;;
  SecureRandomGenerator.generateUniformRandom fuel min max key.

(** Every run of [m] that finishes has only added lines satisfying [P]
    to the output. *)
Definition Emits {A} (P : event -> bool) (m : M A) : Prop :=
  forall w a w',
    m w = Done a w' ->
    exists evs, stdout w' = (stdout w ++ evs)%list /\ forallb P evs = true.

(** [m] leaves the entropy source, the input and the input handle alone. *)
Definition Untouched (w w' : world) : Prop :=
  stdin w' = stdin w /\ entropy_used w' = entropy_used w /\
  uniform_used w' = uniform_used w /\ rl_closed w' = rl_closed w.

Fixpoint comma_free (s : string) : bool :=
  match s with
  | String c s' => negb (Ascii.eqb c ",") && comma_free s'
  | EmptyString => true
  end.

(** The string is empty or starts with a character [trim] keeps. *)
Definition starts_clean (s : string) : bool :=
  match s with
  | String c _ => negb (is_white_space c)
  | EmptyString => true
  end.

(** Number of pairs of [l1] x [l2] that [f] holds of, counted the way the
    nested loops of [calculatePairProbability] visit them. *)
Definition count_pairs (f : Z -> Z -> bool) (l1 l2 : list Z) : Z :=
  fold_right (fun a acc =>
                Z.of_nat (List.length (filter (f a) l2)) + acc) 0 l1.

(** The line [playGame] writes for the computer's roll [mine] against the
    user's roll [yours], [first] and [second] being the rolls in playing
    order. *)
Definition verdict (mine yours first second : value) : event :=
  if js_gt mine yours then LogIWin mine yours
  else if js_gt yours mine then LogYouWin yours mine
  else LogTie first second.

(** The world after the lines [evs] have been written, in order. *)
Definition writes (w : world) (evs : list event) : world := fold_left write evs w.

(** The world after a prompt has been written and answered, [rest] being
    the lines still waiting. *)
Definition answered (w : world) (prompt : string) (rest : list string) : world :=
  mkWorld (entropy w) (entropy_used w) (uniform w) (uniform_used w)
          rest (stdout w ++ [Prompt prompt])%list (rl_closed w).

(** The lines [getUserNumber] writes before each prompt. *)
Definition number_menu (min max : Z) : list event :=
  (LogAddModulo (max - min + 1) :: map LogNumberOption (range_incl min max)
   ++ [LogExitOption; LogHelpOption])%list.

(** The lines [userChooseDice] writes before each prompt. *)
Definition dice_menu (this : DiceGame.t) (excludeIndex : value) : list event :=
  (LogChooseYourDice
   :: map (fun '(i, d) => LogDiceOption i (Dice.faces d))
          (filter (fun '(i, _) => negb (strict_eq (VNum (Int i)) excludeIndex))
                  (mapi (fun i d => (i, d)) (DiceGame.dice this)))
   ++ [LogExitOption; LogHelpOption])%list.

(** The test of [getUserNumber] on the parsed entry. *)
Definition in_range (min max : Z) (num : num) : bool :=
  negb (isNaN num) && SecureRandomGenerator.num_ge num min
  && SecureRandomGenerator.num_le num max.


(** An entry after which [userChooseDice] prompts again: a Help request,
    or a selection it does not accept. *)
Definition retried_selection (this : DiceGame.t) (excludeIndex : value)
    (line : string) : Prop :=
  String.eqb (toUpperCase (trim line)) "X" = false /\
  (String.eqb (trim line) "?" = true \/
   acceptable this excludeIndex (parseInt (trim line)) = false).

(** The world at the end of a sample exchange over [0,1] in which the
    user enters 1. *)
Definition sample_round_end : world :=
  match SecureRandomGenerator.fairRandomGeneration 1 0 1 "roll"
          (initial_world [] [] ["1"]) with
  | Done _ w' => w'
  | _ => initial_world [] [] []
  end.

(** The worlds after the first and after the second roll of a sample
    game in which the user, moving first with die 1, enters 2 and then 3. *)
Definition sample_first_roll_end : world :=
  match DiceGame.rollDice 1 (DiceGame.new [[2; 2; 4; 4; 9; 9]; [1; 1; 6; 6; 8; 8];
                                           [3; 3; 5; 5; 7; 7]])
          (Some (Dice.new [1; 1; 6; 6; 8; 8] 1)) "your"
          (initial_world [] [] ["2"; "3"]) with
  | Done _ w' => w'
  | _ => initial_world [] [] []
  end.

Definition sample_second_roll_end : world :=
  match DiceGame.rollDice 1 (DiceGame.new [[2; 2; 4; 4; 9; 9]; [1; 1; 6; 6; 8; 8];
                                           [3; 3; 5; 5; 7; 7]])
          (Some (Dice.new [2; 2; 4; 4; 9; 9] 0)) "my" sample_first_roll_end with
  | Done _ w' => w'
  | _ => initial_world [] [] []
  end.

(** The world after the first-move determination of a sample game in
    which the user enters 1. *)
Definition sample_first_move_end : world :=
  match DiceGame.determineFirstPlayer 1
          (DiceGame.new [[2; 2; 4; 4; 9; 9]; [1; 1; 6; 6; 8; 8]; [3; 3; 5; 5; 7; 7]])
          (initial_world [] [] ["1"]) with
  | Done _ w' => w'
  | _ => initial_world [] [] []
  end.

(** The world at the end of a sample game played to its verdict. *)
Definition sample_game_end : world :=
  match DiceGame.playGame 1
          (DiceGame.new [[2; 2; 4; 4; 9; 9]; [1; 1; 6; 6; 8; 8]; [3; 3; 5; 5; 7; 7]])
          (initial_world [] [] ["0"; "1"; "2"; "3"]) with
  | Done _ w' => w'
  | _ => initial_world [] [] []
  end.

(** The dice of the specification's example, and a third one. *)
Definition die_A : Dice.t := Dice.new [2; 2; 4; 4; 9; 9] 0.
Definition die_B : Dice.t := Dice.new [1; 1; 6; 6; 8; 8] 1.
Definition die_C : Dice.t := Dice.new [3; 3; 5; 5; 7; 7] 2.

Definition sample_args : list string :=
  ["2,2,4,4,9,9"; "1,1,6,6,8,8"; "3,3,5,5,7,7"].

Definition sample_configs : list (list Z) :=
  [[2; 2; 4; 4; 9; 9]; [1; 1; 6; 6; 8; 8]; [3; 3; 5; 5; 7; 7]].

Definition sample_game : DiceGame.t := DiceGame.new sample_configs.

(** A Number that holds the integer [z] exactly and prints all its
    digits: [Number.isSafeInteger]. *)
Definition safe_integer (z : Z) : bool := Z.abs z <? 2 ^ 53.





(** The two players. *)
Inductive player : Type := Computer | User.

(** The selection a line of the output announces: who chose, and the
    index of the die chosen. *)
Definition selection (e : event) : option (player * Z) :=
  match e with
  | LogComputerChoice (Some d) => Some (Computer, Dice.index d)
  | LogUserChoice (Some d) => Some (User, Dice.index d)
  | _ => None
  end.

(** The selections announced on an output, oldest first. *)
Definition selections (out : list event) : list (player * Z) :=
  flat_map (fun e => match selection e with Some s => [s] | None => [] end) out.

(** The world a run ends in, by a return or by an exception. *)
Definition final_world {A} (r : result A) : option world :=
  match r with
  | Done _ w | Throw _ w => Some w
  | Blocked | Timeout => None
  end.

(** From [w] to [w'] no selection has been announced and [Math.random]
    has not been called; the two sources are the same. *)
Definition no_selection (w w' : world) : Prop :=
  entropy w' = entropy w /\ uniform w' = uniform w /\
  uniform_used w' = uniform_used w /\
  selections (stdout w') = selections (stdout w).

(** However [m] ends, it has announced no selection. *)
Definition Silent {A} (m : M A) : Prop :=
  forall w w', final_world (m w) = Some w' -> no_selection w w'.

(** The selections one game may announce, for [n] dice: none, one, or
    two by different players of different dice. *)
Definition one_die_each (n : Z) (picks : list (player * Z)) : Prop :=
  picks = [] \/
  (exists p a, picks = [(p, a)] /\ 0 <= a < n) \/
  (exists p a q b,
      picks = [(p, a); (q, b)] /\ p <> q /\
      0 <= a < n /\ 0 <= b < n /\ b <> a).

(* ===================================================================== *)
(** ** Probability Engine *)
(* ===================================================================== *)

Module ProbabilityFacts.
Import ProbabilityCalculator.

Lemma inner_loop_counts face1 faces2 :
  forall wins total,
    inner_loop face1 faces2 (wins, total)
    = (wins + wins_against face1 faces2, total + Z.of_nat (List.length faces2)).
Proof.
  unfold inner_loop, wins_against.
  induction faces2 as [|face2 faces2 IH]; intros wins total.
  - simpl. f_equal; lia.
  - cbn [fold_left filter]. rewrite IH.
    destruct (face1 >? face2); cbn [List.length]; f_equal; lia.
Qed.

Lemma filter_pairs_length (x : Z) (l : list Z) :
  List.length (filter (fun '(a, b) => a >? b) (map (pair x) l))
  = List.length (filter (fun b => x >? b) l).
Proof.
  induction l as [|b l IH]; simpl; [reflexivity|].
  destruct (x >? b); simpl; congruence.
Qed.

Lemma outer_loop_counts faces1 faces2 :
  forall wins total,
    outer_loop faces1 faces2 (wins, total)
    = (wins + Z.of_nat (List.length
                (filter (fun '(a, b) => a >? b) (list_prod faces1 faces2))),
       total + Z.of_nat (List.length faces1) * Z.of_nat (List.length faces2)).
Proof.
  unfold outer_loop.
  induction faces1 as [|face1 faces1 IH]; intros wins total.
  - simpl. f_equal; lia.
  - cbn [fold_left list_prod]. rewrite inner_loop_counts, IH.
    rewrite filter_app, length_app, filter_pairs_length.
    unfold wins_against. cbn [List.length]. f_equal; lia.
Qed.

(** The loops of [calculatePairProbability] compute the contract. *)
Lemma calculatePairProbability_spec dice1 dice2 :
  calculatePairProbability dice1 dice2 = pairwiseWinProbability_spec dice1 dice2.
Proof.
  unfold calculatePairProbability, pairwiseWinProbability_spec, Dice.getFaceCount.
  rewrite outer_loop_counts. reflexivity.
Qed.

Lemma nth_error_mapi_from {A B} (f : Z -> A -> B) (l : list A) :
  forall (k : Z) (i : nat),
    nth_error (mapi_from k f l) i
    = option_map (f (k + Z.of_nat i)) (nth_error l i).
Proof.
  induction l as [|x l IH]; intros k i.
  - destruct i; reflexivity.
  - destruct i as [|i]; cbn [mapi_from nth_error].
    + simpl. now rewrite Z.add_0_r.
    + rewrite IH. do 2 f_equal. lia.
Qed.

Lemma nth_error_mapi {A B} (f : Z -> A -> B) (l : list A) (i : nat) :
  nth_error (mapi f l) i = option_map (f (Z.of_nat i)) (nth_error l i).
Proof. unfold mapi. now rewrite nth_error_mapi_from. Qed.

Lemma matrix_entry_eq dice i j di dj :
  nth_error dice i = Some di ->
  nth_error dice j = Some dj ->
  matrix_entry (calculateWinProbabilities dice) i j
  = Some (if Z.of_nat i =? Z.of_nat j then Finite (1 # 2)
          else calculatePairProbability di dj).
Proof.
  intros Hi Hj. unfold matrix_entry, calculateWinProbabilities.
  rewrite nth_error_mapi, Hi. cbn [option_map].
  rewrite nth_error_mapi, Hj. reflexivity.
Qed.

End ProbabilityFacts.

(** C6.  For every list of dice, the entry [i][j] of the probability
    matrix with [i <> j] is the number of face pairs of the full Cartesian
    product in which die [i]'s face is strictly greater than die [j]'s,
    divided by the product of the two face counts, and every diagonal
    entry is 0.5. *)
Theorem matrix_entries_exhaustive (dice : list Dice.t) :
  (forall i j di dj,
      nth_error dice i = Some di ->
      nth_error dice j = Some dj ->
      i <> j ->
      matrix_entry (ProbabilityCalculator.calculateWinProbabilities dice) i j
      = Some (ProbabilityCalculator.pairwiseWinProbability_spec di dj)) /\
  (forall i di,
      nth_error dice i = Some di ->
      matrix_entry (ProbabilityCalculator.calculateWinProbabilities dice) i i
      = Some (Finite (1 # 2))).
Proof.
  split.
  - intros i j di dj Hi Hj Hne.
    rewrite (ProbabilityFacts.matrix_entry_eq dice i j di dj Hi Hj).
    destruct (Z.eqb_spec (Z.of_nat i) (Z.of_nat j)) as [E|_]; [lia|].
    now rewrite ProbabilityFacts.calculatePairProbability_spec.
  - intros i di Hi.
    rewrite (ProbabilityFacts.matrix_entry_eq dice i i di di Hi Hi).
    now rewrite Z.eqb_refl.
Qed.

Lemma matrix_entries_exhaustive_witness :
  matrix_entry (ProbabilityCalculator.calculateWinProbabilities [die_A; die_B; die_C])
               0 1
  = Some (Finite (20 # 36)) /\
  matrix_entry (ProbabilityCalculator.calculateWinProbabilities [die_A; die_B; die_C])
               2 2
  = Some (Finite (1 # 2)).
Proof.
  destruct (matrix_entries_exhaustive [die_A; die_B; die_C]) as [Hoff Hdiag].
  split.
  - rewrite (Hoff 0%nat 1%nat die_A die_B); [reflexivity| reflexivity | reflexivity | discriminate].
  - apply (Hdiag 2%nat die_C). reflexivity.
Defined.

(** C3 as stated fails: the probability computed for A = [2,2,4,4,9,9]
    against B = [1,1,6,6,8,8] is 20/36, which is not 0.5. *)
Lemma pair_probability_A_B_is_not_half :
  ProbabilityCalculator.calculatePairProbability die_A die_B = Finite (20 # 36) /\
  ~ (20 # 36 == 1 # 2)%Q.
Proof.
  split; [reflexivity|].
  unfold Qeq. simpl. discriminate.
Qed.

(** C3, amended.  The pairwise win probability computed for die
    A = [2,2,4,4,9,9] against die B = [1,1,6,6,8,8] equals the exact
    fraction over all 36 face pairs, and that value is 20/36 = 5/9. *)
Theorem pair_probability_A_B :
  ProbabilityCalculator.calculatePairProbability die_A die_B
  = ProbabilityCalculator.pairwiseWinProbability_spec die_A die_B /\
  List.length (list_prod (Dice.faces die_A) (Dice.faces die_B)) = 36%nat /\
  ProbabilityCalculator.calculatePairProbability die_A die_B = Finite (20 # 36) /\
  (20 # 36 == 5 # 9)%Q.
Proof.
  split; [apply ProbabilityFacts.calculatePairProbability_spec|].
  split; [reflexivity|].
  split; reflexivity.
Qed.

(* ===================================================================== *)
(** ** Argument validation *)
(* ===================================================================== *)

Module ArgsFacts.
Import Args.

Lemma parse_faces_Return tokens :
  forallb (fun x => negb (isNaN (parseInt (trim x)))) tokens = true ->
  exists values,
    parse_faces tokens = Return values /\ List.length values = List.length tokens.
Proof.
  induction tokens as [|x tokens IH]; simpl; intros H.
  - now exists [].
  - apply andb_prop in H. destruct H as [Hx Hrest].
    destruct (parseInt (trim x)) as [num|]; [|discriminate].
    destruct (IH Hrest) as (values & -> & Hlen).
    exists (num :: values). simpl. now rewrite Hlen.
Qed.

Lemma parse_faces_inv tokens values :
  parse_faces tokens = Return values ->
  forallb (fun x => negb (isNaN (parseInt (trim x)))) tokens = true /\
  List.length values = List.length tokens.
Proof.
  revert values.
  induction tokens as [|x tokens IH]; simpl; intros values H.
  - inversion H. now split.
  - destruct (parseInt (trim x)) as [num|]; [|discriminate].
    destruct (parse_faces tokens) as [vs|e]; [|discriminate].
    inversion H; subst. destruct (IH vs eq_refl) as [Ha Hl].
    simpl. now rewrite Ha, Hl.
Qed.

(** A die is accepted exactly when each token has a leading integer and
    there are six tokens. *)
Lemma parseDiceConfig_Return_iff configStr :
  (exists values, parseDiceConfig configStr = Return values) <->
  (tokens_parse configStr = true /\ face_count configStr = 6%nat).
Proof.
  unfold parseDiceConfig, tokens_parse, face_count. split.
  - intros [values H].
    destruct (parse_faces (split_comma configStr)) as [vs|e] eqn:E; [|discriminate].
    apply parse_faces_inv in E. destruct E as [Hp Hl].
    split; [exact Hp|].
    destruct (Nat.eqb_spec (List.length vs) 6); simpl in H; [congruence|discriminate].
  - intros [Hp Hc].
    destruct (parse_faces_Return _ Hp) as (values & -> & Hl).
    exists values. rewrite Hl, Hc. reflexivity.
Qed.

Lemma parseDiceConfig_length configStr values :
  parseDiceConfig configStr = Return values -> List.length values = 6%nat.
Proof.
  unfold parseDiceConfig.
  destruct (parse_faces (split_comma configStr)) as [vs|e]; [|discriminate].
  destruct (Nat.eqb_spec (List.length vs) 6); simpl; [|discriminate].
  intros H; inversion H; subst; assumption.
Qed.

Lemma validate_from_Return_iff args :
  forall i,
    (exists configs, validate_from i args = Return configs) <->
    Forall (fun a => tokens_parse a = true /\ face_count a = 6%nat) args.
Proof.
  induction args as [|a args IH]; intros i; simpl.
  - split; [constructor | now exists []].
  - split.
    + intros [configs H].
      destruct (parseDiceConfig a) as [config|e] eqn:Ea; [|discriminate].
      destruct (validate_from (i + 1) args) as [cs|e] eqn:Er; [|discriminate].
      constructor.
      * apply parseDiceConfig_Return_iff. now exists config.
      * apply (IH (i + 1)). rewrite Er. now exists cs.
    + intros H. inversion H as [|? ? Ha Hr]; subst.
      apply parseDiceConfig_Return_iff in Ha. destruct Ha as [config ->].
      apply (IH (i + 1)) in Hr. destruct Hr as [cs ->].
      now exists (config :: cs).
Qed.

Lemma validate_from_shape args :
  forall i configs,
    validate_from i args = Return configs ->
    List.length configs = List.length args /\
    Forall (fun c => List.length c = 6%nat) configs.
Proof.
  induction args as [|a args IH]; intros i configs; simpl; intros H.
  - inversion H. split; [reflexivity|constructor].
  - destruct (parseDiceConfig a) as [config|e] eqn:Ea; [|discriminate].
    destruct (validate_from (i + 1) args) as [cs|e] eqn:Er; [|discriminate].
    inversion H; subst. destruct (IH _ _ Er) as [Hl Hf].
    split; [simpl; congruence|].
    constructor; [eapply parseDiceConfig_length; eauto | assumption].
Qed.

Lemma validateArguments_Return_iff args :
  (exists configs, validateArguments args = Return configs) <->
  ((3 <= List.length args)%nat /\
   Forall (fun a => tokens_parse a = true /\ face_count a = 6%nat) args).
Proof.
  unfold validateArguments.
  destruct (Nat.ltb_spec (List.length args) 3) as [Hlt|Hge].
  - split; [intros [? H]; discriminate | intros [H _]; lia].
  - rewrite validate_from_Return_iff. split; [intros H; split; assumption | tauto].
Qed.

(** A token without a leading integer makes validation throw. *)
Lemma validateArguments_rejects_NaN args a x :
  In a args -> In x (split_comma a) -> parseInt (trim x) = NaN ->
  exists e, validateArguments args = Raise e.
Proof.
  intros Ha Hx Hnan.
  destruct (validateArguments args) as [configs|e] eqn:E; [|now exists e].
  exfalso.
  assert (H : exists c, validateArguments args = Return c) by now exists configs.
  apply validateArguments_Return_iff in H. destruct H as [_ Hall].
  rewrite Forall_forall in Hall. destruct (Hall a Ha) as [Hp _].
  unfold tokens_parse in Hp. rewrite forallb_forall in Hp.
  specialize (Hp x Hx). rewrite Hnan in Hp. discriminate.
Qed.

End ArgsFacts.

(** C4 as stated fails: three dice that all have three faces, equal and
    positive face counts, are rejected, because the face count is not 6. *)
Lemma three_faced_dice_rejected :
  (3 <= List.length ["1,2,3"; "4,5,6"; "7,8,9"])%nat /\
  Forall (fun a => Args.tokens_parse a = true /\ Args.face_count a = 3%nat)
         ["1,2,3"; "4,5,6"; "7,8,9"] /\
  Args.validateArguments ["1,2,3"; "4,5,6"; "7,8,9"]
  = Raise (InDice 1 (WrongFaceCount 3)).
Proof.
  split; [simpl; lia|].
  split; [|reflexivity].
  repeat constructor.
Qed.

(** C4, amended.  The per-game face count is the constant 6, whatever the
    first die supplied: argument validation accepts a list of dice exactly
    when there are at least 3 dice, every token of every die has a leading
    integer, and every die has 6 faces; the accepted configuration then
    holds one list of 6 integers per argument.  Consequently any two dice
    with unequal face counts make validation throw. *)
Theorem validation_requires_six_faces (args : list string) :
  ((exists configs, Args.validateArguments args = Return configs) <->
   ((3 <= List.length args)%nat /\
    Forall (fun a => Args.tokens_parse a = true /\ Args.face_count a = 6%nat) args)) /\
  (forall configs,
      Args.validateArguments args = Return configs ->
      List.length configs = List.length args /\
      Forall (fun c => List.length c = 6%nat) configs) /\
  (forall a b,
      In a args -> In b args -> Args.face_count a <> Args.face_count b ->
      exists e, Args.validateArguments args = Raise e).
Proof.
  split; [apply ArgsFacts.validateArguments_Return_iff|].
  split.
  - unfold Args.validateArguments.
    destruct (List.length args <? 3)%nat; [discriminate|].
    intros configs H. eapply ArgsFacts.validate_from_shape; eauto.
  - intros a b Ha Hb Hne.
    destruct (Args.validateArguments args) as [configs|e] eqn:E; [|now exists e].
    exfalso.
    assert (H : exists c, Args.validateArguments args = Return c) by now exists configs.
    apply ArgsFacts.validateArguments_Return_iff in H. destruct H as [_ Hall].
    rewrite Forall_forall in Hall.
    destruct (Hall a Ha) as [_ Hca]. destruct (Hall b Hb) as [_ Hcb]. congruence.
Qed.

Lemma validation_requires_six_faces_witness :
  (exists configs, Args.validateArguments sample_args = Return configs) /\
  (exists e, Args.validateArguments ["1,2,3,4,5,6"; "1,2,3"; "1,2,3,4,5,6"] = Raise e).
Proof.
  split.
  - apply (proj1 (validation_requires_six_faces sample_args)).
    split; [simpl; lia | repeat constructor].
  - apply (proj2 (proj2 (validation_requires_six_faces
                            ["1,2,3,4,5,6"; "1,2,3"; "1,2,3,4,5,6"]))
             "1,2,3,4,5,6" "1,2,3").
    + simpl; auto.
    + simpl; auto.
    + vm_compute. discriminate.
Defined.

(** C5 fails on the code: the token [3.7] is not an integer, yet
    [parseInt] reads its leading 3 and the die is accepted; the game is
    created and a later cancellation ends the process with exit code 0. *)
Theorem fractional_face_is_accepted :
  parseInt (trim "3.7") = Int 3 /\
  Args.validateArguments ["1,2,3,4,5,3.7"; "1,2,3,4,5,6"; "6,5,4,3,2,1"]
  = Return [[1; 2; 3; 4; 5; 3]; [1; 2; 3; 4; 5; 6]; [6; 5; 4; 3; 2; 1]] /\
  Program.main 1 ["1,2,3,4,5,3.7"; "1,2,3,4,5,6"; "6,5,4,3,2,1"]
               (initial_world [] [] [])
  = Blocked /\
  exists w',
    Program.main 1 ["1,2,3,4,5,3.7"; "1,2,3,4,5,6"; "6,5,4,3,2,1"]
                 (initial_world [] [] ["X"])
    = Done 0 w'.
Proof.
  split; [reflexivity|].
  split; [reflexivity|].
  split; [reflexivity|].
  eexists. vm_compute. reflexivity.
Qed.

(* ===================================================================== *)
(** ** Commitment Generator: the random draw *)
(* ===================================================================== *)

Module DrawFacts.
Import SecureRandomGenerator.

Lemma to_int32_small z : - 2 ^ 31 <= z < 2 ^ 31 -> to_int32 z = z.
Proof.
  intros H. unfold to_int32.
  rewrite Z.mod_small; lia.
Qed.

Lemma shl32_small x : 0 <= x < 2 ^ 23 -> shl32 x 8 = x * 256.
Proof.
  intros H. unfold shl32.
  change (8 mod 32) with 8.
  rewrite (to_int32_small x) by lia.
  rewrite Z.shiftl_mul_pow2 by lia.
  change (2 ^ 8) with 256.
  apply to_int32_small. lia.
Qed.

Lemma fold_assemble_small bytes :
  forall acc bound,
    Forall is_byte bytes ->
    0 <= acc < bound ->
    bound * 256 ^ Z.of_nat (List.length bytes) <= 2 ^ 31 ->
    let v := fold_left (fun a b => shl32 a 8 + b) bytes acc in
    v = fold_left (fun a b => a * 256 + b) bytes acc /\
    0 <= v < bound * 256 ^ Z.of_nat (List.length bytes).
Proof.
  induction bytes as [|b bytes IH]; intros acc bound Hb Hacc Hbound; cbn zeta.
  - cbn [fold_left List.length Z.of_nat]. change (256 ^ 0) with 1. split; [reflexivity|lia].
  - inversion Hb as [|? ? Hb0 Hbs]; subst. unfold is_byte in Hb0.
    cbn [fold_left].
    assert (Hpow : 256 ^ Z.of_nat (List.length (b :: bytes))
                   = 256 * 256 ^ Z.of_nat (List.length bytes)).
    { cbn [List.length]. rewrite Nat2Z.inj_succ, Z.pow_succ_r by lia. reflexivity. }
    rewrite Hpow in *.
    assert (Hp : 1 <= 256 ^ Z.of_nat (List.length bytes)).
    { assert (0 < 256 ^ Z.of_nat (List.length bytes)) by (apply Z.pow_pos_nonneg; lia). lia. }
    assert (Hs : shl32 acc 8 = acc * 256).
    { apply shl32_small. change (2 ^ 23) with 8388608. change (2 ^ 31) with 2147483648 in Hbound. nia. }
    rewrite Hs.
    destruct (IH (acc * 256 + b) (bound * 256) Hbs) as [E R]; [lia | lia |].
    split; [exact E | lia].
Qed.

(** Up to three bytes assemble to the numeral they spell. *)
Lemma assemble_small bytes :
  Forall is_byte bytes ->
  (List.length bytes <= 3)%nat ->
  assemble bytes = big_endian bytes /\
  0 <= assemble bytes < 256 ^ Z.of_nat (List.length bytes).
Proof.
  intros Hb Hl. unfold assemble, big_endian.
  destruct (fold_assemble_small bytes 0 1 Hb) as [E R]; [lia | |].
  - assert (256 ^ Z.of_nat (List.length bytes) <= 256 ^ 3)
      by (apply Z.pow_le_mono_r; lia).
    change (256 ^ 3) with 16777216 in *. change (2 ^ 31) with 2147483648. lia.
  - split; [exact E | lia].
Qed.

Lemma randomBytes_are_bytes n w :
  exists bytes,
    randomBytes n w
    = Done bytes (mkWorld (entropy w) (entropy_used w + n) (uniform w)
                          (uniform_used w) (stdin w) (stdout w) (rl_closed w)) /\
    List.length bytes = n /\ Forall is_byte bytes.
Proof.
  eexists. split; [reflexivity|]. split.
  - now rewrite length_map, length_seq.
  - apply Forall_forall. intros b Hin. apply in_map_iff in Hin.
    destruct Hin as (k & <- & _). unfold is_byte. apply Z.mod_pos_bound. lia.
Qed.

(** The loop returns a draw exactly when it is at most [maxValid]: every
    draw above it is thrown away and the loop runs again. *)
Lemma draw_loop_step n range count w :
  draw_loop (S n) range count w
  = let bytes := map (fun k => entropy w k mod 256) (seq (entropy_used w) count) in
    let w' := mkWorld (entropy w) (entropy_used w + count) (uniform w)
                      (uniform_used w) (stdin w) (stdout w) (rl_closed w) in
    if assemble bytes >? maxValid count range
    then draw_loop n range count w'
    else Done (assemble bytes) w'.
Proof.
  cbn [draw_loop]. unfold bind, randomBytes. cbv zeta.
  destruct (_ >? _); reflexivity.
Qed.

Lemma draw_loop_Done n :
  forall range count w v w',
    draw_loop n range count w = Done v w' ->
    exists bytes,
      List.length bytes = count /\ Forall is_byte bytes /\
      v = assemble bytes /\ v <= maxValid count range.
Proof.
  induction n as [|n IH]; intros range count w v w' H; [discriminate|].
  rewrite draw_loop_step in H. cbn zeta in H.
  destruct (randomBytes_are_bytes count w) as (bytes & Hb & Hl & Hf).
  unfold randomBytes in Hb. inversion Hb as [Hbytes]. rewrite Hbytes in H.
  destruct (Z.gtb_spec (assemble bytes) (maxValid count range)) as [Hgt|Hle].
  - eapply IH; eauto.
  - inversion H; subst v. exists bytes. repeat split; auto.
Qed.

Lemma bytesNeeded_small range :
  0 < range <= 2 ^ 24 -> (bytesNeeded range <= 3)%nat.
Proof.
  intros [Hpos Hle]. unfold bytesNeeded.
  assert (Hlog : Z.log2_up range <= 24) by (apply Z.log2_up_le_pow2; lia).
  pose proof (Z.log2_up_nonneg range).
  assert ((Z.log2_up range + 7) / 8 < 4).
  { apply Z.div_lt_upper_bound; lia. }
  lia.
Qed.

(** The degenerate range: no byte is drawn, nothing is divided by zero,
    and the draw is [min]. *)
Lemma generateUniformRandom_degenerate fuel min key w :
  exists w', generateUniformRandom (S fuel) min min key w = Done min w'.
Proof.
  unfold generateUniformRandom.
  replace (min - min + 1) with 1 by lia.
  eexists. cbn. reflexivity.
Qed.

(** For ranges of at most 2^24 values no shift overflows and the draw
    lies in the range. *)
Lemma generateUniformRandom_in_range fuel min max key w v w' :
  min <= max -> max - min + 1 <= 2 ^ 24 ->
  generateUniformRandom fuel min max key w = Done v w' ->
  min <= v <= max.
Proof.
  intros Hmm Hsmall H. unfold generateUniformRandom in H.
  destruct (Z.leb_spec (max - min + 1) 0) as [?|Hpos]; [lia|].
  unfold bind in H.
  destruct (draw_loop fuel (max - min + 1) (bytesNeeded (max - min + 1)) w)
    as [rv w1| | |] eqn:E; try discriminate.
  inversion H; subst v w1. clear H.
  apply draw_loop_Done in E. destruct E as (bytes & Hl & Hf & -> & _).
  destruct (assemble_small bytes Hf) as [_ [Hnn _]].
  { rewrite Hl. apply bytesNeeded_small. lia. }
  pose proof (Z.rem_bound_pos (assemble bytes) (max - min + 1) Hnn Hpos). lia.
Qed.

End DrawFacts.

(** C7 fails on the code once the range needs four bytes: for
    [min = 0], [max = 2^24] the bytes 80 00 00 00 are assembled with the
    32-bit shift into -2^31, which is not above [maxValid], so the draw is
    kept and the value returned is -16777089, below [min]. *)
Theorem wide_range_draw_leaves_range :
  SecureRandomGenerator.bytesNeeded (16777216 - 0 + 1) = 4%nat /\
  SecureRandomGenerator.assemble [128; 0; 0; 0] = -2147483648 /\
  SecureRandomGenerator.maxValid 4 (16777216 - 0 + 1) = 4278190334 /\
  (exists w',
      SecureRandomGenerator.generateUniformRandom 1 0 16777216 []
        (initial_world [128; 0; 0; 0] [] [])
      = Done (-16777089) w') /\
  ~ (0 <= -16777089 <= 16777216).
Proof.
  split; [reflexivity|].
  split; [reflexivity|].
  split; [reflexivity|].
  split; [eexists; vm_compute; reflexivity | lia].
Qed.

(* ===================================================================== *)
(** ** Reasoning about runs: framing, blocking, cancelling *)
(* ===================================================================== *)

Module RunFacts.

Lemma no_adjudication_write w e :
  is_adjudication e = false -> no_adjudication w -> no_adjudication (write w e).
Proof.
  unfold no_adjudication, write. cbn [stdout]. intros He Hw.
  rewrite forallb_app, Hw. simpl. now rewrite He.
Qed.

(** *** Framed *)

Lemma Framed_ret {A} (a : A) : Framed (ret a).
Proof. intros w a' w' H. inversion H; subst. split; [reflexivity|auto]. Qed.

Lemma Framed_throw {A} e : Framed (@throw A e).
Proof. intros w a w' H. discriminate. Qed.

Lemma Framed_timeout {A} : Framed (@timeout A).
Proof. intros w a w' H. discriminate. Qed.

Lemma Framed_bind {A B} (m : M A) (k : A -> M B) :
  Framed m -> (forall a, Framed (k a)) -> Framed (bind m k).
Proof.
  intros Hm Hk w b w' H. unfold bind in H.
  destruct (m w) as [a w1| | |] eqn:E; try discriminate.
  destruct (Hm _ _ _ E) as [Hm1 Hm2]. destruct (Hk a _ _ _ H) as [Hk1 Hk2].
  split.
  - intros lines. unfold bind. now rewrite Hm1.
  - auto.
Qed.

Lemma Framed_console_log e : is_adjudication e = false -> Framed (console_log e).
Proof.
  intros He w a w' H. inversion H; subst. split; [reflexivity|].
  now apply no_adjudication_write.
Qed.

Lemma Framed_randomBytes n : Framed (randomBytes n).
Proof. intros w a w' H. inversion H; subst. split; [reflexivity|auto]. Qed.

Lemma Framed_math_random : Framed math_random.
Proof. intros w a w' H. inversion H; subst. split; [reflexivity|auto]. Qed.

Lemma Framed_rl_close : Framed rl_close.
Proof. intros w a w' H. inversion H; subst. split; [reflexivity|auto]. Qed.

Lemma Framed_question prompt : Framed (question prompt).
Proof.
  intros w a w' H. unfold question in *.
  destruct (stdin w) as [|answer rest] eqn:E; [discriminate|].
  inversion H; subst. split.
  - intros lines. unfold more_input at 1. cbn [stdin]. rewrite E. reflexivity.
  - unfold no_adjudication. cbn [stdout]. intros Hw.
    rewrite forallb_app, Hw. reflexivity.
Qed.

Lemma Framed_for_each {A} (l : list A) (body : A -> M unit) :
  (forall x, Framed (body x)) -> Framed (for_each l body).
Proof.
  intros Hb. induction l as [|x l IH]; cbn [for_each].
  - apply Framed_ret.
  - apply Framed_bind; auto.
Qed.

(** *** NoBlock *)

Lemma NoBlock_ret {A} (a : A) : NoBlock (ret a).
Proof. intros w; discriminate. Qed.

Lemma NoBlock_throw {A} e : NoBlock (@throw A e).
Proof. intros w; discriminate. Qed.

Lemma NoBlock_timeout {A} : NoBlock (@timeout A).
Proof. intros w; discriminate. Qed.

Lemma NoBlock_console_log e : NoBlock (console_log e).
Proof. intros w; discriminate. Qed.

Lemma NoBlock_randomBytes n : NoBlock (randomBytes n).
Proof. intros w; discriminate. Qed.

Lemma NoBlock_math_random : NoBlock math_random.
Proof. intros w; discriminate. Qed.

Lemma NoBlock_bind {A B} (m : M A) (k : A -> M B) :
  NoBlock m -> (forall a, NoBlock (k a)) -> NoBlock (bind m k).
Proof.
  intros Hm Hk w. unfold bind.
  destruct (m w) as [a w1| | |] eqn:E; try discriminate.
  - apply Hk.
  - now apply Hm in E.
Qed.

Lemma NoBlock_for_each {A} (l : list A) (body : A -> M unit) :
  (forall x, NoBlock (body x)) -> NoBlock (for_each l body).
Proof.
  intros Hb. induction l as [|x l IH]; cbn [for_each].
  - apply NoBlock_ret.
  - apply NoBlock_bind; auto.
Qed.

(** *** Cancels *)

Lemma Cancels_NoBlock {A} (P : A -> Prop) (m : M A) : NoBlock m -> Cancels P m.
Proof. intros Hm w x rest H. now apply Hm in H. Qed.

Lemma Cancels_bind {A B} (Q : A -> Prop) (P : B -> Prop) (m : M A) (k : A -> M B) :
  Framed m ->
  Cancels Q m ->
  (forall a, Cancels P (k a)) ->
  (forall a, Q a -> exists b, P b /\ forall w, k a w = Done b w) ->
  Cancels P (bind m k).
Proof.
  intros Hf Hm Hk Hq w x rest H Hx. unfold bind in H.
  destruct (m w) as [a w1| | |] eqn:E; try discriminate.
  - destruct (Hf _ _ _ E) as [Hf1 Hf2].
    destruct (Hk a w1 x rest H Hx) as (b & w' & Hrun & Hb & Hin & Hq').
    exists b, w'. unfold bind. rewrite Hf1.
    repeat split; auto.
  - destruct (Hm w x rest E Hx) as (a & w1 & Hrun & Ha & Hin & Hq').
    destruct (Hq a Ha) as (b & Hb & Hk').
    exists b, w1. unfold bind. rewrite Hrun, Hk'.
    repeat split; auto.
Qed.

Lemma Cancels_bind_NoBlock {A B} (P : B -> Prop) (m : M A) (k : A -> M B) :
  Framed m -> NoBlock m -> (forall a, Cancels P (k a)) -> Cancels P (bind m k).
Proof.
  intros Hf Hn Hk.
  apply (Cancels_bind (fun _ => False)); auto.
  - now apply Cancels_NoBlock.
  - intros a [].
Qed.

Lemma Cancels_question prompt :
  Cancels (fun answer => is_cancel answer = true) (question prompt).
Proof.
  intros w x rest H Hx. unfold question in *.
  destruct (stdin w) as [|answer rest'] eqn:E; [|discriminate].
  unfold more_input at 1. cbn [stdin]. rewrite E. cbn [app].
  eexists _, _. split; [reflexivity|]. split; [exact Hx|]. split; [reflexivity|].
  unfold no_adjudication, more_input. cbn [stdout]. intros Hw.
  rewrite forallb_app, Hw. reflexivity.
Qed.

(** *** The program's functions *)

Ltac framed :=
  repeat first
    [ assumption
    | match goal with
      | |- Framed (ret _) => apply Framed_ret
      | |- Framed (throw _) => apply Framed_throw
      | |- Framed timeout => apply Framed_timeout
      | |- Framed (randomBytes _) => apply Framed_randomBytes
      | |- Framed math_random => apply Framed_math_random
      | |- Framed (question _) => apply Framed_question
      | |- Framed rl_close => apply Framed_rl_close
      | |- Framed (console_log _) => apply Framed_console_log; reflexivity
      | |- Framed (bind _ _) => apply Framed_bind; [|intro]
      | |- Framed (for_each _ _) => apply Framed_for_each; intro
      | |- Framed (if ?c then _ else _) => destruct c
      | |- Framed (match ?x with _ => _ end) => destruct x
      | H : _ |- Framed _ => simple apply H
      end ].

Ltac noblock :=
  repeat first
    [ assumption
    | match goal with
      | |- NoBlock (ret _) => apply NoBlock_ret
      | |- NoBlock (throw _) => apply NoBlock_throw
      | |- NoBlock timeout => apply NoBlock_timeout
      | |- NoBlock (randomBytes _) => apply NoBlock_randomBytes
      | |- NoBlock math_random => apply NoBlock_math_random
      | |- NoBlock (console_log _) => apply NoBlock_console_log
      | |- NoBlock (bind _ _) => apply NoBlock_bind; [|intro]
      | |- NoBlock (for_each _ _) => apply NoBlock_for_each; intro
      | |- NoBlock (if ?c then _ else _) => destruct c
      | |- NoBlock (match ?x with _ => _ end) => destruct x
      | H : _ |- NoBlock _ => simple apply H
      end ].

Import SecureRandomGenerator.

Lemma Framed_draw_loop n range count : Framed (draw_loop n range count).
Proof. induction n as [|n IH]; cbn [draw_loop]; cbv zeta; framed. Qed.

Lemma NoBlock_draw_loop n range count : NoBlock (draw_loop n range count).
Proof. induction n as [|n IH]; cbn [draw_loop]; cbv zeta; noblock. Qed.

Lemma Framed_generateUniformRandom fuel min max key :
  Framed (generateUniformRandom fuel min max key).
Proof.
  unfold generateUniformRandom. cbv zeta.
  pose proof (Framed_draw_loop fuel). framed.
Qed.

Lemma NoBlock_generateUniformRandom fuel min max key :
  NoBlock (generateUniformRandom fuel min max key).
Proof.
  unfold generateUniformRandom. cbv zeta.
  pose proof (NoBlock_draw_loop fuel). noblock.
Qed.

Lemma Framed_getUserInput prompt : Framed (getUserInput prompt).
Proof. unfold getUserInput. framed. Qed.

Lemma Cancels_getUserInput prompt :
  Cancels (fun choice => String.eqb (toUpperCase choice) "X" = true)
          (getUserInput prompt).
Proof.
  unfold getUserInput.
  apply (Cancels_bind (fun answer => is_cancel answer = true)).
  - apply Framed_question.
  - apply Cancels_question.
  - intro. apply Cancels_NoBlock, NoBlock_ret.
  - intros a Ha. exists (trim a). split; [exact Ha | reflexivity].
Qed.

Lemma Framed_getUserNumber_loop n min max : Framed (getUserNumber_loop n min max).
Proof.
  induction n as [|n IH]; cbn [getUserNumber_loop]; cbv zeta;
    pose proof Framed_getUserInput; framed.
Qed.

Lemma Cancels_getUserNumber_loop n min max :
  Cancels is_null (getUserNumber_loop n min max).
Proof.
  induction n as [|n IH]; cbn [getUserNumber_loop]; cbv zeta.
  - apply Cancels_NoBlock, NoBlock_timeout.
  - do 4 (apply Cancels_bind_NoBlock; [framed | noblock | intro]).
    eapply Cancels_bind.
    + apply Framed_getUserInput.
    + apply Cancels_getUserInput.
    + intro choice.
      destruct (String.eqb (toUpperCase choice) "X");
        [apply Cancels_NoBlock, NoBlock_ret|].
      destruct (String.eqb choice "?"); [apply Cancels_NoBlock, NoBlock_ret|].
      destruct (_ && _); [apply Cancels_NoBlock, NoBlock_ret|].
      apply Cancels_bind_NoBlock; [framed | noblock | intro; exact IH].
    + intros choice Hc. cbv beta. rewrite Hc. exists VNull. now split.
Qed.

Lemma Framed_fairRandomGeneration fuel min max purpose :
  Framed (fairRandomGeneration fuel min max purpose).
Proof.
  unfold fairRandomGeneration, generateSecureKey, getUserNumber. cbv zeta.
  pose proof (Framed_generateUniformRandom fuel min max).
  pose proof (Framed_getUserNumber_loop fuel min max).
  framed.
Qed.

Lemma Cancels_fairRandomGeneration fuel min max purpose :
  Cancels is_null (fairRandomGeneration fuel min max purpose).
Proof.
  unfold fairRandomGeneration, generateSecureKey, getUserNumber. cbv zeta.
  apply Cancels_bind_NoBlock; [framed | noblock | intro].
  apply Cancels_bind_NoBlock; [framed | noblock | intro key].
  apply Cancels_bind_NoBlock;
    [apply Framed_generateUniformRandom | apply NoBlock_generateUniformRandom
     | intro computerNumber].
  apply Cancels_bind_NoBlock; [framed | noblock | intro].
  apply (Cancels_bind is_null).
  - apply Framed_getUserNumber_loop.
  - apply Cancels_getUserNumber_loop.
  - intro userNumber.
    destruct (strict_eq userNumber VNull); apply Cancels_NoBlock; noblock.
  - intros userNumber ->. exists VNull. now split.
Qed.

End RunFacts.

Module GameFacts.
Import SecureRandomGenerator DiceGame RunFacts.

Lemma Framed_displayProbabilityTable dice : Framed (displayProbabilityTable dice).
Proof. unfold displayProbabilityTable. framed. Qed.

Lemma NoBlock_displayProbabilityTable dice : NoBlock (displayProbabilityTable dice).
Proof. unfold displayProbabilityTable. noblock. Qed.

Section Game.
Variable fuel : nat.
Variable this : DiceGame.t.

Lemma Framed_determineFirstPlayer_loop n :
  Framed (determineFirstPlayer_loop fuel this n).
Proof.
  induction n as [|n IH]; cbn [determineFirstPlayer_loop];
    pose proof (Framed_fairRandomGeneration fuel);
    pose proof Framed_displayProbabilityTable; framed.
Qed.

Lemma Cancels_determineFirstPlayer_loop n :
  Cancels is_null (determineFirstPlayer_loop fuel this n).
Proof.
  induction n as [|n IH]; cbn [determineFirstPlayer_loop].
  - apply Cancels_NoBlock, NoBlock_timeout.
  - apply (Cancels_bind is_null).
    + apply Framed_fairRandomGeneration.
    + apply Cancels_fairRandomGeneration.
    + intro result.
      destruct (strict_eq result VNull); [apply Cancels_NoBlock, NoBlock_ret|].
      destruct (strict_eq result (VStr "?")); [|apply Cancels_NoBlock, NoBlock_ret].
      apply Cancels_bind_NoBlock;
        [apply Framed_displayProbabilityTable
        | apply NoBlock_displayProbabilityTable | intro; exact IH].
    + intros result ->. exists VNull. now split.
Qed.

Lemma Framed_determineFirstPlayer : Framed (determineFirstPlayer fuel this).
Proof.
  unfold determineFirstPlayer.
  pose proof (Framed_determineFirstPlayer_loop fuel). framed.
Qed.

Lemma Cancels_determineFirstPlayer : Cancels is_null (determineFirstPlayer fuel this).
Proof.
  unfold determineFirstPlayer.
  apply Cancels_bind_NoBlock; [framed | noblock | intro].
  apply Cancels_determineFirstPlayer_loop.
Qed.

Lemma Framed_computerChooseDice excludeIndex :
  Framed (computerChooseDice this excludeIndex).
Proof. unfold computerChooseDice. cbv zeta. framed. Qed.

Lemma NoBlock_computerChooseDice excludeIndex :
  NoBlock (computerChooseDice this excludeIndex).
Proof. unfold computerChooseDice. cbv zeta. noblock. Qed.

Lemma Framed_game_getUserInput prompt : Framed (DiceGame.getUserInput prompt).
Proof. unfold DiceGame.getUserInput. framed. Qed.

Lemma Cancels_game_getUserInput prompt :
  Cancels (fun choice => String.eqb (toUpperCase choice) "X" = true)
          (DiceGame.getUserInput prompt).
Proof. exact (Cancels_getUserInput prompt). Qed.

Lemma Framed_dice_options excludeIndex :
  Framed (for_each (mapi (fun i d => (i, d)) (dice this))
            (fun '(i, d) =>
               if negb (strict_eq (VNum (Int i)) excludeIndex)
               then console_log (LogDiceOption i (Dice.faces d))
               else ret tt)).
Proof. apply Framed_for_each. intros [i d]. framed. Qed.

Lemma NoBlock_dice_options excludeIndex :
  NoBlock (for_each (mapi (fun i d => (i, d)) (dice this))
             (fun '(i, d) =>
                if negb (strict_eq (VNum (Int i)) excludeIndex)
                then console_log (LogDiceOption i (Dice.faces d))
                else ret tt)).
Proof. apply NoBlock_for_each. intros [i d]. noblock. Qed.

Lemma Framed_userChooseDice_loop n excludeIndex :
  Framed (userChooseDice_loop this n excludeIndex).
Proof.
  induction n as [|n IH]; cbn [userChooseDice_loop]; cbv zeta; [framed|].
  apply Framed_bind; [framed|intro].
  apply Framed_bind; [apply Framed_dice_options|intro].
  pose proof Framed_game_getUserInput.
  pose proof Framed_displayProbabilityTable.
  framed.
Qed.

Lemma Cancels_userChooseDice_loop n excludeIndex :
  Cancels is_null (userChooseDice_loop this n excludeIndex).
Proof.
  induction n as [|n IH]; cbn [userChooseDice_loop]; cbv zeta.
  - apply Cancels_NoBlock, NoBlock_timeout.
  - apply Cancels_bind_NoBlock; [framed | noblock | intro].
    apply Cancels_bind_NoBlock;
      [apply Framed_dice_options | apply NoBlock_dice_options | intro].
    do 2 (apply Cancels_bind_NoBlock; [framed | noblock | intro]).
    eapply Cancels_bind.
    + apply Framed_game_getUserInput.
    + apply Cancels_game_getUserInput.
    + intro choice.
      destruct (String.eqb (toUpperCase choice) "X");
        [apply Cancels_NoBlock, NoBlock_ret|].
      destruct (String.eqb choice "?").
      * apply Cancels_bind_NoBlock;
          [apply Framed_displayProbabilityTable
          | apply NoBlock_displayProbabilityTable | intro; exact IH].
      * destruct (_ && _).
        -- apply Cancels_NoBlock. noblock.
        -- apply Cancels_bind_NoBlock; [framed | noblock | intro; exact IH].
    + intros choice Hc. cbv beta. rewrite Hc. exists VNull. now split.
Qed.

Lemma Framed_rollDice_loop n d playerName :
  Framed (rollDice_loop fuel this n d playerName).
Proof.
  induction n as [|n IH]; cbn [rollDice_loop]; cbv zeta;
    pose proof (Framed_fairRandomGeneration fuel);
    pose proof Framed_displayProbabilityTable; framed.
Qed.

Lemma Cancels_rollDice_loop n d playerName :
  Cancels is_null (rollDice_loop fuel this n d playerName).
Proof.
  induction n as [|n IH]; cbn [rollDice_loop]; cbv zeta.
  - apply Cancels_NoBlock, NoBlock_timeout.
  - apply (Cancels_bind is_null).
    + apply Framed_fairRandomGeneration.
    + apply Cancels_fairRandomGeneration.
    + intro faceIndex.
      destruct (strict_eq faceIndex VNull); [apply Cancels_NoBlock, NoBlock_ret|].
      destruct (strict_eq faceIndex (VStr "?")).
      * apply Cancels_bind_NoBlock;
          [apply Framed_displayProbabilityTable
          | apply NoBlock_displayProbabilityTable | intro; exact IH].
      * apply Cancels_NoBlock. noblock.
    + intros faceIndex ->. exists VNull. now split.
Qed.

Lemma Framed_rollDice d playerName : Framed (rollDice fuel this d playerName).
Proof.
  unfold rollDice. pose proof (Framed_rollDice_loop fuel). framed.
Qed.

Lemma Cancels_rollDice d playerName :
  Cancels is_null (rollDice fuel this d playerName).
Proof.
  unfold rollDice.
  apply Cancels_bind_NoBlock; [framed | noblock | intro].
  destruct d as [d|]; [apply Cancels_rollDice_loop | apply Cancels_NoBlock, NoBlock_throw].
Qed.

Lemma Cancels_play_from_selection computerFirst first second name1 name2 :
  Cancels (fun _ => True)
          (play_from_selection fuel this computerFirst first second name1 name2).
Proof.
  unfold play_from_selection. cbv zeta.
  apply (Cancels_bind is_null).
  - apply Framed_rollDice.
  - apply Cancels_rollDice.
  - intro firstRoll.
    destruct (strict_eq firstRoll VNull); [apply Cancels_NoBlock, NoBlock_ret|].
    apply (Cancels_bind is_null).
    + apply Framed_rollDice.
    + apply Cancels_rollDice.
    + intro secondRoll. apply Cancels_NoBlock. noblock.
    + intros secondRoll ->. exists tt. now split.
  - intros firstRoll ->. exists tt. now split.
Qed.

Lemma Cancels_play_body : Cancels (fun _ => True) (play_body fuel this).
Proof.
  unfold play_body, userChooseDice.
  apply (Cancels_bind is_null).
  - apply Framed_determineFirstPlayer.
  - apply Cancels_determineFirstPlayer.
  - intro computerFirst.
    destruct (strict_eq computerFirst VNull); [apply Cancels_NoBlock, NoBlock_ret|].
    destruct (truthy computerFirst).
    + apply Cancels_bind_NoBlock;
        [apply Framed_computerChooseDice | apply NoBlock_computerChooseDice
        | intro firstPlayerDiceIndex].
      apply (Cancels_bind is_null).
      * apply Framed_userChooseDice_loop.
      * apply Cancels_userChooseDice_loop.
      * intro secondPlayerDiceIndex.
        destruct (strict_eq secondPlayerDiceIndex VNull);
          [apply Cancels_NoBlock, NoBlock_ret | apply Cancels_play_from_selection].
      * intros v ->. exists tt. now split.
    + apply (Cancels_bind is_null).
      * apply Framed_userChooseDice_loop.
      * apply Cancels_userChooseDice_loop.
      * intro firstPlayerDiceIndex.
        destruct (strict_eq firstPlayerDiceIndex VNull);
          [apply Cancels_NoBlock, NoBlock_ret|].
        apply Cancels_bind_NoBlock;
          [apply Framed_computerChooseDice | apply NoBlock_computerChooseDice
          | intro; apply Cancels_play_from_selection].
      * intros v ->. exists tt. now split.
  - intros v ->. exists tt. now split.
Qed.

(** [playGame] is left waiting exactly when its body is, and a
    cancellation there runs the [finally] clause. *)
Lemma playGame_cancel w x rest :
  playGame fuel this w = Blocked ->
  is_cancel x = true ->
  exists w',
    playGame fuel this (more_input w (x :: rest)) = Done tt w' /\
    stdin w' = rest /\ rl_closed w' = true /\
    (no_adjudication w -> no_adjudication w').
Proof.
  intros H Hx. unfold playGame, try_finally, try_catch in *.
  destruct (play_body fuel this w) as [a w1|e w1| |] eqn:E; try discriminate.
  destruct (Cancels_play_body w x rest E Hx) as ([] & w' & Hrun & _ & Hin & Hq).
  rewrite Hrun. eexists. split; [reflexivity|].
  cbn [stdin rl_closed]. repeat split; auto.
Qed.
End Game.

End GameFacts.

(** The game can be left waiting at each of its prompts: the first move
    determination, the die selection (as second or as first player), the
    first roll and the second roll; played to the end it adjudicates. *)
Example waiting_at_first_move :
  Program.main 2 sample_args (initial_world [] [] []) = Blocked.
Proof. vm_compute. reflexivity. Qed.

Example waiting_at_selection_as_second :
  Program.main 2 sample_args (initial_world [] [] ["0"]) = Blocked.
Proof. vm_compute. reflexivity. Qed.

Example waiting_at_selection_as_first :
  Program.main 2 sample_args (initial_world [] [] ["1"]) = Blocked.
Proof. vm_compute. reflexivity. Qed.

Example waiting_at_first_roll :
  Program.main 2 sample_args (initial_world [] [] ["0"; "1"]) = Blocked.
Proof. vm_compute. reflexivity. Qed.

Example waiting_at_second_roll :
  Program.main 2 sample_args (initial_world [] [] ["0"; "1"; "2"]) = Blocked.
Proof. vm_compute. reflexivity. Qed.

Example full_game_adjudicates :
  exists w',
    Program.main 2 sample_args (initial_world [] [] ["0"; "1"; "2"; "3"]) = Done 0 w' /\
    last (stdout w') LogUsage = LogYouWin (VNum (Int 6)) (VNum (Int 4)) /\
    ~ no_adjudication w'.
Proof.
  eexists. split; [vm_compute; reflexivity|]. split; [reflexivity|].
  unfold no_adjudication. vm_compute. discriminate.
Qed.

(** C9.  Whenever the game is waiting at a prompt (the first-player
    determination, the die selection, or either roll), a line that reads
    [X] or [x] makes the process finish with exit code 0: the input is
    closed, the lines after the cancellation are left unread, and no win,
    lose or tie line is written. *)
Theorem cancellation_exits_without_adjudication
    (fuel : nat) (args : list string) (w : world) (x : string) (rest : list string) :
  Program.main fuel args w = Blocked ->
  is_cancel x = true ->
  no_adjudication w ->
  exists w',
    Program.main fuel args (more_input w (x :: rest)) = Done 0 w' /\
    stdin w' = rest /\ rl_closed w' = true /\ no_adjudication w'.
Proof.
  intros H Hx Hw. unfold Program.main in *.
  destruct (List.length args <? 3)%nat; [discriminate|].
  unfold try_catch in *.
  destruct (Args.validateArguments args) as [diceConfigs|e].
  - unfold bind in *.
    destruct (DiceGame.playGame fuel (DiceGame.new diceConfigs) w)
      as [a w1|e w1| |] eqn:E; try discriminate.
    + destruct (Program.is_usage_error e); discriminate.
    + destruct (GameFacts.playGame_cancel fuel _ w x rest E Hx)
        as (w' & Hrun & Hin & Hc & Hq).
      rewrite Hrun. exists w'. repeat split; auto.
  - unfold throw, bind in H. destruct (Program.is_usage_error e); discriminate.
Qed.

(* ===================================================================== *)
(** ** Decimal numerals are read back by the prompts *)
(* ===================================================================== *)

Module NumeralFacts.

Lemma digit_cases (c : ascii) :
  is_digit 10 c = true ->
  In c ["0"; "1"; "2"; "3"; "4"; "5"; "6"; "7"; "8"; "9"]%char.
Proof.
  destruct c as [b0 b1 b2 b3 b4 b5 b6 b7].
  destruct b0, b1, b2, b3, b4, b5, b6, b7; vm_compute;
    intros H; try discriminate H; tauto.
Qed.

Lemma digit_value_digit_char d :
  0 <= d < 10 -> digit_value (digit_char d) = Some d.
Proof.
  intros H.
  assert (C : d = 0 \/ d = 1 \/ d = 2 \/ d = 3 \/ d = 4 \/ d = 5 \/ d = 6
              \/ d = 7 \/ d = 8 \/ d = 9) by lia.
  repeat (destruct C as [-> | C]; [reflexivity|]). now subst.
Qed.

Lemma is_digit_digit_char d : 0 <= d < 10 -> is_digit 10 (digit_char d) = true.
Proof.
  intros H. unfold is_digit. rewrite digit_value_digit_char by assumption.
  apply Z.ltb_lt. lia.
Qed.

Lemma read_digits_cons d s acc :
  0 <= d < 10 ->
  read_digits 10 (String (digit_char d) s) acc = read_digits 10 s (acc * 10 + d).
Proof.
  intros H. cbn [read_digits]. rewrite digit_value_digit_char by assumption.
  destruct (Z.ltb_spec d 10); [reflexivity | lia].
Qed.

Lemma decimal_digits_read fuel :
  forall n s,
    0 <= n <= Z.of_nat fuel ->
    exists k, 0 <= k /\
      forall acc,
        read_digits 10 (decimal_digits fuel n s) acc
        = read_digits 10 s (acc * 10 ^ k + n).
Proof.
  induction fuel as [|fuel IH]; intros n s Hn.
  - assert (n = 0) by lia. subst n. exists 1. split; [lia|]. intros acc.
    cbn [decimal_digits]. change (0 mod 10) with 0.
    rewrite read_digits_cons by lia. f_equal.
  - cbn [decimal_digits].
    pose proof (Z.mod_pos_bound n 10 ltac:(lia)) as Hmod.
    destruct (Z.ltb_spec n 10) as [Hlt|Hge].
    + exists 1. split; [lia|]. intros acc.
      rewrite read_digits_cons by assumption.
      rewrite Z.mod_small by lia. f_equal.
    + assert (Hdiv : 0 <= n / 10 <= Z.of_nat fuel).
      { split; [apply Z.div_pos; lia|].
        assert (n / 10 < n) by (apply Z.div_lt; lia). lia. }
      destruct (IH (n / 10) (String (digit_char (n mod 10)) s) Hdiv)
        as (k & Hk & Hread).
      exists (k + 1). split; [lia|]. intros acc.
      rewrite Hread, read_digits_cons by assumption. f_equal.
      rewrite Z.pow_add_r by lia. change (10 ^ 1) with 10.
      pose proof (Z.div_mod n 10 ltac:(lia)). lia.
Qed.

Lemma decimal_digits_all_digits fuel :
  forall n s, 0 <= n -> all_digits s = true ->
              all_digits (decimal_digits fuel n s) = true.
Proof.
  induction fuel as [|fuel IH]; intros n s Hn Hs; cbn [decimal_digits];
    pose proof (Z.mod_pos_bound n 10 ltac:(lia)) as Hmod.
  - cbn [all_digits]. now rewrite is_digit_digit_char, Hs.
  - destruct (n <? 10).
    + cbn [all_digits]. now rewrite is_digit_digit_char, Hs.
    + apply IH; [apply Z.div_pos; lia|].
      cbn [all_digits]. now rewrite is_digit_digit_char, Hs.
Qed.

Lemma decimal_digits_starts fuel :
  forall n s, 0 <= n -> starts_with_digit 10 (decimal_digits fuel n s) = true.
Proof.
  induction fuel as [|fuel IH]; intros n s Hn; cbn [decimal_digits];
    pose proof (Z.mod_pos_bound n 10 ltac:(lia)) as Hmod.
  - cbn [starts_with_digit]. now apply is_digit_digit_char.
  - destruct (n <? 10).
    + cbn [starts_with_digit]. now apply is_digit_digit_char.
    + apply IH. apply Z.div_pos; lia.
Qed.

Lemma number_to_string_numeral n : 0 <= n -> numeral (number_to_string n).
Proof.
  intros Hn. unfold number_to_string.
  destruct (Z.ltb_spec n 0); [lia|]. split.
  - now apply decimal_digits_all_digits.
  - now apply decimal_digits_starts.
Qed.

Lemma number_to_string_read n :
  0 <= n -> read_digits 10 (number_to_string n) 0 = n.
Proof.
  intros Hn. unfold number_to_string.
  destruct (Z.ltb_spec n 0); [lia|].
  destruct (decimal_digits_read (Z.to_nat n) n "") as (k & _ & Hread); [lia|].
  rewrite Hread. reflexivity.
Qed.

Lemma rev_string_all_digits s :
  forall acc, all_digits s = true -> all_digits acc = true ->
              all_digits (rev_string s acc) = true.
Proof.
  induction s as [|c s IH]; intros acc Hs Hacc; cbn [rev_string]; [assumption|].
  cbn [all_digits] in Hs. apply andb_prop in Hs. destruct Hs as [Hc Hs].
  apply IH; [assumption|]. cbn [all_digits]. now rewrite Hc, Hacc.
Qed.

Lemma rev_string_twice s :
  forall a b, rev_string (rev_string s a) b = rev_string a (s ++ b).
Proof.
  induction s as [|c s IH]; intros a b; cbn [rev_string append]; [reflexivity|].
  now rewrite IH.
Qed.

Lemma append_empty s : s ++ "" = s.
Proof. induction s as [|c s IH]; cbn [append]; congruence. Qed.

Lemma trimStart_all_digits s : all_digits s = true -> trimStart s = s.
Proof.
  destruct s as [|c s]; [reflexivity|]. cbn [all_digits]. intros H.
  apply andb_prop in H. destruct H as [Hc _].
  apply digit_cases in Hc. cbn [In] in Hc.
  repeat (destruct Hc as [<- | Hc]; [reflexivity|]). contradiction.
Qed.

Lemma trim_numeral s : numeral s -> trim s = s.
Proof.
  intros [Hall _]. unfold trim, trimEnd.
  rewrite (trimStart_all_digits s Hall).
  rewrite trimStart_all_digits by (now apply rev_string_all_digits).
  rewrite rev_string_twice. cbn [rev_string]. apply append_empty.
Qed.

Lemma numeral_first s :
  numeral s ->
  exists c s', s = String c s' /\
               In c ["0"; "1"; "2"; "3"; "4"; "5"; "6"; "7"; "8"; "9"]%char /\
               all_digits s' = true.
Proof.
  intros [Hall Hstart]. destruct s as [|c s']; [discriminate|].
  cbn [all_digits] in Hall. apply andb_prop in Hall. destruct Hall as [Hc Hs'].
  exists c, s'. split; [reflexivity|]. split; [now apply digit_cases | assumption].
Qed.

Lemma parseInt_numeral s : numeral s -> parseInt s = Int (read_digits 10 s 0).
Proof.
  intros Hs. pose proof Hs as [_ Hstart].
  assert (E : parseInt s
              = if starts_with_digit 10 s then Int (1 * read_digits 10 s 0) else NaN).
  { destruct (numeral_first s Hs) as (c & s' & -> & Hc & Hs').
    cbn [In] in Hc.
    destruct Hc as [<- | Hc].
    - (* a leading 0 is followed by a digit or by nothing, never by x *)
      destruct s' as [|c2 s'']; [reflexivity|].
      cbn [all_digits] in Hs'. apply andb_prop in Hs'. destruct Hs' as [Hc2 _].
      apply digit_cases in Hc2. cbn [In] in Hc2.
      repeat (destruct Hc2 as [<- | Hc2]; [reflexivity|]). contradiction.
    - repeat (destruct Hc as [<- | Hc]; [reflexivity|]). contradiction. }
  rewrite E, Hstart. f_equal. apply Z.mul_1_l.
Qed.

Lemma numeral_not_command s :
  numeral s ->
  String.eqb (toUpperCase s) "X" = false /\ String.eqb s "?" = false.
Proof.
  intros Hs. destruct (numeral_first s Hs) as (c & s' & -> & Hc & _).
  cbn [In] in Hc.
  repeat (destruct Hc as [<- | Hc]; [split; reflexivity|]). contradiction.
Qed.

(** Typing the decimal numeral of [u >= 0] enters the number [u]. *)
Lemma numeral_enters_number u : 0 <= u -> enters_number (number_to_string u) u.
Proof.
  intros Hu. pose proof (number_to_string_numeral u Hu) as Hn.
  unfold enters_number. rewrite (trim_numeral _ Hn).
  destruct (numeral_not_command _ Hn) as [HX Hq].
  split; [exact HX|]. split; [exact Hq|].
  rewrite (parseInt_numeral _ Hn). f_equal. now apply number_to_string_read.
Qed.

End NumeralFacts.

(* ===================================================================== *)
(** ** Fair Value Exchange *)
(* ===================================================================== *)

Module ExchangeFacts.
Import SecureRandomGenerator.

Lemma Writes_ret {A} (a : A) : Writes (ret a).
Proof. intros w. now exists a, w. Qed.

Lemma Writes_console_log e : Writes (console_log e).
Proof. intros w. now exists tt, (write w e). Qed.

Lemma Writes_bind {A B} (m : M A) (k : A -> M B) :
  Writes m -> (forall a, Writes (k a)) -> Writes (bind m k).
Proof.
  intros Hm Hk w. destruct (Hm w) as (a & w1 & E1 & S1).
  destruct (Hk a w1) as (b & w2 & E2 & S2).
  exists b, w2. unfold bind. rewrite E1, E2. split; congruence.
Qed.

Lemma Writes_for_each {A} (l : list A) (body : A -> M unit) :
  (forall x, Writes (body x)) -> Writes (for_each l body).
Proof.
  intros Hb. induction l as [|x l IH]; cbn [for_each].
  - apply Writes_ret.
  - apply Writes_bind; auto.
Qed.

(** Running past a step that only writes. *)
Lemma bind_Writes {A B} (m : M A) (k : A -> M B) w :
  Writes m -> exists a w', bind m k w = k a w' /\ stdin w' = stdin w.
Proof.
  intros Hm. destruct (Hm w) as (a & w1 & E1 & S1).
  exists a, w1. unfold bind. now rewrite E1.
Qed.

Ltac skip_writes lemma w' S' :=
  match goal with
  | |- context [bind ?m ?k ?w] =>
      let a := fresh "a" in
      destruct (bind_Writes m k w lemma) as (a & w' & -> & S')
  end.

Ltac skip_writes_in H lemma :=
  match type of H with
  | context [bind ?m ?k ?w] =>
      let a := fresh "a" in
      let w' := fresh "w" in
      let E := fresh "E" in
      destruct (bind_Writes m k w lemma) as (a & w' & E & _);
      rewrite E in H; clear E
  end.

Lemma getUserInput_reads prompt w line rest :
  stdin w = line :: rest ->
  exists w', getUserInput prompt w = Done (trim line) w' /\ stdin w' = rest.
Proof.
  intros E. unfold getUserInput, bind, question. rewrite E.
  eexists. split; reflexivity.
Qed.

(** The menu of [getUserNumber]. *)
Lemma Writes_number_options min max :
  Writes (for_each (range_incl min max) (fun i => console_log (LogNumberOption i))).
Proof. apply Writes_for_each. intro. apply Writes_console_log. Qed.

Lemma getUserNumber_number fuel min max w line rest u :
  stdin w = line :: rest ->
  enters_number line u ->
  min <= u <= max ->
  exists w',
    getUserNumber (S fuel) min max w = Done (VNum (Int u)) w' /\ stdin w' = rest.
Proof.
  intros E (HX & Hq & Hp) Hu. unfold getUserNumber. cbn [getUserNumber_loop].
  skip_writes (Writes_console_log (LogAddModulo (max - min + 1))) w1 S1.
  skip_writes (Writes_number_options min max) w2 S2.
  skip_writes (Writes_console_log LogExitOption) w3 S3.
  skip_writes (Writes_console_log LogHelpOption) w4 S4.
  destruct (getUserInput_reads "Your selection: " w4 line rest) as (w5 & E5 & S5);
    [congruence|].
  unfold bind at 1. rewrite E5, HX, Hq, Hp. cbn [isNaN negb num_ge num_le andb].
  destruct (Z.geb_spec u min); [|lia]. destruct (Z.leb_spec u max); [|lia].
  exists w5. split; [reflexivity | assumption].
Qed.

Lemma generateUniformRandom_needs_fuel min max key w c w' :
  generateUniformRandom 0 min max key w = Done c w' -> False.
Proof.
  unfold generateUniformRandom. destruct (max - min + 1 <=? 0); discriminate.
Qed.

Lemma combine_numbers c u modulus min :
  modulus <> 0 ->
  js_add (js_rem (js_add (VNum (Int c)) (VNum (Int u))) (VNum (Int modulus)))
         (VNum (Int min))
  = VNum (Int (Z.rem (c + u) modulus + min)).
Proof.
  intros Hm. unfold js_add, js_rem. cbn.
  destruct (Z.eqb_spec modulus 0); [contradiction | reflexivity].
Qed.

(** What [fairRandomGeneration] returns once the computer's number is
    [c] and the user enters [u]. *)
Lemma fairRandomGeneration_number fuel min max purpose w c w1 line rest u :
  commitment fuel min max purpose w = Done c w1 ->
  stdin w1 = line :: rest ->
  enters_number line u ->
  min <= u <= max ->
  exists w',
    fairRandomGeneration fuel min max purpose w
    = Done (VNum (Int (Z.rem (c + u) (max - min + 1) + min))) w' /\
    stdin w' = rest.
Proof.
  intros Hc E Hline Hu.
  unfold commitment, fairRandomGeneration in *. unfold bind at 1 2 in Hc.
  unfold bind at 1 2. cbn [console_log generateSecureKey randomBytes] in *.
  destruct fuel as [|fuel]; [now apply generateUniformRandom_needs_fuel in Hc|].
  unfold bind at 1. rewrite Hc. cbv zeta.
  unfold bind at 1. cbn [console_log].
  destruct (getUserNumber_number fuel min max
              (write w1 (LogCommitment min max
                 (calculateHMAC (VNum (Int c))
                    (map (fun k => entropy (write w (LogGenerating purpose)) k mod 256)
                         (seq (entropy_used (write w (LogGenerating purpose))) 32)))))
              line rest u E Hline Hu) as (w2 & E2 & S2).
  unfold bind at 1. rewrite E2. cbn [strict_eq].
  rewrite combine_numbers by lia.
  eexists. split; [reflexivity | exact S2].
Qed.

End ExchangeFacts.




(* ===================================================================== *)
(** ** Dice selection: the exclusion rule *)
(* ===================================================================== *)

Module SelectionFacts.
Import SecureRandomGenerator DiceGame ExchangeFacts.

Lemma In_filteri_from {A} (p : Z -> bool) (l : list A) :
  forall k x,
    In x (filteri_from k p l) ->
    exists i, nth_error l i = Some x /\ p (k + Z.of_nat i) = true.
Proof.
  induction l as [|y l IH]; intros k x Hin; cbn [filteri_from] in Hin.
  - contradiction.
  - destruct (p k) eqn:Hp.
    + destruct Hin as [<- | Hin].
      * exists 0%nat. split; [reflexivity|]. now rewrite Z.add_0_r.
      * destruct (IH _ _ Hin) as (i & Hi & Hpi).
        exists (S i). split; [exact Hi|]. now replace (k + Z.of_nat (S i)) with (k + 1 + Z.of_nat i) by lia.
    + destruct (IH _ _ Hin) as (i & Hi & Hpi).
      exists (S i). split; [exact Hi|]. now replace (k + Z.of_nat (S i)) with (k + 1 + Z.of_nat i) by lia.
Qed.

Lemma filteri_from_all {A} (p : Z -> bool) (l : list A) :
  forall k, (forall i, k <= i -> p i = true) -> filteri_from k p l = l.
Proof.
  induction l as [|y l IH]; intros k Hp; cbn [filteri_from]; [reflexivity|].
  rewrite (Hp k) by lia. f_equal. apply IH. intros i Hi. apply Hp. lia.
Qed.

(** Filtering out one position removes exactly the element there. *)
Lemma filteri_from_skip {A} (l : list A) :
  forall k (j : nat),
    filteri_from k (fun i => negb (strict_eq (VNum (Int i))
                                             (VNum (Int (k + Z.of_nat j))))) l
    = (firstn j l ++ skipn (S j) l)%list.
Proof.
  induction l as [|y l IH]; intros k j.
  - destruct j; reflexivity.
  - cbn [filteri_from strict_eq]. destruct j as [|j].
    + replace (k + Z.of_nat 0) with k by lia. rewrite Z.eqb_refl. cbn [negb firstn skipn app].
      apply filteri_from_all. intros i Hi.
      destruct (Z.eqb_spec i k); [lia | reflexivity].
    + destruct (Z.eqb_spec k (k + Z.of_nat (S j))); [lia|]. cbn [negb firstn skipn app].
      f_equal. replace (k + Z.of_nat (S j)) with (k + 1 + Z.of_nat j) by lia.
      apply IH.
Qed.

Lemma nth_error_skip_one {A} (l : list A) (j p : nat) :
  nth_error (firstn j l ++ skipn (S j) l) p
  = nth_error l (if (p <? j)%nat then p else S p).
Proof.
  revert j p. induction l as [|y l IH]; intros j p.
  - rewrite firstn_nil, skipn_nil. cbn [app].
    destruct (p <? j)%nat; destruct p; reflexivity.
  - destruct j as [|j].
    + cbn [firstn skipn app]. reflexivity.
    + cbn [firstn skipn app]. destruct p as [|p]; [reflexivity|].
      cbn [nth_error]. rewrite IH.
      change (S p <? S j)%nat with (p <? j)%nat.
      destruct (p <? j)%nat; reflexivity.
Qed.

Lemma length_skip_one {A} (l : list A) (j : nat) :
  (j < List.length l)%nat ->
  List.length (firstn j l ++ skipn (S j) l) = (List.length l - 1)%nat.
Proof.
  intros H. rewrite length_app, length_firstn, length_skipn. lia.
Qed.

Lemma length_mapi_from {A B} (f : Z -> A -> B) (l : list A) :
  forall k, List.length (mapi_from k f l) = List.length l.
Proof. induction l as [|x l IH]; intros k; cbn; [reflexivity | now rewrite IH]. Qed.

(** A [Math.random] outcome that lands on position [p] of [m] choices. *)
Lemma random_outcome_for (m p : Z) :
  0 <= p < m -> m <= 2 ^ 53 ->
  let r := (p * 2 ^ 53 + m - 1) / m in
  0 <= r < 2 ^ 53 /\ r * m / 2 ^ 53 = p.
Proof.
  intros Hp Hm r. set (T := 2 ^ 53) in *.
  assert (HT : 0 < T) by (subst T; lia).
  assert (Hlo : m * r <= p * T + m - 1) by (apply Z.mul_div_le; lia).
  assert (Hhi : p * T + m - 1 < m * Z.succ r)
    by (apply Z.mul_succ_div_gt; lia).
  assert (Hr0 : 0 <= r) by (apply Z.div_pos; nia).
  assert (HrT : r < T) by nia.
  split; [lia|].
  symmetry. apply (Z.div_unique _ _ _ (r * m - p * T)); [left; nia | lia].
Qed.

Section Game.
Variable configs : list (list Z).
Local Abbreviation this := (DiceGame.new configs).
Local Abbreviation n := (Z.of_nat (List.length configs)).

Lemma dice_nth (i : nat) d :
  nth_error (dice this) i = Some d ->
  exists config,
    nth_error configs i = Some config /\ d = Dice.new config (Z.of_nat i).
Proof.
  unfold DiceGame.new. cbn [dice].
  rewrite ProbabilityFacts.nth_error_mapi.
  destruct (nth_error configs i) as [config|]; [|discriminate].
  intros H; inversion H. now exists config.
Qed.

Lemma dice_length : List.length (dice this) = List.length configs.
Proof. unfold DiceGame.new, mapi. cbn [dice]. apply length_mapi_from. Qed.

Lemma index_get_In {A} (l : list A) i x : index_get l i = Some x -> In x l.
Proof.
  unfold index_get. destruct (i <? 0); [discriminate|]. apply nth_error_In.
Qed.

(** The computer never returns the excluded index. *)
Lemma computerChooseDice_excludes excludeIndex w v w' :
  computerChooseDice this excludeIndex w = Done v w' ->
  exists i, v = VNum (Int i) /\ 0 <= i < n /\
            strict_eq (VNum (Int i)) excludeIndex = false.
Proof.
  unfold computerChooseDice, bind, math_random, console_log. cbv zeta.
  match goal with |- context [index_get ?l ?i] =>
    destruct (index_get l i) as [d|] eqn:E end; [|discriminate].
  intros H. inversion H; subst v. clear H.
  apply index_get_In in E. apply In_filteri_from in E.
  destruct E as (i & Hi & Hp). rewrite Z.add_0_l in Hp.
  pose proof Hi as Hlt. apply dice_nth in Hi. destruct Hi as (config & Hc & ->).
  exists (Z.of_nat i). split; [reflexivity|]. split.
  - assert (i < List.length configs)%nat by (apply nth_error_Some; congruence).
    lia.
  - now apply negb_true_iff in Hp.
Qed.

(** Every other index can come out of the computer's draw. *)
Lemma computerChooseDice_reaches e i :
  0 <= e < n -> 0 <= i < n -> i <> e -> n <= 2 ^ 53 ->
  exists r,
    0 <= r < 2 ^ 53 /\
    forall w,
      uniform w (uniform_used w) = r ->
      exists w', computerChooseDice this (VNum (Int e)) w = Done (VNum (Int i)) w'.
Proof.
  intros He Hi Hne Hn.
  set (p := if i <? e then i else i - 1).
  assert (Hp : 0 <= p < n - 1) by (subst p; destruct (Z.ltb_spec i e); lia).
  destruct (random_outcome_for (n - 1) p Hp ltac:(lia)) as [Hr Hpick].
  exists ((p * 2 ^ 53 + (n - 1) - 1) / (n - 1)). split; [exact Hr|].
  intros w Hw.
  unfold computerChooseDice, bind, math_random, console_log. cbv zeta.
  unfold filteri.
  replace e with (0 + Z.of_nat (Z.to_nat e)) by lia.
  rewrite filteri_from_skip.
  rewrite length_skip_one by (rewrite dice_length; lia).
  rewrite dice_length.
  replace (Z.of_nat (List.length configs - 1)) with (n - 1) by lia.
  rewrite Hw, (Z.mod_small _ _ Hr), Hpick.
  unfold index_get. destruct (Z.ltb_spec p 0); [lia|].
  rewrite nth_error_skip_one.
  assert (Hpos : (if (Z.to_nat p <? Z.to_nat e)%nat then Z.to_nat p else S (Z.to_nat p))
                 = Z.to_nat i).
  { subst p. destruct (Z.ltb_spec i e).
    - destruct (Nat.ltb_spec (Z.to_nat i) (Z.to_nat e)); lia.
    - destruct (Nat.ltb_spec (Z.to_nat (i - 1)) (Z.to_nat e)); lia. }
  rewrite Hpos.
  destruct (nth_error (dice this) (Z.to_nat i)) as [d|] eqn:Ed.
  - apply dice_nth in Ed. destruct Ed as (config & _ & ->).
    eexists. cbn [Dice.index Dice.new]. rewrite Z2Nat.id by lia. reflexivity.
  - apply nth_error_None in Ed. rewrite dice_length in Ed. lia.
Qed.

Lemma Writes_dice_options excludeIndex :
  Writes (for_each (mapi (fun i d => (i, d)) (dice this))
            (fun '(i, d) =>
               if negb (strict_eq (VNum (Int i)) excludeIndex)
               then console_log (LogDiceOption i (Dice.faces d))
               else ret tt)).
Proof.
  apply Writes_for_each. intros [i d].
  destruct (negb _); [apply Writes_console_log | apply Writes_ret].
Qed.

Lemma acceptable_inv excludeIndex diceIndex :
  acceptable this excludeIndex diceIndex = true ->
  exists i, diceIndex = Int i /\ 0 <= i < n /\
            strict_eq (VNum (Int i)) excludeIndex = false.
Proof.
  unfold acceptable. intros H.
  repeat (apply andb_prop in H; destruct H as [H ?]).
  destruct diceIndex as [i|]; [|discriminate].
  exists i. split; [reflexivity|]. cbn [num_ge num_lt] in *.
  rewrite dice_length in *.
  split; [lia | now apply negb_true_iff].
Qed.

(** The user is never given the excluded index. *)
Lemma userChooseDice_excludes fuel excludeIndex :
  Returns (fun v => v = VNull \/
                    exists i, v = VNum (Int i) /\ 0 <= i < n /\
                              strict_eq (VNum (Int i)) excludeIndex = false)
          (userChooseDice_loop this fuel excludeIndex).
Proof.
  induction fuel as [|fuel IH]; intros w v w' H; [discriminate|].
  cbn [userChooseDice_loop] in H.
  skip_writes_in H (Writes_console_log LogChooseYourDice).
  skip_writes_in H (Writes_dice_options excludeIndex).
  skip_writes_in H (Writes_console_log LogExitOption).
  skip_writes_in H (Writes_console_log LogHelpOption).
  unfold bind at 1 in H.
  destruct (getUserInput "Your selection: " _) as [choice w5| | |]; try discriminate.
  destruct (String.eqb (toUpperCase choice) "X"); [inversion H; now left|].
  destruct (String.eqb choice "?").
  - skip_writes_in H (Writes_console_log
                        (LogProbabilityTable
                           (ProbabilityCalculator.calculateWinProbabilities (dice this))
                           (dice this))).
    eapply IH; eauto.
  - fold (acceptable this excludeIndex (parseInt choice)) in H.
    destruct (acceptable this excludeIndex (parseInt choice)) eqn:Hacc.
    + apply acceptable_inv in Hacc. destruct Hacc as (i & Hi & Hrange & Hne).
      unfold bind, console_log, ret in H. inversion H. right. rewrite Hi. eauto.
    + skip_writes_in H (Writes_console_log LogInvalidDice).
      eapply IH; eauto.
Qed.

(** Typing the numeral of any other index selects it. *)
Lemma userChooseDice_accepts fuel e i w rest :
  0 <= i < n -> i <> e ->
  stdin w = number_to_string i :: rest ->
  exists w',
    userChooseDice (S fuel) this (VNum (Int e)) w = Done (VNum (Int i)) w' /\
    stdin w' = rest.
Proof.
  intros Hi Hne E.
  destruct (NumeralFacts.numeral_enters_number i ltac:(lia)) as (HX & Hq & Hp).
  unfold userChooseDice. cbn [userChooseDice_loop].
  skip_writes (Writes_console_log LogChooseYourDice) w1 S1.
  skip_writes (Writes_dice_options (VNum (Int e))) w2 S2.
  skip_writes (Writes_console_log LogExitOption) w3 S3.
  skip_writes (Writes_console_log LogHelpOption) w4 S4.
  destruct (getUserInput_reads "Your selection: " w4 (number_to_string i) rest)
    as (w5 & E5 & S5); [congruence|].
  unfold bind at 1. unfold DiceGame.getUserInput.
  unfold SecureRandomGenerator.getUserInput in E5. rewrite E5, HX, Hq, Hp.
  cbn [isNaN negb num_ge num_lt strict_eq andb].
  rewrite dice_length.
  destruct (Z.geb_spec i 0); [|lia]. destruct (Z.ltb_spec i n); [|lia].
  destruct (Z.eqb_spec i e); [lia|]. cbn [negb andb].
  unfold bind, console_log, ret. eexists. split; [reflexivity | exact S5].
Qed.
End Game.

End SelectionFacts.

Lemma cancellation_exits_without_adjudication_witness :
  exists w',
    Program.main 2 sample_args
      (more_input (initial_world [] [] ["0"; "1"; "2"]) [" x "; "5"])
    = Done 0 w' /\
    stdin w' = ["5"] /\ rl_closed w' = true /\ no_adjudication w'.
Proof.
  apply (cancellation_exits_without_adjudication
           2 sample_args (initial_world [] [] ["0"; "1"; "2"]) " x " ["5"]).
  - vm_compute. reflexivity.
  - reflexivity.
  - reflexivity.
Defined.

(** C10.  Face lookup performs no bounds check: for every face index
    outside [0, faceCount-1], and for [NaN], [getValue] returns
    [undefined] and signals nothing; so when the exchange hands
    [rollDice] such an index, [rollDice] reports and returns an undefined
    roll instead of failing. *)
Theorem getValue_has_no_bounds_check :
  (forall d i,
      i < 0 \/ Dice.getFaceCount d <= i ->
      Dice.getValue d (VNum (Int i)) = VUndefined) /\
  (forall d, Dice.getValue d (VNum NaN) = VUndefined) /\
  (forall fuel this d playerName w faceIndex w1,
      SecureRandomGenerator.fairRandomGeneration
        fuel 0 (Dice.getFaceCount d - 1) (playerName ++ " dice roll")
        (write w (LogTimeToRoll playerName))
      = Done (VNum faceIndex) w1 ->
      Dice.getValue d (VNum faceIndex) = VUndefined ->
      DiceGame.rollDice fuel this (Some d) playerName w
      = Done VUndefined (write w1 (LogRollResult playerName VUndefined))).
Proof.
  split; [|split].
  - intros d i Hi. unfold Dice.getValue, Dice.getFaceCount, array_get in *.
    destruct (Z.leb_spec 0 i); destruct (Z.ltb_spec i (Z.of_nat (List.length (Dice.faces d))));
      cbn [andb]; try reflexivity; lia.
  - reflexivity.
  - intros fuel this d playerName w faceIndex w1 Hrun Hget.
    unfold DiceGame.rollDice. unfold bind at 1. cbn [console_log].
    destruct fuel as [|fuel].
    + exfalso. revert Hrun.
      unfold SecureRandomGenerator.fairRandomGeneration, bind, console_log,
        SecureRandomGenerator.generateSecureKey, randomBytes,
        SecureRandomGenerator.generateUniformRandom.
      destruct (_ <=? 0); discriminate.
    + cbn [DiceGame.rollDice_loop]. unfold bind at 1. rewrite Hrun.
      destruct faceIndex as [i|]; cbn [strict_eq]; rewrite Hget; reflexivity.
Qed.

Lemma getValue_has_no_bounds_check_witness :
  Dice.getValue die_A (VNum (Int 6)) = VUndefined /\
  exists w',
    DiceGame.rollDice 1 sample_game (Some die_A) "your" (initial_world [] [] ["?"])
    = Done VUndefined w'.
Proof.
  split.
  - apply (proj1 getValue_has_no_bounds_check die_A 6). right. vm_compute. discriminate.
  - eexists.
    eapply (proj2 (proj2 getValue_has_no_bounds_check) 1%nat sample_game die_A "your").
    + vm_compute. reflexivity.
    + reflexivity.
Defined.

(** C1 fails on the code: a Help request ([?]) typed during the first
    move determination is not repeated.  [fairRandomGeneration] reveals
    its number and key, combines the number with the string [?] into
    [NaN] and returns that; [determineFirstPlayer] takes it for "the user
    moves first" and never shows the probability table. *)
Theorem help_request_ends_the_round :
  (exists w',
      SecureRandomGenerator.getUserNumber 1 0 1 (initial_world [] [] ["?"])
      = Done (VStr "?") w') /\
  (exists w',
      SecureRandomGenerator.fairRandomGeneration 1 0 1 "first move determination"
        (initial_world [] [] ["?"])
      = Done (VNum NaN) w' /\
      existsb is_reveal (stdout w') = true /\ stdin w' = []) /\
  (exists w',
      DiceGame.determineFirstPlayer 1 sample_game (initial_world [] [] ["?"])
      = Done (VBool false) w' /\
      existsb is_reveal (stdout w') = true /\
      existsb is_table (stdout w') = false /\ stdin w' = []).
Proof.
  split; [|split].
  - eexists. vm_compute. reflexivity.
  - eexists. split; [vm_compute; reflexivity|]. split; reflexivity.
  - eexists. split; [vm_compute; reflexivity|]. repeat split; reflexivity.
Qed.

(* ===================================================================== *)
(** ** A Help request inside an exchange, in general *)
(* ===================================================================== *)

Module HelpFacts.
Import SecureRandomGenerator ExchangeFacts NumeralFacts.

Lemma rev_string_app a :
  forall b acc, rev_string (a ++ b) acc = rev_string b (rev_string a acc).
Proof.
  induction a as [|c a IH]; intros b acc; cbn [append rev_string]; [reflexivity|].
  apply IH.
Qed.

Lemma all_digits_question x : all_digits (x ++ "?") = false.
Proof.
  induction x as [|c x IH]; cbn [append all_digits]; [reflexivity|].
  rewrite IH. apply andb_false_r.
Qed.

(** A string that starts with no white space keeps its [?] suffix through
    [trim]. *)
Lemma trim_question c x :
  is_white_space c = false ->
  trim (String c x ++ "?") = String c x ++ "?".
Proof.
  intros Hc. unfold trim, trimEnd.
  assert (Hs : trimStart (String c x ++ "?") = String c x ++ "?").
  { cbn [append trimStart]. now rewrite Hc. }
  rewrite Hs, rev_string_app. cbn [rev_string trimStart].
  change (is_white_space "?") with false. cbn iota.
  cbn [rev_string]. rewrite rev_string_twice. reflexivity.
Qed.

Lemma numeral_question_is_NaN s :
  numeral s -> string_to_number (s ++ "?") = NaN.
Proof.
  intros Hs. destruct (numeral_first s Hs) as (c & s' & -> & Hc & _).
  unfold string_to_number.
  assert (Hw : is_white_space c = false).
  { cbn [In] in Hc. repeat (destruct Hc as [<- | Hc]; [reflexivity|]). contradiction. }
  rewrite (trim_question c s' Hw).
  assert (E : forall t,
             match String c t with
             | EmptyString => Int 0
             | String "-" r =>
                 if starts_with_digit 10 r && all_digits r
                 then Int (- read_digits 10 r 0) else NaN
             | String "+" r =>
                 if starts_with_digit 10 r && all_digits r
                 then Int (read_digits 10 r 0) else NaN
             | _ => if all_digits (String c t)
                    then Int (read_digits 10 (String c t) 0) else NaN
             end
             = if all_digits (String c t)
               then Int (read_digits 10 (String c t) 0) else NaN).
  { intros t. cbn [In] in Hc.
    repeat (destruct Hc as [<- | Hc]; [reflexivity|]). contradiction. }
  cbn [append]. rewrite E.
  change (String c (s' ++ "?")) with (String c s' ++ "?").
  now rewrite all_digits_question.
Qed.

(** A number followed by [?] is a string that converts to [NaN]. *)
Lemma number_question_is_NaN c :
  string_to_number (number_to_string c ++ "?") = NaN.
Proof.
  destruct (Z.ltb_spec c 0) as [Hneg|Hpos].
  - unfold number_to_string. destruct (Z.ltb_spec c 0); [|lia].
    unfold string_to_number.
    change (String "-" (decimal_digits (Z.to_nat (- c)) (- c) "") ++ "?")
      with (String "-" (decimal_digits (Z.to_nat (- c)) (- c) "") ++ "?").
    rewrite (trim_question "-" _ eq_refl). cbn [append].
    rewrite all_digits_question. now rewrite andb_false_r.
  - apply numeral_question_is_NaN. now apply number_to_string_numeral.
Qed.

Lemma combine_with_help c modulus min :
  js_add (js_rem (js_add (VNum (Int c)) (VStr "?")) (VNum (Int modulus)))
         (VNum (Int min))
  = VNum NaN.
Proof.
  unfold js_add at 2. cbn [is_string orb to_string].
  unfold js_rem. cbn [to_number]. rewrite number_question_is_NaN. reflexivity.
Qed.

Lemma getUserNumber_help fuel min max w line rest :
  stdin w = line :: rest ->
  trim line = "?" ->
  exists w',
    getUserNumber (S fuel) min max w = Done (VStr "?") w' /\ stdin w' = rest.
Proof.
  intros E Hq. unfold getUserNumber. cbn [getUserNumber_loop].
  skip_writes (Writes_console_log (LogAddModulo (max - min + 1))) w1 S1.
  skip_writes (Writes_number_options min max) w2 S2.
  skip_writes (Writes_console_log LogExitOption) w3 S3.
  skip_writes (Writes_console_log LogHelpOption) w4 S4.
  destruct (getUserInput_reads "Your selection: " w4 line rest) as (w5 & E5 & S5);
    [congruence|].
  unfold bind at 1. rewrite E5, Hq. cbn.
  exists w5. split; [reflexivity | assumption].
Qed.

(** Whatever the range and the computer's number, a Help request makes
    the exchange reveal the number and the key and return [NaN]. *)
Lemma fairRandomGeneration_help fuel min max purpose w c w1 line rest :
  commitment fuel min max purpose w = Done c w1 ->
  stdin w1 = line :: rest ->
  trim line = "?" ->
  exists w',
    fairRandomGeneration fuel min max purpose w = Done (VNum NaN) w' /\
    stdin w' = rest /\
    existsb is_reveal (stdout w') = true.
Proof.
  intros Hc E Hq.
  unfold commitment, fairRandomGeneration in *. unfold bind at 1 2 in Hc.
  unfold bind at 1 2. cbn [console_log generateSecureKey randomBytes] in *.
  destruct fuel as [|fuel]; [now apply generateUniformRandom_needs_fuel in Hc|].
  unfold bind at 1. rewrite Hc. cbv zeta.
  unfold bind at 1. cbn [console_log].
  match goal with |- context [bind (getUserNumber _ _ _) _ ?w0] =>
    destruct (getUserNumber_help fuel min max w0 line rest E Hq) as (w2 & E2 & S2)
  end.
  unfold bind at 1. rewrite E2. cbn [strict_eq].
  rewrite combine_with_help.
  eexists. split; [reflexivity|]. split; [exact S2|].
  cbn [stdout write]. rewrite !existsb_app. cbn. now rewrite !orb_true_r.
Qed.

End HelpFacts.

(* ===================================================================== *)
(** ** Further properties: the random draw *)
(* ===================================================================== *)

Module ThresholdFacts.
Import SecureRandomGenerator.

(** The bytes drawn can spell every value of the range. *)
Lemma range_fits_bytes range :
  1 <= range -> range <= 256 ^ Z.of_nat (bytesNeeded range).
Proof.
  intros Hr. unfold bytesNeeded.
  pose proof (Z.log2_up_nonneg range) as HL.
  set (L := Z.log2_up range) in *.
  assert (Hq : 0 <= (L + 7) / 8) by (apply Z.div_pos; lia).
  rewrite Z2Nat.id by exact Hq.
  assert (Hle : L <= 8 * ((L + 7) / 8)).
  { pose proof (Z.div_mod (L + 7) 8 ltac:(lia)).
    pose proof (Z.mod_pos_bound (L + 7) 8 ltac:(lia)). lia. }
  change 256 with (2 ^ 8). rewrite <- Z.pow_mul_r by lia.
  apply Z.le_trans with (2 ^ L).
  - destruct (Z.eq_dec range 1) as [->|Hne].
    + subst L. cbn. lia.
    + subst L. apply Z.log2_up_spec. lia.
  - apply Z.pow_le_mono_r; lia.
Qed.

Lemma maxValid_shape n range :
  1 <= range -> range <= 256 ^ Z.of_nat n ->
  (maxValid n range + 1) mod range = 0 /\
  range - 1 <= maxValid n range < 256 ^ Z.of_nat n /\
  256 ^ Z.of_nat n - (maxValid n range + 1) < range.
Proof.
  intros Hr Hfit. unfold maxValid. set (N := 256 ^ Z.of_nat n) in *.
  pose proof (Z.div_mod N range ltac:(lia)) as Hdm.
  pose proof (Z.mod_pos_bound N range ltac:(lia)) as Hmod.
  assert (Hk : 1 <= N / range) by (apply Z.div_le_lower_bound; lia).
  replace (N / range * range - 1 + 1) with (N / range * range) by lia.
  split; [apply Z.mod_mul; lia|]. nia.
Qed.



End ThresholdFacts.



Module RejectionFacts.
Import SecureRandomGenerator.



(** The world after [m] more bytes have been drawn. *)
Local Abbreviation advance w m :=
  (mkWorld (entropy w) (entropy_used w + m) (uniform w) (uniform_used w)
           (stdin w) (stdout w) (rl_closed w)).













End RejectionFacts.



(** X3.  The degenerate range [min = max] draws no byte, divides nothing
    by zero and returns [min], leaving the output untouched. *)
Theorem degenerate_range_draws_nothing (fuel : nat) (min : Z) (key : list Z) (w : world) :
  exists w',
    SecureRandomGenerator.generateUniformRandom (S fuel) min min key w = Done min w' /\
    entropy_used w' = entropy_used w /\ stdout w' = stdout w /\ stdin w' = stdin w.
Proof.
  unfold SecureRandomGenerator.generateUniformRandom.
  replace (min - min + 1) with 1 by lia.
  eexists. cbn. split; [reflexivity|]. cbn. repeat split. apply Nat.add_0_r.
Qed.

(* ===================================================================== *)
(** ** Further properties: numbers as text *)
(* ===================================================================== *)

Module TextFacts.
Import NumeralFacts.

Lemma digit_not_white_space c : is_digit 10 c = true -> is_white_space c = false.
Proof.
  intros H. apply digit_cases in H. cbn [In] in H.
  repeat (destruct H as [<- | H]; [reflexivity|]). contradiction.
Qed.

Lemma digit_not_comma c : is_digit 10 c = true -> Ascii.eqb c "," = false.
Proof.
  intros H. apply digit_cases in H. cbn [In] in H.
  repeat (destruct H as [<- | H]; [reflexivity|]). contradiction.
Qed.

Lemma trimStart_clean s : starts_clean s = true -> trimStart s = s.
Proof.
  destruct s as [|c s]; [reflexivity|]. cbn [starts_clean trimStart].
  intros H. apply negb_true_iff in H. now rewrite H.
Qed.

Lemma rev_string_clean t :
  forall acc,
    all_digits t = true -> starts_clean acc = true ->
    starts_clean (rev_string t acc) = true.
Proof.
  induction t as [|c t IH]; intros acc Ht Hacc; cbn [rev_string]; [assumption|].
  cbn [all_digits] in Ht. apply andb_prop in Ht. destruct Ht as [Hc Ht].
  apply IH; [assumption|]. cbn [starts_clean].
  now rewrite (digit_not_white_space c Hc).
Qed.

Lemma trim_negative t : numeral t -> trim (String "-" t) = String "-" t.
Proof.
  intros [Hall _]. unfold trim, trimEnd.
  change (trimStart (String "-" t)) with (String "-" t).
  cbn [rev_string].
  rewrite trimStart_clean by (apply rev_string_clean; [assumption | reflexivity]).
  rewrite rev_string_twice. cbn [rev_string]. now rewrite append_empty.
Qed.

Lemma parseInt_negative t :
  numeral t -> parseInt (String "-" t) = Int (- read_digits 10 t 0).
Proof.
  intros Ht. pose proof Ht as [_ Hstart].
  assert (E : parseInt (String "-" t)
              = if starts_with_digit 10 t then Int (-1 * read_digits 10 t 0) else NaN).
  { destruct (numeral_first t Ht) as (c & t' & -> & Hc & Ht').
    cbn [In] in Hc.
    destruct Hc as [<- | Hc].
    - destruct t' as [|c2 t'']; [reflexivity|].
      cbn [all_digits] in Ht'. apply andb_prop in Ht'. destruct Ht' as [Hc2 _].
      apply digit_cases in Hc2. cbn [In] in Hc2.
      repeat (destruct Hc2 as [<- | Hc2]; [reflexivity|]). contradiction.
    - repeat (destruct Hc as [<- | Hc]; [reflexivity|]). contradiction. }
  rewrite E, Hstart. f_equal; lia.
Qed.

Lemma number_to_string_negative z :
  z < 0 -> number_to_string z = String "-" (number_to_string (- z)).
Proof.
  intros Hz. unfold number_to_string.
  destruct (Z.ltb_spec z 0); [|lia]. destruct (Z.ltb_spec (- z) 0); [lia|].
  reflexivity.
Qed.

Lemma parseInt_number_to_string z : parseInt (number_to_string z) = Int z.
Proof.
  destruct (Z.lt_ge_cases z 0) as [Hneg|Hpos].
  - rewrite number_to_string_negative by assumption.
    rewrite parseInt_negative by (apply number_to_string_numeral; lia).
    rewrite number_to_string_read by lia. f_equal. lia.
  - rewrite parseInt_numeral by (now apply number_to_string_numeral).
    now rewrite number_to_string_read.
Qed.

Lemma trim_number_to_string z : trim (number_to_string z) = number_to_string z.
Proof.
  destruct (Z.lt_ge_cases z 0) as [Hneg|Hpos].
  - rewrite number_to_string_negative by assumption.
    apply trim_negative, number_to_string_numeral. lia.
  - now apply trim_numeral, number_to_string_numeral.
Qed.

Lemma number_to_string_not_command z :
  String.eqb (toUpperCase (number_to_string z)) "X" = false /\
  String.eqb (number_to_string z) "?" = false.
Proof.
  destruct (Z.lt_ge_cases z 0) as [Hneg|Hpos].
  - rewrite number_to_string_negative by assumption. split; reflexivity.
  - now apply numeral_not_command, number_to_string_numeral.
Qed.

Lemma number_enters_number z : enters_number (number_to_string z) z.
Proof.
  unfold enters_number. rewrite trim_number_to_string.
  destruct (number_to_string_not_command z) as [HX Hq].
  split; [exact HX|]. split; [exact Hq | apply parseInt_number_to_string].
Qed.

Lemma all_digits_comma_free t : all_digits t = true -> comma_free t = true.
Proof.
  induction t as [|c t IH]; [reflexivity|]. cbn [all_digits comma_free].
  intros H. apply andb_prop in H. destruct H as [Hc Ht].
  now rewrite (digit_not_comma c Hc), IH.
Qed.

Lemma number_to_string_comma_free z : comma_free (number_to_string z) = true.
Proof.
  destruct (Z.lt_ge_cases z 0) as [Hneg|Hpos].
  - rewrite number_to_string_negative by assumption. cbn [comma_free].
    change (Ascii.eqb "-" ",") with false. cbn [negb andb].
    apply all_digits_comma_free, number_to_string_numeral. lia.
  - apply all_digits_comma_free, number_to_string_numeral. assumption.
Qed.

Lemma split_comma_piece x :
  comma_free x = true -> split_comma x = [x].
Proof.
  induction x as [|c x IH]; [reflexivity|]. cbn [comma_free split_comma].
  intros H. apply andb_prop in H. destruct H as [Hc Hx].
  apply negb_true_iff in Hc. now rewrite Hc, IH.
Qed.

Lemma split_comma_cons x s :
  comma_free x = true ->
  split_comma (x ++ String "," s) = x :: split_comma s.
Proof.
  induction x as [|c x IH]; intros H.
  - reflexivity.
  - cbn [comma_free] in H. apply andb_prop in H. destruct H as [Hc Hx].
    apply negb_true_iff in Hc. cbn [append split_comma]. now rewrite Hc, IH.
Qed.

(** [split(',')] undoes [join(',')] on a non-empty array of comma-free
    strings. *)
Lemma split_comma_join_comma l :
  l <> [] -> forallb comma_free l = true -> split_comma (join_comma l) = l.
Proof.
  induction l as [|x l IH]; intros Hne Hall; [contradiction|].
  cbn [forallb] in Hall. apply andb_prop in Hall. destruct Hall as [Hx Hl].
  destruct l as [|y l].
  - cbn [join_comma]. now apply split_comma_piece.
  - change (join_comma (x :: y :: l)) with (x ++ String "," (join_comma (y :: l))).
    rewrite split_comma_cons by assumption. f_equal. apply IH; [discriminate | assumption].
Qed.

Lemma parse_faces_number_to_string faces :
  Args.parse_faces (map number_to_string faces) = Return faces.
Proof.
  induction faces as [|z faces IH]; [reflexivity|].
  cbn [map Args.parse_faces].
  now rewrite trim_number_to_string, parseInt_number_to_string, IH.
Qed.

Lemma faces_text_parses faces :
  faces <> [] ->
  Args.parse_faces (split_comma (join_comma (map number_to_string faces)))
  = Return faces.
Proof.
  intros Hne. rewrite split_comma_join_comma.
  - apply parse_faces_number_to_string.
  - destruct faces; [contradiction | discriminate].
  - apply forallb_forall. intros s Hin. apply in_map_iff in Hin.
    destruct Hin as (z & <- & _). apply number_to_string_comma_free.
Qed.

End TextFacts.

(** X5.  The text a die is shown with recreates the die: for a die with
    six faces that are safe integers, [parseDiceConfig] applied to
    [faces.join(',')] returns its faces; so the menu texts of three or more
    such dice, given back as arguments, validate to the same dice.  A die
    without faces is shown as the empty text, which is rejected as not
    being integers. *)
Theorem dice_text_round_trip :
  (forall d,
      List.length (Dice.faces d) = 6%nat ->
      forallb safe_integer (Dice.faces d) = true ->
      Args.parseDiceConfig (Dice.faces_text d) = Return (Dice.faces d)) /\
  (forall dice,
      (3 <= List.length dice)%nat ->
      Forall (fun d => List.length (Dice.faces d) = 6%nat /\
                       forallb safe_integer (Dice.faces d) = true) dice ->
      Args.validateArguments (map Dice.faces_text dice) = Return (map Dice.faces dice)) /\
  (forall d,
      Dice.faces d = [] ->
      Args.parseDiceConfig (Dice.faces_text d) = Raise FacesNotIntegers).
Proof.
  assert (Hone : forall d,
             List.length (Dice.faces d) = 6%nat ->
             Args.parseDiceConfig (Dice.faces_text d) = Return (Dice.faces d)).
  { intros d Hlen. unfold Args.parseDiceConfig, Dice.faces_text.
    rewrite TextFacts.faces_text_parses by (intros E; rewrite E in Hlen; discriminate).
    now rewrite Hlen. }
  split; [intros d Hlen _; now apply Hone|]. split.
  - intros dice Hn Hall. unfold Args.validateArguments.
    rewrite length_map. destruct (Nat.ltb_spec (List.length dice) 3); [lia|].
    clear Hn H. generalize 0 as i.
    induction Hall as [|d dice [Hd _] Hall IH]; intros i; [reflexivity|].
    cbn [map Args.validate_from]. now rewrite (Hone d Hd), IH.
  - intros d Hd. unfold Args.parseDiceConfig, Dice.faces_text. now rewrite Hd.
Qed.

Lemma dice_text_round_trip_witness :
  Args.parseDiceConfig (Dice.faces_text (Dice.new [-2; 0; 4; 40; 9; 9] 0))
  = Return [-2; 0; 4; 40; 9; 9].
Proof.
  apply (proj1 dice_text_round_trip (Dice.new [-2; 0; 4; 40; 9; 9] 0)).
  - reflexivity.
  - reflexivity.
Defined.

(* ===================================================================== *)
(** ** Further properties: arguments and the process *)
(* ===================================================================== *)

Module MoreArgsFacts.
Import Args.

Lemma parse_faces_not_integers tokens :
  forallb (fun x => negb (isNaN (parseInt (trim x)))) tokens = false ->
  parse_faces tokens = Raise FacesNotIntegers.
Proof.
  induction tokens as [|x tokens IH]; cbn [forallb parse_faces]; [discriminate|].
  destruct (parseInt (trim x)) as [num|]; cbn [isNaN negb andb]; [|reflexivity].
  intros H. now rewrite (IH H).
Qed.

Lemma parse_faces_values tokens values :
  parse_faces tokens = Return values ->
  map (fun x => parseInt (trim x)) tokens = map Int values.
Proof.
  revert values. induction tokens as [|x tokens IH]; cbn [parse_faces]; intros values H.
  - now inversion H.
  - destruct (parseInt (trim x)) as [num|] eqn:E; [|discriminate].
    destruct (parse_faces tokens) as [vs|e]; [|discriminate].
    inversion H; subst. cbn [map]. now rewrite E, (IH vs eq_refl).
Qed.

Lemma validate_from_first_bad args :
  forall i e,
    validate_from i args = Raise e ->
    exists k a cause,
      nth_error args k = Some a /\
      parseDiceConfig a = Raise cause /\
      e = InDice (i + Z.of_nat k + 1) cause /\
      forall j b, (j < k)%nat -> nth_error args j = Some b ->
                  exists config, parseDiceConfig b = Return config.
Proof.
  induction args as [|a args IH]; intros i e H; cbn [validate_from] in H; [discriminate|].
  destruct (parseDiceConfig a) as [config|cause] eqn:Ea.
  - destruct (validate_from (i + 1) args) as [configs|e'] eqn:Er; [discriminate|].
    inversion H; subst e'. destruct (IH _ _ Er) as (k & b & cause & Hk & Hb & He & Hbefore).
    exists (S k), b, cause. repeat split; try assumption.
    + rewrite He. f_equal. lia.
    + intros j c Hj Hc. destruct j as [|j].
      * cbn in Hc. inversion Hc; subst. now exists config.
      * apply (Hbefore j c); [lia | exact Hc].
  - inversion H. exists 0%nat, a, cause. repeat split; try assumption.
    + f_equal. lia.
    + intros j b Hj. lia.
Qed.

End MoreArgsFacts.

(** X6.  What [parseDiceConfig] does with an argument: a token without a
    leading integer makes it throw 'All face values must be integers',
    whatever the number of tokens; otherwise a number of tokens other than
    6 makes it throw 'Each dice must have exactly 6 faces, got n'; otherwise
    it returns the six integers [parseInt] reads, in order. *)
Theorem parseDiceConfig_outcomes (configStr : string) :
  (Args.tokens_parse configStr = false ->
   Args.parseDiceConfig configStr = Raise FacesNotIntegers) /\
  (Args.tokens_parse configStr = true ->
   Args.face_count configStr <> 6%nat ->
   Args.parseDiceConfig configStr = Raise (WrongFaceCount (Args.face_count configStr))) /\
  (Args.tokens_parse configStr = true ->
   Args.face_count configStr = 6%nat ->
   exists values,
     Args.parseDiceConfig configStr = Return values /\
     List.length values = 6%nat /\
     map (fun x => parseInt (trim x)) (split_comma configStr) = map Int values).
Proof.
  unfold Args.tokens_parse, Args.face_count, Args.parseDiceConfig.
  split; [|split].
  - intros H. now rewrite MoreArgsFacts.parse_faces_not_integers.
  - intros Hp Hc. destruct (ArgsFacts.parse_faces_Return _ Hp) as (values & E & Hl).
    rewrite E, Hl. destruct (Nat.eqb_spec (List.length (split_comma configStr)) 6);
      [contradiction | reflexivity].
  - intros Hp Hc. destruct (ArgsFacts.parse_faces_Return _ Hp) as (values & E & Hl).
    exists values. rewrite E. split; [|split].
    + rewrite Hl, Hc. reflexivity.
    + now rewrite Hl.
    + now apply MoreArgsFacts.parse_faces_values.
Qed.

Lemma parseDiceConfig_outcomes_witness :
  Args.parseDiceConfig "1,x" = Raise FacesNotIntegers /\
  Args.parseDiceConfig "" = Raise FacesNotIntegers /\
  Args.parseDiceConfig "1,2,3,4,5,6,7" = Raise (WrongFaceCount 7).
Proof.
  split; [|split].
  - apply (proj1 (parseDiceConfig_outcomes "1,x")). reflexivity.
  - apply (proj1 (parseDiceConfig_outcomes "")). reflexivity.
  - apply (proj1 (proj2 (parseDiceConfig_outcomes "1,2,3,4,5,6,7")));
      [reflexivity | vm_compute; discriminate].
Defined.

(** X7.  When [validateArguments] throws, it is either because fewer
    than 3 arguments were given, or the error names the first argument
    (counted from 1) that [parseDiceConfig] rejects and carries that
    rejection as its cause; every argument before it is a valid die. *)
Theorem validation_reports_first_bad_die (args : list string) (e : error) :
  Args.validateArguments args = Raise e ->
  ((List.length args < 3)%nat /\ e = TooFewDice (List.length args)) \/
  (exists k a cause,
      nth_error args k = Some a /\
      Args.parseDiceConfig a = Raise cause /\
      e = InDice (Z.of_nat k + 1) cause /\
      forall j b, (j < k)%nat -> nth_error args j = Some b ->
                  exists config, Args.parseDiceConfig b = Return config).
Proof.
  unfold Args.validateArguments.
  destruct (Nat.ltb_spec (List.length args) 3) as [Hlt|Hge]; intros H.
  - left. split; [assumption | congruence].
  - right. apply MoreArgsFacts.validate_from_first_bad in H.
    destruct H as (k & a & cause & Hk & Ha & He & Hbefore).
    exists k, a, cause. repeat split; assumption.
Qed.

Lemma validation_reports_first_bad_die_witness :
  (List.length ["1,2,3,4,5,6"; "1,2,3,4,5,6"; "1,2,x"; "7"] < 3)%nat /\
  InDice 3 FacesNotIntegers = TooFewDice 4 \/
  exists k a cause,
    nth_error ["1,2,3,4,5,6"; "1,2,3,4,5,6"; "1,2,x"; "7"] k = Some a /\
    Args.parseDiceConfig a = Raise cause /\
    InDice 3 FacesNotIntegers = InDice (Z.of_nat k + 1) cause /\
    forall j b, (j < k)%nat ->
                nth_error ["1,2,3,4,5,6"; "1,2,3,4,5,6"; "1,2,x"; "7"] j = Some b ->
                exists config, Args.parseDiceConfig b = Return config.
Proof.
  apply (validation_reports_first_bad_die
           ["1,2,3,4,5,6"; "1,2,3,4,5,6"; "1,2,x"; "7"] (InDice 3 FacesNotIntegers)).
  reflexivity.
Defined.

(** X8.  When the arguments do not validate, [main] ends with exit code
    1 after writing the error and the usage line, and nothing else has
    happened: no input line is read, no random byte or [Math.random]
    outcome is used, and the input is not closed, since no game was
    created. *)
Theorem invalid_arguments_exit_early
    (fuel : nat) (args : list string) (e : error) (w : world) :
  Args.validateArguments args = Raise e ->
  exists w',
    Program.main fuel args w = Done 1 w' /\
    Untouched w w' /\
    (stdout w' = (stdout w ++ [LogInsufficientArguments; LogUsage])%list \/
     stdout w' = (stdout w ++ [LogErrorMessage e; LogUsage])%list).
Proof.
  intros H. unfold Program.main. pose proof H as H'.
  unfold Args.validateArguments in H'.
  destruct (Nat.ltb_spec (List.length args) 3) as [Hlt|Hge].
  - eexists. split; [reflexivity|]. split; [repeat split|].
    left. cbn. now rewrite <- app_assoc.
  - rewrite H. apply MoreArgsFacts.validate_from_first_bad in H'.
    destruct H' as (k & a & cause & _ & _ & -> & _).
    eexists. split; [reflexivity|]. split; [repeat split|].
    right. cbn. now rewrite <- app_assoc.
Qed.

Lemma invalid_arguments_exit_early_witness :
  exists w',
    Program.main 1 ["1,2,3,4,5,6"; "1,2,3,4,5"; "1,2,3,4,5,6"]
                 (initial_world [] [] ["0"; "1"])
    = Done 1 w' /\
    Untouched (initial_world [] [] ["0"; "1"]) w' /\
    (stdout w' = ([] ++ [LogInsufficientArguments; LogUsage])%list \/
     stdout w' = ([] ++ [LogErrorMessage (InDice 2 (WrongFaceCount 5)); LogUsage])%list).
Proof.
  apply (invalid_arguments_exit_early 1
           ["1,2,3,4,5,6"; "1,2,3,4,5"; "1,2,3,4,5,6"]
           (InDice 2 (WrongFaceCount 5)) (initial_world [] [] ["0"; "1"])).
  reflexivity.
Defined.

(** X9.  [main] lets no exception escape, and when it ends the exit code
    is 0 or 1; it is 0 only if the arguments validated, and whenever the
    arguments validated (so a game was created) the input has been closed
    by the time [main] ends, on the normal path as on the exception
    path. *)
Theorem main_outcomes (fuel : nat) (args : list string) (w : world) :
  (forall e w', Program.main fuel args w <> Throw e w') /\
  (forall code w',
      Program.main fuel args w = Done code w' ->
      (code = 0 \/ code = 1) /\
      (code = 0 -> exists configs, Args.validateArguments args = Return configs) /\
      ((exists configs, Args.validateArguments args = Return configs) ->
       rl_closed w' = true)).
Proof.
  unfold Program.main, Args.validateArguments.
  destruct (Nat.ltb_spec (List.length args) 3) as [Hlt|Hge].
  - split; [intros e w'; discriminate|].
    intros code w' H. inversion H; subst. split; [now right|].
    split; [discriminate | intros [configs Hc]; discriminate].
  - destruct (Args.validate_from 0 args) as [configs|e0].
    + unfold try_catch, DiceGame.playGame, try_finally, try_catch.
      unfold bind, rl_close, throw, ret. cbv beta.
      destruct (DiceGame.play_body fuel (DiceGame.new configs) w) as [[] w1|e1 w1| |];
        cbv beta iota.
      * split; [intros e w'; discriminate|].
        intros code w' H. inversion H; subst. split; [now left|].
        split; [intros _; now exists configs | reflexivity].
      * destruct (Program.is_usage_error e1); cbv beta iota delta [console_log].
        -- split; [intros e w'; discriminate|].
           intros code w' H. inversion H; subst. split; [now right|].
           split; [discriminate | reflexivity].
        -- split; [intros e w'; discriminate|].
           intros code w' H. inversion H; subst. split; [now right|].
           split; [discriminate | reflexivity].
      * split; [intros e w'; discriminate | intros code w' H; discriminate].
      * split; [intros e w'; discriminate | intros code w' H; discriminate].
    + unfold try_catch, bind, throw, ret. cbv beta iota.
      destruct (Program.is_usage_error e0); cbv beta iota delta [console_log].
      * split; [intros e w'; discriminate|].
        intros code w' H. inversion H; subst. split; [now right|].
        split; [discriminate | intros [c Hc]; discriminate].
      * split; [intros e w'; discriminate|].
        intros code w' H. inversion H; subst. split; [now right|].
        split; [discriminate | intros [c Hc]; discriminate].
Qed.

Lemma main_outcomes_witness :
  exists configs, Args.validateArguments sample_args = Return configs.
Proof.
  pose proof (proj2 (main_outcomes 2 sample_args (initial_world [] [] ["x"]))) as H.
  remember (Program.main 2 sample_args (initial_world [] [] ["x"])) as r eqn:E.
  vm_compute in E. subst r.
  destruct (H _ _ eq_refl) as (_ & Hvalid & _).
  apply Hvalid. reflexivity.
Defined.

(* ===================================================================== *)
(** ** Further properties: the prompts *)
(* ===================================================================== *)

Module PromptFacts.
Import SecureRandomGenerator DiceGame.

Lemma stdout_writes evs : forall w, stdout (writes w evs) = (stdout w ++ evs)%list.
Proof.
  unfold writes. induction evs as [|e evs IH]; intros w; cbn [fold_left].
  - now rewrite app_nil_r.
  - rewrite IH. cbn [write stdout]. now rewrite <- app_assoc.
Qed.

Lemma writes_untouched evs : forall w, Untouched w (writes w evs).
Proof.
  unfold writes. induction evs as [|e evs IH]; intros w; cbn [fold_left].
  - repeat split.
  - destruct (IH (write w e)) as (H1 & H2 & H3 & H4). repeat split; assumption.
Qed.

Lemma stdin_writes evs w : stdin (writes w evs) = stdin w.
Proof. apply writes_untouched. Qed.

Lemma writes_app evs1 evs2 w : writes w (evs1 ++ evs2) = writes (writes w evs1) evs2.
Proof. unfold writes. apply fold_left_app. Qed.

Lemma for_each_log {A} (f : A -> event) (l : list A) :
  forall w, for_each l (fun x => console_log (f x)) w = Done tt (writes w (map f l)).
Proof.
  induction l as [|x l IH]; intros w; cbn [for_each map]; [reflexivity|].
  unfold bind. cbn [console_log]. apply IH.
Qed.

Lemma for_each_dice_options excludeIndex (l : list (Z * Dice.t)) :
  forall w,
    for_each l
      (fun '(i, d) =>
         if negb (strict_eq (VNum (Int i)) excludeIndex)
         then console_log (LogDiceOption i (Dice.faces d))
         else ret tt) w
    = Done tt
        (writes w (map (fun '(i, d) => LogDiceOption i (Dice.faces d))
                       (filter (fun '(i, _) => negb (strict_eq (VNum (Int i)) excludeIndex))
                               l))).
Proof.
  induction l as [|[i d] l IH]; intros w; cbn [for_each filter]; [reflexivity|].
  unfold bind at 1.
  destruct (negb (strict_eq (VNum (Int i)) excludeIndex)); cbn [console_log ret map].
  - apply IH.
  - apply IH.
Qed.

(** One turn of the loop of [getUserNumber]. *)
Lemma getUserNumber_step n min max w :
  getUserNumber_loop (S n) min max w
  = match stdin w with
    | [] => Blocked
    | line :: rest =>
        let w1 := answered (writes w (number_menu min max)) "Your selection: " rest in
        if String.eqb (toUpperCase (trim line)) "X" then Done VNull w1
        else if String.eqb (trim line) "?" then Done (VStr "?") w1
        else if in_range min max (parseInt (trim line))
             then Done (VNum (parseInt (trim line))) w1
             else getUserNumber_loop n min max (write w1 (LogInvalidNumber min max))
    end.
Proof.
  cbn [getUserNumber_loop]. unfold bind at 1. cbn [console_log].
  unfold bind at 1. rewrite for_each_log.
  unfold bind at 1. cbn [console_log]. unfold bind at 1. cbn [console_log].
  unfold bind at 1.
  assert (Hw : write (write (writes (write w (LogAddModulo (max - min + 1)))
                                     (map LogNumberOption (range_incl min max)))
                             LogExitOption) LogHelpOption
               = writes w (number_menu min max)).
  { unfold number_menu, writes. cbn [fold_left]. now rewrite fold_left_app. }
  rewrite Hw. unfold SecureRandomGenerator.getUserInput, bind at 1, question.
  rewrite stdin_writes.
  destruct (stdin w) as [|line rest]; [reflexivity|].
  cbv zeta. unfold ret at 1.
  fold (answered (writes w (number_menu min max)) "Your selection: " rest).
  destruct (String.eqb (toUpperCase (trim line)) "X"); [reflexivity|].
  destruct (String.eqb (trim line) "?"); [reflexivity|].
  fold (in_range min max (parseInt (trim line))).
  destruct (in_range min max (parseInt (trim line))); reflexivity.
Qed.

(** One turn of the loop of [userChooseDice]. *)
Lemma userChooseDice_step this n excludeIndex w :
  userChooseDice_loop this (S n) excludeIndex w
  = match stdin w with
    | [] => Blocked
    | line :: rest =>
        let w1 := answered (writes w (dice_menu this excludeIndex))
                           "Your selection: " rest in
        if String.eqb (toUpperCase (trim line)) "X" then Done VNull w1
        else if String.eqb (trim line) "?" then
          userChooseDice_loop this n excludeIndex
            (write w1 (LogProbabilityTable
                         (ProbabilityCalculator.calculateWinProbabilities (dice this))
                         (dice this)))
        else if acceptable this excludeIndex (parseInt (trim line))
             then Done (VNum (parseInt (trim line)))
                       (write w1 (LogUserChoice
                                    (dice_get (dice this) (VNum (parseInt (trim line))))))
             else userChooseDice_loop this n excludeIndex (write w1 LogInvalidDice)
    end.
Proof.
  cbn [userChooseDice_loop]. unfold bind at 1. cbn [console_log].
  unfold bind at 1. rewrite for_each_dice_options.
  unfold bind at 1. cbn [console_log]. unfold bind at 1. cbn [console_log].
  unfold bind at 1.
  match goal with |- context [DiceGame.getUserInput _ ?x] =>
    assert (Hw : x = writes w (dice_menu this excludeIndex))
      by (unfold dice_menu, writes; cbn [fold_left]; now rewrite fold_left_app);
    rewrite Hw
  end.
  unfold DiceGame.getUserInput, bind at 1, question.
  rewrite stdin_writes.
  destruct (stdin w) as [|line rest]; [reflexivity|].
  cbv zeta. unfold ret at 1.
  fold (answered (writes w (dice_menu this excludeIndex)) "Your selection: " rest).
  destruct (String.eqb (toUpperCase (trim line)) "X"); [reflexivity|].
  destruct (String.eqb (trim line) "?"); [reflexivity|].
  fold (acceptable this excludeIndex (parseInt (trim line))).
  destruct (acceptable this excludeIndex (parseInt (trim line))); reflexivity.
Qed.

Lemma in_range_inv min max num :
  in_range min max num = true -> exists u, num = Int u /\ min <= u <= max.
Proof.
  unfold in_range. intros H.
  repeat (apply andb_prop in H; destruct H as [H ?]).
  destruct num as [u|]; [|discriminate]. exists u. split; [reflexivity|].
  cbn [num_ge num_le] in *. lia.
Qed.

Lemma getUserNumber_loop_returns n min max :
  Returns (fun v => v = VNull \/ v = VStr "?" \/
                    exists u, v = VNum (Int u) /\ min <= u <= max)
          (getUserNumber_loop n min max).
Proof.
  induction n as [|n IH]; intros w v w' H; [discriminate|].
  rewrite getUserNumber_step in H.
  destruct (stdin w) as [|line rest]; [discriminate|]. cbv zeta in H.
  destruct (String.eqb (toUpperCase (trim line)) "X"); [inversion H; now left|].
  destruct (String.eqb (trim line) "?"); [inversion H; now right; left|].
  destruct (in_range min max (parseInt (trim line))) eqn:E.
  - apply in_range_inv in E. destruct E as (u & Eu & Hu).
    inversion H. right; right. exists u. now rewrite Eu.
  - eapply IH; eauto.
Qed.

(** What a finished [getUserNumber] has written: menus, prompts and
    invalid-selection lines, ending with the prompt it was answered at;
    and it has read at least one line. *)
Lemma getUserNumber_loop_trace n min max :
  forall w v w',
    getUserNumber_loop n min max w = Done v w' ->
    exists evs,
      stdout w' = (stdout w ++ evs ++ [Prompt "Your selection: "])%list /\
      forallb (fun e => negb (is_reveal e)) evs = true /\
      (List.length (stdin w') < List.length (stdin w))%nat /\
      entropy_used w' = entropy_used w.
Proof.
  induction n as [|n IH]; intros w v w' H; [discriminate|].
  rewrite getUserNumber_step in H.
  destruct (stdin w) as [|line rest] eqn:Ein; [discriminate|]. cbv zeta in H.
  assert (Hmenu : forallb (fun e => negb (is_reveal e)) (number_menu min max) = true).
  { unfold number_menu. cbn [forallb]. rewrite forallb_app. cbn.
    rewrite andb_true_r. apply forallb_forall. intros e Hin.
    apply in_map_iff in Hin. now destruct Hin as (i & <- & _). }
  assert (Hhere : forall v0,
             Done v0 (answered (writes w (number_menu min max)) "Your selection: " rest)
             = Done v w' ->
             exists evs,
               stdout w' = (stdout w ++ evs ++ [Prompt "Your selection: "])%list /\
               forallb (fun e => negb (is_reveal e)) evs = true /\
               (List.length (stdin w') < List.length (line :: rest))%nat /\
               entropy_used w' = entropy_used w).
  { intros v0 E.
    assert (Ew : w' = answered (writes w (number_menu min max)) "Your selection: " rest)
      by congruence.
    rewrite Ew. exists (number_menu min max).
    cbn [answered stdout stdin entropy_used]. rewrite stdout_writes, <- app_assoc.
    split; [reflexivity|]. split; [exact Hmenu|]. split; [cbn; lia|].
    apply writes_untouched. }
  destruct (String.eqb (toUpperCase (trim line)) "X"); [now apply (Hhere VNull)|].
  destruct (String.eqb (trim line) "?"); [now apply (Hhere (VStr "?"))|].
  destruct (in_range min max (parseInt (trim line)));
    [now apply (Hhere (VNum (parseInt (trim line))))|].
  apply IH in H. destruct H as (evs & Hout & Hno & Hlen & Hent).
  exists (number_menu min max ++ [Prompt "Your selection: "; LogInvalidNumber min max]
          ++ evs)%list.
  split; [|split; [|split]].
  - rewrite Hout. cbn [write answered stdout]. rewrite stdout_writes.
    repeat rewrite <- app_assoc. reflexivity.
  - rewrite !forallb_app, Hmenu, Hno. reflexivity.
  - cbn [write answered stdin] in Hlen. cbn [List.length]. lia.
  - rewrite Hent. cbn [write answered entropy_used]. apply writes_untouched.
Qed.




Lemma dice_menu_no_table this excludeIndex :
  filter is_table (dice_menu this excludeIndex) = [].
Proof.
  unfold dice_menu. cbn [filter is_table]. rewrite filter_app. cbn [filter is_table app].
  rewrite app_nil_r.
  induction (filter _ (mapi _ (dice this))) as [|[i d] l IH]; [reflexivity | exact IH].
Qed.

Lemma userChooseDice_loop_retries this excludeIndex pre :
  forall n w rest,
    Forall (retried_selection this excludeIndex) pre ->
    stdin w = (pre ++ rest)%list ->
    exists w1,
      userChooseDice_loop this (List.length pre + n) excludeIndex w
      = userChooseDice_loop this n excludeIndex w1 /\
      stdin w1 = rest /\
      List.length (filter is_table (stdout w1))
      = (List.length (filter is_table (stdout w))
         + List.length (filter (fun l => String.eqb (trim l) "?") pre))%nat.
Proof.
  induction pre as [|line pre IH]; intros n w rest Hall E.
  - exists w. cbn. split; [reflexivity|]. split; [assumption | lia].
  - inversion Hall as [|? ? (HX & Hq) Hall']; subst.
    cbn [List.length Nat.add]. rewrite userChooseDice_step, E. cbn [app]. cbv zeta.
    rewrite HX. cbn [filter].
    set (w1 := answered (writes w (dice_menu this excludeIndex)) "Your selection: "
                        (pre ++ rest)%list).
    assert (Hw1 : filter is_table (stdout w1) = filter is_table (stdout w)).
    { subst w1. cbn [answered stdout]. rewrite stdout_writes, !filter_app.
      rewrite dice_menu_no_table. cbn [filter is_table]. now rewrite !app_nil_r. }
    destruct (String.eqb (trim line) "?") eqn:Eq.
    + destruct (IH n (write w1 (LogProbabilityTable
                                  (ProbabilityCalculator.calculateWinProbabilities (dice this))
                                  (dice this))) rest Hall' eq_refl)
        as (w2 & Hrun & Hin & Hcount).
      exists w2. split; [exact Hrun|]. split; [exact Hin|].
      rewrite Hcount. cbn [write stdout]. rewrite filter_app, Hw1, length_app.
      cbn [filter is_table List.length]. lia.
    + destruct Hq as [Hq|Hq]; [discriminate|]. rewrite Hq.
      destruct (IH n (write w1 LogInvalidDice) rest Hall' eq_refl)
        as (w2 & Hrun & Hin & Hcount).
      exists w2. split; [exact Hrun|]. split; [exact Hin|].
      rewrite Hcount. cbn [write stdout]. rewrite filter_app, Hw1, length_app.
      cbn [filter is_table List.length]. lia.
Qed.


Lemma userChooseDice_loop_no_throw this n excludeIndex :
  forall w e w', userChooseDice_loop this n excludeIndex w <> Throw e w'.
Proof.
  induction n as [|n IH]; intros w e w'; [discriminate|].
  rewrite userChooseDice_step.
  destruct (stdin w) as [|line rest]; [discriminate|]. cbv zeta.
  destruct (String.eqb (toUpperCase (trim line)) "X"); [discriminate|].
  destruct (String.eqb (trim line) "?"); [apply IH|].
  destruct (acceptable this excludeIndex (parseInt (trim line)));
    [discriminate | apply IH].
Qed.

End PromptFacts.





(** X12.  At the die selection a Help request works: after any run of
    entries that are Help requests or selections that are not accepted
    (not a number, out of range, or the excluded die), the prompt is still
    in the same state, so that typing an acceptable index returns it; and
    the probability table has been written exactly once per Help
    request. *)
Theorem selection_help_and_retries
    (this : DiceGame.t) (excludeIndex : value) (pre : list string) (fuel : nat)
    (w : world) (i : Z) (rest : list string) :
  Forall (retried_selection this excludeIndex) pre ->
  acceptable this excludeIndex (Int i) = true ->
  stdin w = (pre ++ number_to_string i :: rest)%list ->
  exists w',
    DiceGame.userChooseDice (List.length pre + S fuel) this excludeIndex w
    = Done (VNum (Int i)) w' /\
    stdin w' = rest /\
    List.length (filter is_table (stdout w'))
    = (List.length (filter is_table (stdout w))
       + List.length (filter (fun l => String.eqb (trim l) "?") pre))%nat.
Proof.
  intros Hpre Hacc E. unfold DiceGame.userChooseDice.
  destruct (PromptFacts.userChooseDice_loop_retries this excludeIndex pre (S fuel) w _ Hpre E)
    as (w1 & Hrun & Hin & Hcount).
  rewrite Hrun, PromptFacts.userChooseDice_step, Hin. cbv zeta.
  destruct (TextFacts.number_enters_number i) as (HX & Hq & Hp).
  rewrite HX, Hq, Hp, Hacc.
  eexists. split; [reflexivity|]. split; [reflexivity|].
  rewrite <- Hcount. cbn [write answered stdout]. rewrite PromptFacts.stdout_writes.
  rewrite !filter_app, !length_app, PromptFacts.dice_menu_no_table. cbn. lia.
Qed.

Lemma selection_help_and_retries_witness :
  exists w',
    DiceGame.userChooseDice (3 + 1) sample_game (VNum (Int 1))
      (initial_world [] [] ["?"; "1"; "7"; "2"; "x"])
    = Done (VNum (Int 2)) w' /\
    stdin w' = ["x"] /\
    List.length (filter is_table (stdout w')) = (0 + 1)%nat.
Proof.
  apply (selection_help_and_retries sample_game (VNum (Int 1)) ["?"; "1"; "7"] 0
           (initial_world [] [] ["?"; "1"; "7"; "2"; "x"]) 2 ["x"]).
  - repeat constructor; (left; reflexivity) || (right; reflexivity).
  - reflexivity.
  - reflexivity.
Defined.



(* ===================================================================== *)
(** ** Further properties: what an exchange writes and returns *)
(* ===================================================================== *)

Module RoundFacts.
Import SecureRandomGenerator DiceGame.

Lemma draw_loop_silent n range count :
  forall w v w',
    draw_loop n range count w = Done v w' ->
    stdout w' = stdout w /\ stdin w' = stdin w.
Proof.
  induction n as [|n IH]; intros w v w' H; [discriminate|].
  rewrite DrawFacts.draw_loop_step in H. cbv zeta in H.
  destruct (_ >? _).
  - apply IH in H. cbn [stdout stdin] in H. exact H.
  - inversion H; subst. split; reflexivity.
Qed.

Lemma generateUniformRandom_silent fuel min max key w v w' :
  generateUniformRandom fuel min max key w = Done v w' ->
  stdout w' = stdout w /\ stdin w' = stdin w.
Proof.
  unfold generateUniformRandom. destruct (_ <=? 0); [discriminate|].
  unfold bind.
  destruct (draw_loop fuel (max - min + 1) (bytesNeeded (max - min + 1)) w)
    as [rv w1| | |] eqn:E; try discriminate.
  intros H. inversion H; subst. eapply draw_loop_silent; eauto.
Qed.

Lemma strict_eq_null v : strict_eq v VNull = true -> v = VNull.
Proof. destruct v as [[z|]|s|b| |]; cbn; congruence. Qed.

Lemma js_add_not_null a b : js_add a b <> VNull.
Proof. unfold js_add. destruct (is_string a || is_string b); discriminate. Qed.

(** The pieces of a finished exchange: the key, the computer's number,
    the world in which the user was asked, and the user's answer. *)
Lemma fairRandomGeneration_inv fuel min max purpose w v w' :
  fairRandomGeneration fuel min max purpose w = Done v w' ->
  exists key c w1 u w2,
    List.length key = 32%nat /\
    generateUniformRandom fuel min max key
      (mkWorld (entropy w) (entropy_used w + 32) (uniform w) (uniform_used w)
               (stdin w) (stdout w ++ [LogGenerating purpose])%list (rl_closed w))
    = Done c w1 /\
    getUserNumber fuel min max
      (write w1 (LogCommitment min max (HmacSha256 key (number_to_string c))))
    = Done u w2 /\
    ((u = VNull /\ v = VNull /\ w' = w2) \/
     (u <> VNull /\
      v = js_add (js_rem (js_add (VNum (Int c)) u) (VNum (Int (max - min + 1))))
                 (VNum (Int min)) /\
      w' = write (write w2 (LogReveal c key))
                 (LogFairResult c u v (max - min + 1)))).
Proof.
  unfold fairRandomGeneration. unfold bind at 1 2.
  cbn [console_log generateSecureKey randomBytes write entropy entropy_used uniform
       uniform_used stdin stdout rl_closed].
  set (key := map _ (seq (entropy_used w) 32)).
  unfold bind at 1.
  destruct (generateUniformRandom fuel min max key _) as [c w1| | |] eqn:Eg;
    try discriminate.
  cbv zeta. unfold bind at 1. cbn [console_log]. unfold bind at 1.
  unfold calculateHMAC. cbn [to_string].
  destruct (getUserNumber fuel min max _) as [u w2| | |] eqn:Eu; try discriminate.
  intros H. exists key, c, w1, u, w2.
  split; [subst key; now rewrite length_map, length_seq|].
  split; [exact Eg|]. split; [exact Eu|].
  destruct (strict_eq u VNull) eqn:Es.
  - apply strict_eq_null in Es. inversion H; subst. now left.
  - right. unfold bind, console_log, ret in H. inversion H; subst.
    split; [intros ->; discriminate|]. split; reflexivity.
Qed.

Lemma fairRandomGeneration_returns fuel min max purpose :
  0 <= min -> max - min + 1 <= 2 ^ 24 ->
  Returns (fun v => v = VNull \/ v = VNum NaN \/
                    exists r, v = VNum (Int r) /\ min <= r <= max)
          (fairRandomGeneration fuel min max purpose).
Proof.
  intros Hmin Hsmall w v w' H.
  apply fairRandomGeneration_inv in H.
  destruct H as (key & c & w1 & u & w2 & _ & Eg & Eu & Hcase).
  destruct Hcase as [(_ & -> & _) | (Hu & -> & _)]; [now left|].
  right.
  assert (Hmm : min <= max).
  { unfold generateUniformRandom in Eg.
    destruct (Z.leb_spec (max - min + 1) 0); [discriminate | lia]. }
  apply DrawFacts.generateUniformRandom_in_range in Eg; [|assumption|assumption].
  apply PromptFacts.getUserNumber_loop_returns in Eu.
  destruct Eu as [-> | [-> | (x & -> & Hx)]]; [contradiction| |].
  - left. apply HelpFacts.combine_with_help.
  - right. rewrite ExchangeFacts.combine_numbers by lia.
    rewrite Z.rem_mod_nonneg by lia.
    pose proof (Z.mod_pos_bound (c + x) (max - min + 1) ltac:(lia)).
    eexists. split; [reflexivity | lia].
Qed.

Lemma rollDice_loop_returns fuel this n d playerName :
  Dice.getFaceCount d <= 2 ^ 24 ->
  Returns (fun v => v = VNull \/ v = VUndefined \/
                    exists f, v = VNum (Int f) /\ In f (Dice.faces d))
          (rollDice_loop fuel this n d playerName).
Proof.
  intros Hsmall. induction n as [|n IH]; intros w v w' H; [discriminate|].
  cbn [rollDice_loop] in H. unfold bind at 1 in H.
  destruct (fairRandomGeneration fuel 0 (Dice.getFaceCount d - 1) _ w)
    as [faceIndex w1| | |] eqn:E; try discriminate.
  apply fairRandomGeneration_returns in E; [|lia|lia].
  destruct E as [-> | [-> | (r & -> & Hr)]].
  - inversion H. now left.
  - cbn in H. inversion H. right; now left.
  - cbn [strict_eq] in H. unfold bind, console_log, ret in H. inversion H.
    right; right. unfold Dice.getValue, Dice.getFaceCount, array_get in *.
    destruct (Z.leb_spec 0 r); [|lia].
    destruct (Z.ltb_spec r (Z.of_nat (List.length (Dice.faces d)))); [|lia].
    cbn [andb]. eexists. split; [reflexivity|]. apply nth_In. lia.
Qed.

End RoundFacts.

(** X14.  An exchange reveals what it committed to, and only after the
    user has answered: the line with the HMAC of the computer's number
    under the 32-byte key is written before anything is asked; nothing
    written up to and including the last prompt reveals a key; when the
    user exits nothing is revealed at all; otherwise the exchange ends by
    writing that same number and that same key, then the result line. *)
Theorem exchange_reveals_what_it_committed
    (fuel : nat) (min max : Z) (purpose : string) (w : world) (v : value) (w' : world) :
  SecureRandomGenerator.fairRandomGeneration fuel min max purpose w = Done v w' ->
  exists c key mid,
    List.length key = 32%nat /\
    forallb (fun e => negb (is_reveal e)) mid = true /\
    ((v = VNull /\
      stdout w'
      = (stdout w
         ++ LogGenerating purpose
         :: LogCommitment min max (HmacSha256 key (number_to_string c))
         :: mid ++ [Prompt "Your selection: "])%list) \/
     (v <> VNull /\
      exists u,
        stdout w'
        = (stdout w
           ++ LogGenerating purpose
           :: LogCommitment min max (HmacSha256 key (number_to_string c))
           :: mid
           ++ [Prompt "Your selection: "; LogReveal c key;
               LogFairResult c u v (max - min + 1)])%list)).
Proof.
  intros H. apply RoundFacts.fairRandomGeneration_inv in H.
  destruct H as (key & c & w1 & u & w2 & Hkey & Eg & Eu & Hcase).
  apply RoundFacts.generateUniformRandom_silent in Eg. destruct Eg as [Hout1 _].
  apply PromptFacts.getUserNumber_loop_trace in Eu.
  destruct Eu as (mid & Hout2 & Hmid & _ & _).
  cbn [write stdout] in Hout2. rewrite Hout1 in Hout2. cbn [stdout] in Hout2.
  exists c, key, mid. split; [exact Hkey|]. split; [exact Hmid|].
  destruct Hcase as [(_ & -> & ->) | (Hu & Hv & ->)].
  - left. split; [reflexivity|]. rewrite Hout2. repeat rewrite <- app_assoc. reflexivity.
  - right. split; [rewrite Hv; apply RoundFacts.js_add_not_null|].
    exists u. cbn [write stdout]. rewrite Hout2.
    repeat rewrite <- app_assoc. reflexivity.
Qed.

Lemma exchange_reveals_what_it_committed_witness :
  exists c key mid,
    List.length key = 32%nat /\
    forallb (fun e => negb (is_reveal e)) mid = true /\
    ((VNum (Int 1) = VNull /\
      stdout sample_round_end
      = (stdout (initial_world [] [] ["1"])
         ++ LogGenerating "roll"
         :: LogCommitment 0 1 (HmacSha256 key (number_to_string c))
         :: mid ++ [Prompt "Your selection: "])%list) \/
     (VNum (Int 1) <> VNull /\
      exists u,
        stdout sample_round_end
        = (stdout (initial_world [] [] ["1"])
           ++ LogGenerating "roll"
           :: LogCommitment 0 1 (HmacSha256 key (number_to_string c))
           :: mid
           ++ [Prompt "Your selection: "; LogReveal c key;
               LogFairResult c u (VNum (Int 1)) (1 - 0 + 1)])%list)).
Proof.
  apply (exchange_reveals_what_it_committed 1 0 1 "roll"
           (initial_world [] [] ["1"]) (VNum (Int 1)) sample_round_end).
  vm_compute. reflexivity.
Defined.

(** X15.  For a range [min,max] with [min >= 0] and at most 2^24
    values, an exchange returns [null] (the user exited), [NaN] (the user
    asked for help) or an integer of [min..max], never anything else. *)
Theorem exchange_results (fuel : nat) (min max : Z) (purpose : string)
    (w : world) (v : value) (w' : world) :
  0 <= min -> max - min + 1 <= 2 ^ 24 ->
  SecureRandomGenerator.fairRandomGeneration fuel min max purpose w = Done v w' ->
  v = VNull \/ v = VNum NaN \/ exists r, v = VNum (Int r) /\ min <= r <= max.
Proof.
  intros Hmin Hsmall H.
  eapply (RoundFacts.fairRandomGeneration_returns fuel min max purpose Hmin Hsmall); eauto.
Qed.

Lemma exchange_results_witness :
  VNum (Int 5) = VNull \/ VNum (Int 5) = VNum NaN \/
  exists r, VNum (Int 5) = VNum (Int r) /\ 0 <= r <= 5.
Proof.
  pose proof (exchange_results 1 0 5 "roll" (initial_world (repeat 0 32 ++ [8]) [] ["3"])
                (VNum (Int 5))) as H.
  remember (SecureRandomGenerator.fairRandomGeneration 1 0 5 "roll"
              (initial_world (repeat 0 32 ++ [8]) [] ["3"])) as r eqn:E.
  vm_compute in E. subst r.
  apply (H _ ltac:(lia) ltac:(simpl; lia) eq_refl).
Defined.

(** X16.  A roll of a die with at most 2^24 faces is [null] (the user
    exited), [undefined] (the user asked for help) or one of the faces of
    that die, never another number. *)
Theorem roll_is_a_face_of_the_die
    (fuel : nat) (this : DiceGame.t) (d : Dice.t) (playerName : string)
    (w : world) (v : value) (w' : world) :
  Dice.getFaceCount d <= 2 ^ 24 ->
  DiceGame.rollDice fuel this (Some d) playerName w = Done v w' ->
  v = VNull \/ v = VUndefined \/ exists f, v = VNum (Int f) /\ In f (Dice.faces d).
Proof.
  intros Hsmall H. unfold DiceGame.rollDice, bind at 1 in H. cbn [console_log] in H.
  eapply (RoundFacts.rollDice_loop_returns fuel this fuel d playerName Hsmall); eauto.
Qed.

Lemma roll_is_a_face_of_the_die_witness :
  VNum (Int 6) = VNull \/ VNum (Int 6) = VUndefined \/
  exists f, VNum (Int 6) = VNum (Int f) /\ In f (Dice.faces die_B).
Proof.
  pose proof (roll_is_a_face_of_the_die 1 sample_game die_B "my"
                (initial_world [] [] ["2"]) (VNum (Int 6))) as H.
  remember (DiceGame.rollDice 1 sample_game (Some die_B) "my"
              (initial_world [] [] ["2"])) as r eqn:E.
  vm_compute in E. subst r.
  apply (H _ ltac:(vm_compute; discriminate) eq_refl).
Defined.

(* ===================================================================== *)
(** ** Further properties: dice, selection, probabilities, verdict *)
(* ===================================================================== *)

Module MoreGameFacts.
Import SecureRandomGenerator DiceGame ProbabilityCalculator.

Lemma random_index_in_bounds r m :
  0 <= r < 2 ^ 53 -> 0 < m -> 0 <= r * m / 2 ^ 53 < m.
Proof.
  intros Hr Hm. split.
  - apply Z.div_pos; nia.
  - apply Z.div_lt_upper_bound; nia.
Qed.

Lemma filter_row_length (f : Z -> Z -> bool) (a : Z) (l2 : list Z) :
  List.length (filter (fun '(a, b) => f a b) (map (pair a) l2))
  = List.length (filter (f a) l2).
Proof.
  induction l2 as [|b l2 IH]; simpl; [reflexivity|].
  destruct (f a b); simpl; congruence.
Qed.

Lemma count_pairs_cons_l f a l1 l2 :
  count_pairs f (a :: l1) l2
  = Z.of_nat (List.length (filter (f a) l2)) + count_pairs f l1 l2.
Proof. reflexivity. Qed.

Lemma count_pairs_prod f l1 l2 :
  Z.of_nat (List.length (filter (fun '(a, b) => f a b) (list_prod l1 l2)))
  = count_pairs f l1 l2.
Proof.
  induction l1 as [|a l1 IH]; [reflexivity|].
  rewrite count_pairs_cons_l. cbn [list_prod].
  rewrite filter_app, length_app, Nat2Z.inj_add.
  now rewrite IH, filter_row_length.
Qed.

Lemma count_pairs_nil_r f l1 : count_pairs f l1 [] = 0.
Proof.
  induction l1 as [|a l1 IH]; [reflexivity|].
  rewrite count_pairs_cons_l, IH. reflexivity.
Qed.

Lemma count_pairs_cons_r f l1 b l2 :
  count_pairs f l1 (b :: l2)
  = Z.of_nat (List.length (filter (fun a => f a b) l1)) + count_pairs f l1 l2.
Proof.
  induction l1 as [|a l1 IH]; [reflexivity|].
  rewrite !count_pairs_cons_l, IH. cbn [filter].
  destruct (f a b); cbn [List.length]; lia.
Qed.

(** Counting row by row or column by column gives the same number. *)
Lemma count_pairs_swap f l1 l2 :
  count_pairs f l1 l2 = count_pairs (fun b a => f a b) l2 l1.
Proof.
  induction l1 as [|a l1 IH].
  - cbn. now rewrite count_pairs_nil_r.
  - rewrite count_pairs_cons_r, count_pairs_cons_l. now rewrite IH.
Qed.

Lemma filter_disjoint_length {A} (p q : A -> bool) (l : list A) :
  (forall x, p x = true -> q x = false) ->
  (List.length (filter p l) + List.length (filter q l) <= List.length l)%nat.
Proof.
  intros Hpq. induction l as [|x l IH]; [cbn; lia|].
  cbn [filter]. destruct (p x) eqn:Ep.
  - rewrite (Hpq x Ep). cbn [List.length]. lia.
  - destruct (q x); cbn [List.length]; lia.
Qed.

Lemma count_pairs_bounds f l1 l2 :
  0 <= count_pairs f l1 l2 <= Z.of_nat (List.length l1) * Z.of_nat (List.length l2).
Proof.
  induction l1 as [|a l1 IH]; [cbn; lia|].
  rewrite count_pairs_cons_l.
  pose proof (filter_length_le (f a) l2). cbn [List.length]. lia.
Qed.

Lemma count_pairs_disjoint f g l1 l2 :
  (forall a b, f a b = true -> g a b = false) ->
  count_pairs f l1 l2 + count_pairs g l1 l2
  <= Z.of_nat (List.length l1) * Z.of_nat (List.length l2).
Proof.
  intros Hfg. induction l1 as [|a l1 IH]; [cbn; lia|].
  rewrite !count_pairs_cons_l.
  pose proof (filter_disjoint_length (f a) (g a) l2 (Hfg a)). cbn [List.length]. lia.
Qed.

(** The number the loops of [calculatePairProbability] divide. *)
Lemma calculatePairProbability_count dice1 dice2 :
  calculatePairProbability dice1 dice2
  = js_div (count_pairs Z.gtb (Dice.faces dice1) (Dice.faces dice2))
           (Z.of_nat (List.length (Dice.faces dice1))
            * Z.of_nat (List.length (Dice.faces dice2))).
Proof.
  rewrite ProbabilityFacts.calculatePairProbability_spec.
  unfold pairwiseWinProbability_spec, Dice.getFaceCount.
  now rewrite (count_pairs_prod Z.gtb).
Qed.

Lemma js_div_positive a b :
  0 < b -> js_div a b = Finite (Qmake a (Z.to_pos b)).
Proof.
  intros Hb. unfold js_div. destruct (Z.eqb_spec b 0); [lia|].
  destruct (Z.ltb_spec 0 b); [reflexivity | lia].
Qed.

Lemma js_gt_asym a b : js_gt a b = true -> js_gt b a = false.
Proof.
  assert (Hnum : forall x y, num_gt x y = true -> num_gt y x = false).
  { intros [x|] [y|]; cbn; try discriminate. intros H.
    rewrite Z.gtb_ltb in H. apply Z.ltb_lt in H.
    destruct (Z.gtb_spec y x); [lia | reflexivity]. }
  destruct a as [n|s|b0| |], b as [m|t|b1| |]; cbn [js_gt]; try apply Hnum.
  rewrite (String.compare_antisym t s).
  destruct (String.compare s t); cbn; congruence.
Qed.

Lemma strict_eq_not_null v : v <> VNull -> strict_eq v VNull = false.
Proof. destruct v as [[z|]|s|b| |]; cbn; congruence. Qed.

End MoreGameFacts.

(** X17.  The computer's choice needs an available die: when the filter
    leaves no die (no dice at all, or a single die that is excluded),
    [computerChooseDice] writes its line with [undefined] and throws a
    TypeError; otherwise it always succeeds, returning the index of one of
    the available dice, and it uses exactly one [Math.random] outcome, no
    secure random byte and no input. *)
Theorem computer_choice_needs_an_available_die
    (this : DiceGame.t) (excludeIndex : value) (w : world) :
  let available :=
    filteri (fun i => negb (strict_eq (VNum (Int i)) excludeIndex)) (DiceGame.dice this) in
  (available = [] ->
   exists w',
     DiceGame.computerChooseDice this excludeIndex w = Throw TypeError w' /\
     stdout w' = (stdout w ++ [LogComputerChoice None])%list) /\
  (available <> [] ->
   exists d w',
     In d available /\
     DiceGame.computerChooseDice this excludeIndex w
     = Done (VNum (Int (Dice.index d))) w' /\
     stdout w' = (stdout w ++ [LogComputerChoice (Some d)])%list /\
     stdin w' = stdin w /\ entropy_used w' = entropy_used w /\
     uniform_used w' = S (uniform_used w)).
Proof.
  intros available. unfold DiceGame.computerChooseDice, bind, math_random, console_log.
  cbv zeta. fold available. split.
  - intros ->. cbn [List.length Z.of_nat]. rewrite Z.mul_0_r. cbn.
    eexists. split; reflexivity.
  - intros Hne.
    set (r := uniform w (uniform_used w) mod 2 ^ 53).
    assert (Hr : 0 <= r < 2 ^ 53) by (apply Z.mod_pos_bound; lia).
    assert (Hm : 0 < Z.of_nat (List.length available))
      by (destruct available; [contradiction | cbn [List.length]; lia]).
    pose proof (MoreGameFacts.random_index_in_bounds r _ Hr Hm) as Hidx.
    unfold index_get. destruct (Z.ltb_spec (r * Z.of_nat (List.length available) / 2 ^ 53) 0);
      [lia|].
    destruct (nth_error available
                (Z.to_nat (r * Z.of_nat (List.length available) / 2 ^ 53)))
      as [d|] eqn:Ed.
    + exists d. eexists. split; [eapply nth_error_In; eauto|].
      split; [reflexivity|]. repeat split.
    + apply nth_error_None in Ed. lia.
Qed.

Lemma computer_choice_needs_an_available_die_witness :
  exists w',
    DiceGame.computerChooseDice (DiceGame.new [[1; 2; 3; 4; 5; 6]]) (VNum (Int 0))
      (initial_world [] [] [])
    = Throw TypeError w' /\
    stdout w' = (stdout (initial_world [] [] []) ++ [LogComputerChoice None])%list.
Proof.
  apply (proj1 (computer_choice_needs_an_available_die
                  (DiceGame.new [[1; 2; 3; 4; 5; 6]]) (VNum (Int 0))
                  (initial_world [] [] []))).
  reflexivity.
Defined.

(** X18.  The two win probabilities of a pair of dice are consistent:
    when both dice have faces, P(A beats B) and P(B beats A) are fractions
    between 0 and 1 whose sum is at most 1 (the rest being the ties); when
    one of the dice has no face the result is NaN (0/0). *)
Theorem pair_probabilities_are_consistent (dieA dieB : Dice.t) :
  (Dice.faces dieA <> [] -> Dice.faces dieB <> [] ->
   exists p q,
     ProbabilityCalculator.calculatePairProbability dieA dieB = Finite p /\
     ProbabilityCalculator.calculatePairProbability dieB dieA = Finite q /\
     (0 <= p)%Q /\ (0 <= q)%Q /\ (p + q <= 1)%Q) /\
  (Dice.faces dieA = [] \/ Dice.faces dieB = [] ->
   ProbabilityCalculator.calculatePairProbability dieA dieB = NotANumber).
Proof.
  rewrite !MoreGameFacts.calculatePairProbability_count.
  set (A := Dice.faces dieA). set (B := Dice.faces dieB). split.
  - intros HA HB.
    assert (HlA : 0 < Z.of_nat (List.length A)) by (destruct A; [contradiction | cbn; lia]).
    assert (HlB : 0 < Z.of_nat (List.length B)) by (destruct B; [contradiction | cbn; lia]).
    set (T := Z.of_nat (List.length A) * Z.of_nat (List.length B)).
    assert (HT : 0 < T) by (subst T; nia).
    replace (Z.of_nat (List.length B) * Z.of_nat (List.length A)) with T by (subst T; lia).
    rewrite !MoreGameFacts.js_div_positive by assumption.
    eexists _, _. split; [reflexivity|]. split; [reflexivity|].
    pose proof (MoreGameFacts.count_pairs_bounds Z.gtb A B) as Hab.
    pose proof (MoreGameFacts.count_pairs_bounds Z.gtb B A) as Hba.
    assert (Hsum : count_pairs Z.gtb A B + count_pairs Z.gtb B A <= T).
    { rewrite (MoreGameFacts.count_pairs_swap Z.gtb B A).
      apply MoreGameFacts.count_pairs_disjoint. intros a b H.
      rewrite Z.gtb_ltb in H. apply Z.ltb_lt in H.
      destruct (Z.gtb_spec b a); [lia | reflexivity]. }
    unfold Qle, Qplus. cbn [Qnum Qden]. rewrite Pos2Z.inj_mul, !Z2Pos.id by assumption.
    repeat split; nia.
  - intros [H|H]; rewrite H; [reflexivity|].
    rewrite MoreGameFacts.count_pairs_nil_r. cbn [List.length Z.of_nat].
    now rewrite Z.mul_0_r.
Qed.

Lemma pair_probabilities_are_consistent_witness :
  exists p q,
    ProbabilityCalculator.calculatePairProbability die_A die_C = Finite p /\
    ProbabilityCalculator.calculatePairProbability die_C die_A = Finite q /\
    (0 <= p)%Q /\ (0 <= q)%Q /\ (p + q <= 1)%Q.
Proof.
  apply (proj1 (pair_probabilities_are_consistent die_A die_C)); discriminate.
Defined.

(** X19.  The probability matrix is square, one row and one column per
    die; and when every die has at least one face each of its entries is
    a fraction between 0 and 1. *)
Theorem probability_matrix_is_square (dice : list Dice.t) :
  List.length (ProbabilityCalculator.calculateWinProbabilities dice) = List.length dice /\
  Forall (fun row => List.length row = List.length dice)
         (ProbabilityCalculator.calculateWinProbabilities dice) /\
  (Forall (fun d => Dice.faces d <> []) dice ->
   forall i j x,
     matrix_entry (ProbabilityCalculator.calculateWinProbabilities dice) i j = Some x ->
     exists q, x = Finite q /\ (0 <= q)%Q /\ (q <= 1)%Q).
Proof.
  unfold ProbabilityCalculator.calculateWinProbabilities. split; [|split].
  - unfold mapi. apply SelectionFacts.length_mapi_from.
  - apply Forall_forall. intros row Hin. apply In_nth_error in Hin.
    destruct Hin as [i Hi]. rewrite ProbabilityFacts.nth_error_mapi in Hi.
    destruct (nth_error dice i); [|discriminate]. inversion Hi.
    unfold mapi. apply SelectionFacts.length_mapi_from.
  - intros Hfaces i j x. unfold matrix_entry.
    rewrite ProbabilityFacts.nth_error_mapi.
    destruct (nth_error dice i) as [di|] eqn:Ei; [|discriminate]. cbn [option_map].
    rewrite ProbabilityFacts.nth_error_mapi.
    destruct (nth_error dice j) as [dj|] eqn:Ej; [|discriminate]. cbn [option_map].
    intros H. inversion H as [Hx]. clear H Hx.
    destruct (Z.of_nat i =? Z.of_nat j).
    + exists (1 # 2)%Q. split; [reflexivity|]. split; discriminate.
    + rewrite Forall_forall in Hfaces.
      pose proof (Hfaces di (nth_error_In _ _ Ei)) as Hdi.
      pose proof (Hfaces dj (nth_error_In _ _ Ej)) as Hdj.
      rewrite MoreGameFacts.calculatePairProbability_count.
      set (A := Dice.faces di) in *. set (B := Dice.faces dj) in *.
      assert (HlA : 0 < Z.of_nat (List.length A)) by (destruct A; [contradiction | cbn; lia]).
      assert (HlB : 0 < Z.of_nat (List.length B)) by (destruct B; [contradiction | cbn; lia]).
      rewrite MoreGameFacts.js_div_positive by nia.
      eexists. split; [reflexivity|].
      pose proof (MoreGameFacts.count_pairs_bounds Z.gtb A B).
      unfold Qle. cbn [Qnum Qden]. rewrite Z2Pos.id by nia. split; lia.
Qed.

Lemma probability_matrix_is_square_witness :
  exists q,
    Finite (16 # 36) = Finite q /\ (0 <= q)%Q /\ (q <= 1)%Q.
Proof.
  apply (proj2 (proj2 (probability_matrix_is_square [die_A; die_B; die_C]))
           ltac:(repeat constructor; discriminate) 0%nat 2%nat).
  reflexivity.
Defined.

(** X20.  The verdict depends only on the two rolls, not on who rolled
    first: once both rolls are in, [playGame] writes 'I win' when the
    computer's roll is greater, 'You win' when the user's is, and a tie
    otherwise, as its last line; in particular an undefined roll always
    gives a tie. *)
Theorem verdict_depends_only_on_the_rolls
    (fuel : nat) (this : DiceGame.t) (computerFirst first second : value)
    (name1 name2 : string) (w w1 w2 : world) (r1 r2 : value) :
  DiceGame.rollDice fuel this (DiceGame.dice_get (DiceGame.dice this) first) name1 w
  = Done r1 w1 ->
  r1 <> VNull ->
  DiceGame.rollDice fuel this (DiceGame.dice_get (DiceGame.dice this) second) name2 w1
  = Done r2 w2 ->
  r2 <> VNull ->
  DiceGame.play_from_selection fuel this computerFirst first second name1 name2 w
  = Done tt (write w2 (if DiceGame.truthy computerFirst
                       then verdict r1 r2 r1 r2
                       else verdict r2 r1 r1 r2)) /\
  (r1 = VUndefined \/ r2 = VUndefined ->
   verdict r1 r2 r1 r2 = LogTie r1 r2 /\ verdict r2 r1 r1 r2 = LogTie r1 r2).
Proof.
  intros H1 Hn1 H2 Hn2. split.
  - unfold DiceGame.play_from_selection. cbv zeta.
    unfold bind at 1. rewrite H1, (MoreGameFacts.strict_eq_not_null r1 Hn1).
    unfold bind at 1. rewrite H2, (MoreGameFacts.strict_eq_not_null r2 Hn2).
    unfold verdict.
    destruct (DiceGame.truthy computerFirst);
      destruct (js_gt r1 r2) eqn:E12; destruct (js_gt r2 r1) eqn:E21;
      try reflexivity;
      apply MoreGameFacts.js_gt_asym in E12; congruence.
  - assert (Hu : forall v, js_gt VUndefined v = false /\ js_gt v VUndefined = false).
    { intros v. split; [reflexivity|].
      destruct v as [[z|]|s|b| |]; try reflexivity.
      - cbn. destruct (string_to_number s); reflexivity.
      - destruct b; reflexivity. }
    unfold verdict.
    destruct (Hu r1) as [Ha Hb]. destruct (Hu r2) as [Hc Hd].
    intros [E | E]; rewrite E in *; rewrite ?Ha, ?Hb, ?Hc, ?Hd; split; reflexivity.
Qed.

Lemma verdict_depends_only_on_the_rolls_witness :
  DiceGame.play_from_selection 1 sample_game (VBool false) (VNum (Int 1)) (VNum (Int 0))
    "your" "my" (initial_world [] [] ["2"; "3"])
  = Done tt (write sample_second_roll_end (LogYouWin (VNum (Int 6)) (VNum (Int 4)))).
Proof.
  apply (proj1 (verdict_depends_only_on_the_rolls
                  1 sample_game (VBool false) (VNum (Int 1)) (VNum (Int 0))
                  "your" "my" (initial_world [] [] ["2"; "3"])
                  sample_first_roll_end sample_second_roll_end
                  (VNum (Int 6)) (VNum (Int 4))
                  ltac:(vm_compute; reflexivity) ltac:(discriminate)
                  ltac:(vm_compute; reflexivity) ltac:(discriminate))).
Defined.

(** X21.  A new game keeps the dice as given: it has one die per
    configuration, the die at position [i] has the faces of configuration
    [i] and carries [i] as its index, so that looking the dice up by a
    die's index gives that die back; and a face index within bounds reads
    the face at that position. *)
Theorem new_game_keeps_the_dice (configs : list (list Z)) :
  List.length (DiceGame.dice (DiceGame.new configs)) = List.length configs /\
  (forall i config,
      nth_error configs i = Some config ->
      exists d,
        nth_error (DiceGame.dice (DiceGame.new configs)) i = Some d /\
        Dice.faces d = config /\
        Dice.index d = Z.of_nat i /\
        DiceGame.dice_get (DiceGame.dice (DiceGame.new configs)) (VNum (Int (Dice.index d)))
        = Some d /\
        Dice.getFaceCount d = Z.of_nat (List.length config) /\
        forall k, 0 <= k < Z.of_nat (List.length config) ->
                  Dice.getValue d (VNum (Int k)) = VNum (Int (nth (Z.to_nat k) config 0))).
Proof.
  split; [apply SelectionFacts.dice_length|].
  intros i config Hi.
  assert (Hd : nth_error (DiceGame.dice (DiceGame.new configs)) i
               = Some (Dice.new config (Z.of_nat i))).
  { unfold DiceGame.new. cbn [DiceGame.dice].
    now rewrite ProbabilityFacts.nth_error_mapi, Hi. }
  exists (Dice.new config (Z.of_nat i)).
  split; [exact Hd|]. split; [reflexivity|]. split; [reflexivity|]. split; [|split].
  - cbn [Dice.index Dice.new DiceGame.dice_get]. unfold index_get.
    destruct (Z.ltb_spec (Z.of_nat i) 0); [lia|]. now rewrite Nat2Z.id.
  - reflexivity.
  - intros k Hk. unfold Dice.getValue, array_get. cbn [Dice.faces Dice.new].
    destruct (Z.leb_spec 0 k); [|lia].
    destruct (Z.ltb_spec k (Z.of_nat (List.length config))); [reflexivity | lia].
Qed.

Lemma new_game_keeps_the_dice_witness :
  exists d,
    nth_error (DiceGame.dice (DiceGame.new sample_configs)) 1 = Some d /\
    Dice.faces d = [1; 1; 6; 6; 8; 8] /\
    Dice.index d = Z.of_nat 1 /\
    DiceGame.dice_get (DiceGame.dice (DiceGame.new sample_configs))
                      (VNum (Int (Dice.index d)))
    = Some d /\
    Dice.getFaceCount d = Z.of_nat (List.length [1; 1; 6; 6; 8; 8]) /\
    forall k, 0 <= k < Z.of_nat (List.length [1; 1; 6; 6; 8; 8]) ->
              Dice.getValue d (VNum (Int k))
              = VNum (Int (nth (Z.to_nat k) [1; 1; 6; 6; 8; 8] 0)).
Proof.
  apply (proj2 (new_game_keeps_the_dice sample_configs) 1%nat [1; 1; 6; 6; 8; 8]).
  reflexivity.
Defined.

Module FlowFacts.
Import SecureRandomGenerator DiceGame.

Lemma draw_loop_entropy n range count :
  forall w v w',
    draw_loop n range count w = Done v w' ->
    (entropy_used w + count <= entropy_used w')%nat.
Proof.
  induction n as [|n IH]; intros w v w' H; [discriminate|].
  rewrite DrawFacts.draw_loop_step in H. cbv zeta in H.
  destruct (_ >? _).
  - apply IH in H. cbn [entropy_used] in H. lia.
  - inversion H; subst. cbn [entropy_used]. lia.
Qed.

Lemma generateUniformRandom_entropy fuel min max key w v w' :
  generateUniformRandom fuel min max key w = Done v w' ->
  (entropy_used w + bytesNeeded (max - min + 1) <= entropy_used w')%nat.
Proof.
  unfold generateUniformRandom. destruct (_ <=? 0); [discriminate|].
  unfold bind.
  destruct (draw_loop fuel (max - min + 1) (bytesNeeded (max - min + 1)) w)
    as [rv w1| | |] eqn:E; try discriminate.
  intros H. inversion H; subst. eapply draw_loop_entropy; eauto.
Qed.

(** What [play_from_selection] leaves on the output: nothing that
    adjudicates, or one verdict as the very last line. *)
Lemma play_from_selection_verdict fuel this computerFirst first second name1 name2 w w' :
  play_from_selection fuel this computerFirst first second name1 name2 w = Done tt w' ->
  no_adjudication w ->
  no_adjudication w' \/
  exists w2 e, is_adjudication e = true /\ no_adjudication w2 /\ w' = write w2 e.
Proof.
  unfold play_from_selection. cbv zeta. intros H Hq.
  unfold bind at 1 in H.
  destruct (rollDice fuel this (dice_get (dice this) first) name1 w)
    as [r1 wa| | |] eqn:E1; try discriminate.
  apply GameFacts.Framed_rollDice in E1. destruct E1 as [_ Hqa]. specialize (Hqa Hq).
  destruct (strict_eq r1 VNull); [inversion H; subst; now left|].
  unfold bind at 1 in H.
  destruct (rollDice fuel this (dice_get (dice this) second) name2 wa)
    as [r2 wb| | |] eqn:E2; try discriminate.
  apply GameFacts.Framed_rollDice in E2. destruct E2 as [_ Hqb]. specialize (Hqb Hqa).
  destruct (strict_eq r2 VNull); [inversion H; subst; now left|].
  right. exists wb.
  destruct (truthy computerFirst); destruct (js_gt r1 r2); destruct (js_gt r2 r1);
    inversion H; subst; eexists;
      (split; [|split; [exact Hqb | reflexivity]]); reflexivity.
Qed.

Lemma play_body_verdict fuel this w w' :
  play_body fuel this w = Done tt w' ->
  no_adjudication w ->
  no_adjudication w' \/
  exists w2 e, is_adjudication e = true /\ no_adjudication w2 /\ w' = write w2 e.
Proof.
  unfold play_body. intros H Hq. unfold bind at 1 in H.
  destruct (determineFirstPlayer fuel this w) as [cf wa| | |] eqn:E0; try discriminate.
  apply GameFacts.Framed_determineFirstPlayer in E0. destruct E0 as [_ Hqa].
  specialize (Hqa Hq).
  destruct (strict_eq cf VNull); [inversion H; subst; now left|].
  destruct (truthy cf).
  - unfold bind at 1 in H.
    destruct (computerChooseDice this (VNum (Int (-1))) wa) as [i1 wb| | |] eqn:E1;
      try discriminate.
    apply GameFacts.Framed_computerChooseDice in E1. destruct E1 as [_ Hqb].
    specialize (Hqb Hqa).
    unfold bind at 1 in H.
    destruct (userChooseDice fuel this i1 wb) as [i2 wc| | |] eqn:E2; try discriminate.
    apply GameFacts.Framed_userChooseDice_loop in E2. destruct E2 as [_ Hqc].
    specialize (Hqc Hqb).
    destruct (strict_eq i2 VNull); [inversion H; subst; now left|].
    eapply play_from_selection_verdict; eauto.
  - unfold bind at 1 in H.
    destruct (userChooseDice fuel this (VNum (Int (-1))) wa) as [i1 wb| | |] eqn:E1;
      try discriminate.
    apply GameFacts.Framed_userChooseDice_loop in E1. destruct E1 as [_ Hqb].
    specialize (Hqb Hqa).
    destruct (strict_eq i1 VNull); [inversion H; subst; now left|].
    unfold bind at 1 in H.
    destruct (computerChooseDice this i1 wb) as [i2 wc| | |] eqn:E2; try discriminate.
    apply GameFacts.Framed_computerChooseDice in E2. destruct E2 as [_ Hqc].
    specialize (Hqc Hqb).
    eapply play_from_selection_verdict; eauto.
Qed.

End FlowFacts.

(** X22.  The first-move determination takes exactly one exchange over
    [0,1]: whatever that exchange returns, [determineFirstPlayer] returns
    at once, [null] if the user exited and otherwise whether the result is
    0 (the computer moves first exactly then). *)
Theorem first_move_takes_one_exchange
    (fuel : nat) (this : DiceGame.t) (w : world) (v : value) (w1 : world) :
  SecureRandomGenerator.fairRandomGeneration fuel 0 1 "first move determination"
    (write w LogDetermineFirst)
  = Done v w1 ->
  DiceGame.determineFirstPlayer fuel this w
  = Done (if strict_eq v VNull then VNull else VBool (strict_eq v (VNum (Int 0)))) w1.
Proof.
  intros H. unfold DiceGame.determineFirstPlayer, bind at 1. cbn [console_log].
  destruct fuel as [|fuel].
  - exfalso. apply RoundFacts.fairRandomGeneration_inv in H.
    destruct H as (key & c & wa & u & wb & _ & Eg & _).
    now apply ExchangeFacts.generateUniformRandom_needs_fuel in Eg.
  - cbn [DiceGame.determineFirstPlayer_loop]. unfold bind at 1. rewrite H.
    pose proof (Hresult := RoundFacts.fairRandomGeneration_returns
                  (S fuel) 0 1 "first move determination"
                  ltac:(lia) ltac:(simpl; lia) _ _ _ H).
    destruct Hresult as [-> | [-> | (r & -> & _)]]; reflexivity.
Qed.

Lemma first_move_takes_one_exchange_witness :
  DiceGame.determineFirstPlayer 1 sample_game (initial_world [] [] ["1"])
  = Done (if strict_eq (VNum (Int 1)) VNull then VNull
          else VBool (strict_eq (VNum (Int 1)) (VNum (Int 0))))
         sample_first_move_end.
Proof.
  apply (first_move_takes_one_exchange 1 sample_game (initial_world [] [] ["1"])
           (VNum (Int 1)) sample_first_move_end).
  vm_compute. reflexivity.
Defined.

(** X23.  A game adjudicates at most once, and last: when [playGame]
    ends, either no win, lose or tie line has been written, or exactly one
    has, and it is the last line of the output; in both cases the input has
    been closed. *)
Theorem game_writes_at_most_one_verdict
    (fuel : nat) (this : DiceGame.t) (w w' : world) :
  DiceGame.playGame fuel this w = Done tt w' ->
  no_adjudication w ->
  rl_closed w' = true /\
  (no_adjudication w' \/
   exists before e,
     is_adjudication e = true /\
     forallb (fun e' => negb (is_adjudication e')) before = true /\
     stdout w' = (before ++ [e])%list).
Proof.
  unfold DiceGame.playGame, try_finally, try_catch. intros H Hq.
  destruct (DiceGame.play_body fuel this w) as [[] w1|e1 w1| |] eqn:E; try discriminate.
  unfold bind, rl_close, ret in H. inversion H; subst. clear H.
  split; [reflexivity|].
  destruct (FlowFacts.play_body_verdict fuel this w w1 E Hq)
    as [Hn | (w2 & e & He & Hn & ->)].
  - left. exact Hn.
  - right. exists (stdout w2), e. split; [exact He|]. split; [exact Hn | reflexivity].
Qed.

Lemma game_writes_at_most_one_verdict_witness :
  rl_closed sample_game_end = true /\
  (no_adjudication sample_game_end \/
   exists before e,
     is_adjudication e = true /\
     forallb (fun e' => negb (is_adjudication e')) before = true /\
     stdout sample_game_end = (before ++ [e])%list).
Proof.
  apply (game_writes_at_most_one_verdict 1 sample_game
           (initial_world [] [] ["0"; "1"; "2"; "3"]) sample_game_end).
  - vm_compute. reflexivity.
  - reflexivity.
Defined.

(** X24.  Every exchange uses a key of its own: the key it commits under
    and reveals is made of the 32 bytes at the current position of the
    secure source, and the exchange moves that position past them and past
    the bytes of its draw, so a later exchange cannot draw the same key
    bytes again. *)
Theorem exchange_key_is_fresh
    (fuel : nat) (min max : Z) (purpose : string) (w : world) (v : value) (w' : world) :
  SecureRandomGenerator.fairRandomGeneration fuel min max purpose w = Done v w' ->
  (entropy_used w + 32 + SecureRandomGenerator.bytesNeeded (max - min + 1)
   <= entropy_used w')%nat /\
  (v <> VNull ->
   exists c,
     In (LogReveal c (map (fun k => entropy w k mod 256) (seq (entropy_used w) 32)))
        (stdout w')).
Proof.
  intros H.
  pose proof H as Hinv. unfold SecureRandomGenerator.fairRandomGeneration in Hinv.
  unfold bind at 1 2 in Hinv.
  cbn [console_log SecureRandomGenerator.generateSecureKey randomBytes write entropy
       entropy_used uniform uniform_used stdin stdout rl_closed] in Hinv.
  set (key := map (fun k => entropy w k mod 256) (seq (entropy_used w) 32)) in *.
  unfold bind at 1 in Hinv.
  destruct (SecureRandomGenerator.generateUniformRandom fuel min max key _)
    as [c w1| | |] eqn:Eg; try discriminate.
  cbv zeta in Hinv. unfold bind at 1 in Hinv. cbn [console_log] in Hinv.
  unfold bind at 1 in Hinv.
  destruct (SecureRandomGenerator.getUserNumber fuel min max _) as [u w2| | |] eqn:Eu;
    try discriminate.
  apply FlowFacts.generateUniformRandom_entropy in Eg. cbn [entropy_used] in Eg.
  apply PromptFacts.getUserNumber_loop_trace in Eu.
  destruct Eu as (mid & _ & _ & _ & Hent). cbn [write entropy_used] in Hent.
  destruct (strict_eq u VNull) eqn:Es.
  - inversion Hinv; subst. split; [lia | intros Hv; contradiction].
  - unfold bind, console_log, ret in Hinv. inversion Hinv; subst.
    split; [cbn [write entropy_used]; lia|].
    intros _. exists c. cbn [write stdout]. rewrite !in_app_iff. cbn. tauto.
Qed.

Lemma exchange_key_is_fresh_witness :
  (entropy_used (initial_world [] [] ["1"]) + 32
   + SecureRandomGenerator.bytesNeeded (1 - 0 + 1)
   <= entropy_used sample_round_end)%nat.
Proof.
  apply (exchange_key_is_fresh 1 0 1 "roll" (initial_world [] [] ["1"])
           (VNum (Int 1)) sample_round_end).
  vm_compute. reflexivity.
Defined.

(* ===================================================================== *)
(** ** Dice selection within a game *)
(* ===================================================================== *)

Module ChoiceFacts.
Import SecureRandomGenerator DiceGame.

Lemma selections_app l1 l2 : selections (l1 ++ l2) = (selections l1 ++ selections l2)%list.
Proof. unfold selections. apply flat_map_app. Qed.

Lemma no_selection_refl w : no_selection w w.
Proof. repeat split. Qed.

Lemma no_selection_trans w1 w2 w3 :
  no_selection w1 w2 -> no_selection w2 w3 -> no_selection w1 w3.
Proof.
  intros (A1 & A2 & A3 & A4) (B1 & B2 & B3 & B4).
  repeat split; congruence.
Qed.

Lemma no_selection_write w e : selection e = None -> no_selection w (write w e).
Proof.
  intros He. repeat split. cbn [write stdout]. rewrite selections_app.
  unfold selections at 2. cbn [flat_map]. rewrite He. cbn. now rewrite app_nil_r.
Qed.

Lemma Silent_ret {A} (a : A) : Silent (ret a).
Proof. intros w w' H. inversion H. apply no_selection_refl. Qed.

Lemma Silent_throw {A} e : Silent (@throw A e).
Proof. intros w w' H. inversion H. apply no_selection_refl. Qed.

Lemma Silent_timeout {A} : Silent (@timeout A).
Proof. intros w w' H. discriminate. Qed.

Lemma Silent_bind {A B} (m : M A) (k : A -> M B) :
  Silent m -> (forall a, Silent (k a)) -> Silent (bind m k).
Proof.
  intros Hm Hk w w' H. unfold bind in H.
  destruct (m w) as [a w1|e w1| |] eqn:E; try discriminate.
  - apply no_selection_trans with w1.
    + apply Hm. now rewrite E.
    + now apply (Hk a).
  - apply Hm. now rewrite E.
Qed.

Lemma Silent_console_log e : selection e = None -> Silent (console_log e).
Proof. intros He w w' H. inversion H. now apply no_selection_write. Qed.

Lemma Silent_randomBytes n : Silent (randomBytes n).
Proof. intros w w' H. inversion H. repeat split. Qed.

Lemma Silent_rl_close : Silent rl_close.
Proof. intros w w' H. inversion H. repeat split. Qed.

Lemma Silent_question prompt : Silent (question prompt).
Proof.
  intros w w' H. unfold question in H.
  destruct (stdin w) as [|answer rest]; [discriminate|].
  inversion H. repeat split. cbn [stdout]. rewrite selections_app. cbn.
  now rewrite app_nil_r.
Qed.

Lemma Silent_for_each {A} (l : list A) (body : A -> M unit) :
  (forall x, Silent (body x)) -> Silent (for_each l body).
Proof.
  intros Hb. induction l as [|x l IH]; cbn [for_each].
  - apply Silent_ret.
  - apply Silent_bind; auto.
Qed.

Ltac silent :=
  repeat first
    [ assumption
    | match goal with
      | |- Silent (ret _) => apply Silent_ret
      | |- Silent (throw _) => apply Silent_throw
      | |- Silent timeout => apply Silent_timeout
      | |- Silent (randomBytes _) => apply Silent_randomBytes
      | |- Silent (question _) => apply Silent_question
      | |- Silent rl_close => apply Silent_rl_close
      | |- Silent (console_log _) => apply Silent_console_log; reflexivity
      | |- Silent (bind _ _) => apply Silent_bind; [|intro]
      | |- Silent (for_each _ _) => apply Silent_for_each; intro
      | |- Silent (if ?c then _ else _) => destruct c
      | |- Silent (match ?x with _ => _ end) => destruct x
      | H : _ |- Silent _ => simple apply H
      end ].

Lemma Silent_draw_loop n range count : Silent (draw_loop n range count).
Proof. induction n as [|n IH]; cbn [draw_loop]; cbv zeta; silent. Qed.

Lemma Silent_generateUniformRandom fuel min max key :
  Silent (generateUniformRandom fuel min max key).
Proof.
  unfold generateUniformRandom. cbv zeta.
  pose proof (Silent_draw_loop fuel). silent.
Qed.

Lemma Silent_getUserInput prompt : Silent (SecureRandomGenerator.getUserInput prompt).
Proof. unfold SecureRandomGenerator.getUserInput. silent. Qed.

Lemma Silent_getUserNumber_loop n min max : Silent (getUserNumber_loop n min max).
Proof.
  induction n as [|n IH]; cbn [getUserNumber_loop]; cbv zeta;
    pose proof Silent_getUserInput; silent.
Qed.

Lemma Silent_fairRandomGeneration fuel min max purpose :
  Silent (fairRandomGeneration fuel min max purpose).
Proof.
  unfold fairRandomGeneration, generateSecureKey, getUserNumber. cbv zeta.
  pose proof (Silent_generateUniformRandom fuel min max).
  pose proof (Silent_getUserNumber_loop fuel min max).
  silent.
Qed.

Lemma Silent_displayProbabilityTable dice : Silent (displayProbabilityTable dice).
Proof. unfold displayProbabilityTable. silent. Qed.

Section Game.
Variable fuel : nat.
Variable this : DiceGame.t.

Lemma Silent_determineFirstPlayer_loop n : Silent (determineFirstPlayer_loop fuel this n).
Proof.
  induction n as [|n IH]; cbn [determineFirstPlayer_loop];
    pose proof (Silent_fairRandomGeneration fuel);
    pose proof Silent_displayProbabilityTable; silent.
Qed.

Lemma Silent_determineFirstPlayer : Silent (determineFirstPlayer fuel this).
Proof.
  unfold determineFirstPlayer.
  pose proof (Silent_determineFirstPlayer_loop fuel). silent.
Qed.

Lemma Silent_rollDice_loop n d playerName : Silent (rollDice_loop fuel this n d playerName).
Proof.
  induction n as [|n IH]; cbn [rollDice_loop]; cbv zeta;
    pose proof (Silent_fairRandomGeneration fuel);
    pose proof Silent_displayProbabilityTable; silent.
Qed.

Lemma Silent_rollDice d playerName : Silent (rollDice fuel this d playerName).
Proof.
  unfold rollDice. pose proof (Silent_rollDice_loop fuel). silent.
Qed.

Lemma Silent_play_from_selection computerFirst first second name1 name2 :
  Silent (play_from_selection fuel this computerFirst first second name1 name2).
Proof.
  unfold play_from_selection. cbv zeta.
  pose proof Silent_rollDice. silent.
Qed.
End Game.


Lemma assemble_zero (f : nat -> Z) (l : list nat) :
  (forall k, f k = 0) -> assemble (map (fun k => f k mod 256) l) = 0.
Proof.
  intros Hf. unfold assemble.
  induction l as [|k l IH]; cbn [map fold_left]; [reflexivity|].
  rewrite Hf. exact IH.
Qed.

(** With a source that hands out zeros the first draw is kept, and it is
    [min]. *)
Lemma commitment_zero fuel min max purpose w :
  min <= max -> (forall k, entropy w k = 0) ->
  exists w1,
    commitment (S fuel) min max purpose w = Done min w1 /\ stdin w1 = stdin w.
Proof.
  intros Hmm Hz. unfold commitment. unfold bind at 1 2.
  cbn [console_log generateSecureKey randomBytes].
  unfold generateUniformRandom.
  destruct (Z.leb_spec (max - min + 1) 0); [lia|].
  unfold bind. rewrite DrawFacts.draw_loop_step. cbv zeta.
  cbn [write entropy entropy_used uniform uniform_used stdin stdout rl_closed].
  rewrite (assemble_zero (entropy w)) by exact Hz.
  pose proof (ThresholdFacts.range_fits_bytes (max - min + 1) ltac:(lia)) as Hfit.
  destruct (ThresholdFacts.maxValid_shape (bytesNeeded (max - min + 1)) (max - min + 1)
              ltac:(lia) Hfit) as (_ & Hv & _).
  destruct (Z.gtb_spec 0 (maxValid (bytesNeeded (max - min + 1)) (max - min + 1))); [lia|].
  unfold ret. rewrite Z.rem_0_l by lia. eexists. split; reflexivity.
Qed.

(** An exchange at whose prompt the user exits. *)
Lemma fairRandomGeneration_exit fuel min max purpose w c w1 line rest :
  commitment fuel min max purpose w = Done c w1 ->
  stdin w1 = line :: rest ->
  is_cancel line = true ->
  exists w', fairRandomGeneration fuel min max purpose w = Done VNull w'.
Proof.
  intros Hc E Hline.
  unfold commitment, fairRandomGeneration in *. unfold bind at 1 2 in Hc.
  unfold bind at 1 2. cbn [console_log generateSecureKey randomBytes] in *.
  destruct fuel as [|fuel];
    [now apply ExchangeFacts.generateUniformRandom_needs_fuel in Hc|].
  unfold bind at 1. rewrite Hc. cbv zeta.
  unfold bind at 1. cbn [console_log].
  unfold bind at 1. unfold getUserNumber. rewrite PromptFacts.getUserNumber_step.
  cbn [write stdin]. rewrite E. cbv zeta.
  unfold is_cancel in Hline. rewrite Hline. cbn [strict_eq]. unfold ret.
  eexists. reflexivity.
Qed.

(** An exchange over an empty range throws before it prompts. *)
Lemma fairRandomGeneration_empty fuel min max purpose w :
  max - min + 1 <= 0 ->
  exists w', fairRandomGeneration fuel min max purpose w = Throw RangeError w'.
Proof.
  intros H. unfold fairRandomGeneration. unfold bind at 1 2.
  cbn [console_log generateSecureKey randomBytes].
  unfold bind at 1. unfold generateUniformRandom.
  destruct (Z.leb_spec (max - min + 1) 0); [|lia].
  unfold throw. eexists. reflexivity.
Qed.

Lemma fairRandomGeneration_ends fuel min max purpose w line rest :
  (forall k, entropy w k = 0) ->
  stdin w = line :: rest -> is_cancel line = true ->
  exists w',
    fairRandomGeneration (S fuel) min max purpose w = Done VNull w' \/
    fairRandomGeneration (S fuel) min max purpose w = Throw RangeError w'.
Proof.
  intros Hz E Hline. destruct (Z.le_gt_cases (max - min + 1) 0) as [Hle|Hgt].
  - destruct (fairRandomGeneration_empty (S fuel) min max purpose w Hle) as (w' & Hrun).
    exists w'. now right.
  - destruct (commitment_zero fuel min max purpose w ltac:(lia) Hz) as (w1 & Hc & S1).
    destruct (fairRandomGeneration_exit (S fuel) min max purpose w min w1 line rest Hc)
      as (w' & Hrun); [congruence | exact Hline |].
    exists w'. now left.
Qed.

Section Configs.
Variable configs : list (list Z).
Local Abbreviation this := (DiceGame.new configs).
Local Abbreviation n := (Z.of_nat (List.length configs)).

Lemma index_get_dice i :
  0 <= i < n ->
  exists config, index_get (dice this) i = Some (Dice.new config i).
Proof.
  intros Hi. unfold index_get. destruct (Z.ltb_spec i 0); [lia|].
  destruct (nth_error (dice this) (Z.to_nat i)) as [d|] eqn:E.
  - apply SelectionFacts.dice_nth in E. destruct E as (config & _ & ->).
    exists config. now rewrite Z2Nat.id by lia.
  - apply nth_error_None in E. rewrite SelectionFacts.dice_length in E. lia.
Qed.

Lemma selections_dice_menu x : selections (dice_menu this x) = [].
Proof.
  unfold dice_menu. cbn [selections flat_map selection app].
  unfold selections. rewrite flat_map_app. cbn [flat_map selection app].
  rewrite app_nil_r.
  induction (filter _ (mapi _ (dice this))) as [|[i d] l IH]; [reflexivity | exact IH].
Qed.

Lemma no_selection_answered w evs prompt rest :
  selections evs = [] -> no_selection w (answered (writes w evs) prompt rest).
Proof.
  intros He. unfold no_selection. cbn [answered entropy uniform uniform_used stdout].
  destruct (PromptFacts.writes_untouched evs w) as (_ & _ & Hu & _).
  assert (He1 : entropy (writes w evs) = entropy w).
  { clear. revert w. unfold writes. induction evs as [|e evs IH]; intros w; cbn [fold_left];
      [reflexivity | now rewrite IH]. }
  assert (He2 : uniform (writes w evs) = uniform w).
  { clear. revert w. unfold writes. induction evs as [|e evs IH]; intros w; cbn [fold_left];
      [reflexivity | now rewrite IH]. }
  repeat split; try assumption.
  rewrite PromptFacts.stdout_writes, !selections_app, He. cbn. now rewrite !app_nil_r.
Qed.

(** What a finished [computerChooseDice] has done: thrown without
    announcing a selection, or announced and returned an index other than
    the excluded one. *)
Lemma computerChooseDice_selects x w w' :
  final_world (computerChooseDice this x w) = Some w' ->
  entropy w' = entropy w /\ uniform w' = uniform w /\ stdin w' = stdin w /\
  (((exists e, computerChooseDice this x w = Throw e w') /\
    selections (stdout w') = selections (stdout w)) \/
   (exists i,
       computerChooseDice this x w = Done (VNum (Int i)) w' /\
       0 <= i < n /\ strict_eq (VNum (Int i)) x = false /\
       selections (stdout w') = (selections (stdout w) ++ [(Computer, i)])%list)).
Proof.
  intros H.
  destruct (computerChooseDice this x w) as [v w1|e w1| |] eqn:E; try discriminate;
    cbn [final_world] in H; assert (Hw : w1 = w') by congruence; subst w1; clear H.
  - destruct (SelectionFacts.computerChooseDice_excludes configs x w v w' E)
      as (i & -> & Hi & Hne).
    unfold computerChooseDice, bind, math_random, console_log in E. cbv zeta in E.
    match type of E with context [index_get ?l ?k] =>
      destruct (index_get l k) as [d|] eqn:Ed end; [|discriminate].
    unfold ret in E.
    assert (Hd : Dice.index d = i) by congruence.
    assert (Hw : w' = write (mkWorld (entropy w) (entropy_used w) (uniform w)
                                     (S (uniform_used w)) (stdin w) (stdout w)
                                     (rl_closed w))
                            (LogComputerChoice (Some d))) by congruence.
    rewrite Hw. repeat split. right. exists i. split; [reflexivity|]. split; [exact Hi|].
    split; [exact Hne|]. cbn [write stdout]. rewrite selections_app. cbn.
    now rewrite Hd.
  - unfold computerChooseDice, bind, math_random, console_log in E. cbv zeta in E.
    match type of E with context [index_get ?l ?k] =>
      destruct (index_get l k) as [d|] eqn:Ed end; [discriminate|].
    unfold throw in E.
    assert (Hw : w' = write (mkWorld (entropy w) (entropy_used w) (uniform w)
                                     (S (uniform_used w)) (stdin w) (stdout w)
                                     (rl_closed w))
                            (LogComputerChoice None)) by congruence.
    split; [now rewrite Hw|]. split; [now rewrite Hw|]. split; [now rewrite Hw|].
    left. split; [now exists e|].
    rewrite Hw. cbn [write stdout]. rewrite selections_app. cbn. now rewrite app_nil_r.
Qed.

(** What a finished [userChooseDice] has done: returned [null] without
    announcing a selection, or announced and returned an index other than
    the excluded one. *)
Lemma userChooseDice_selects x :
  forall fuel w w',
    final_world (userChooseDice_loop this fuel x w) = Some w' ->
    (entropy w' = entropy w /\ uniform w' = uniform w /\
     uniform_used w' = uniform_used w) /\
    ((userChooseDice_loop this fuel x w = Done VNull w' /\
      selections (stdout w') = selections (stdout w)) \/
     (exists i,
         userChooseDice_loop this fuel x w = Done (VNum (Int i)) w' /\
         0 <= i < n /\ strict_eq (VNum (Int i)) x = false /\
         selections (stdout w') = (selections (stdout w) ++ [(User, i)])%list)).
Proof.
  induction fuel as [|fuel IH]; intros w w' H; [discriminate|].
  rewrite PromptFacts.userChooseDice_step in H |- *.
  destruct (stdin w) as [|line rest]; [discriminate|]. cbv zeta in H |- *.
  set (w1 := answered (writes w (dice_menu this x)) "Your selection: " rest) in *.
  assert (H1 : no_selection w w1)
    by (apply no_selection_answered, selections_dice_menu).
  destruct H1 as (A1 & A2 & A3 & A4).
  destruct (String.eqb (toUpperCase (trim line)) "X").
  - inversion H; subst w'. split; [repeat split; assumption|]. left. now split.
  - destruct (String.eqb (trim line) "?").
    + set (w2 := write w1 _) in *.
      assert (H2 : no_selection w1 w2) by (now apply no_selection_write).
      destruct H2 as (B1 & B2 & B3 & B4).
      destruct (IH w2 w' H) as ((C1 & C2 & C3) & Hcase).
      split; [repeat split; congruence|].
      destruct Hcase as [(Hrun & Hs) | (i & Hrun & Hi & Hne & Hs)].
      * left. split; [exact Hrun | congruence].
      * right. exists i. repeat split; try assumption; try lia. congruence.
    + destruct (acceptable this x (parseInt (trim line))) eqn:Hacc.
      * inversion H; subst w'.
        apply SelectionFacts.acceptable_inv in Hacc.
        destruct Hacc as (i & Ei & Hi & Hne). rewrite Ei.
        split; [repeat split; assumption|].
        right. exists i. split; [reflexivity|]. split; [exact Hi|]. split; [exact Hne|].
        destruct (index_get_dice i Hi) as (config & Eg).
        cbn [write stdout]. rewrite selections_app.
        unfold DiceGame.new in Eg. cbn [dice] in Eg. rewrite Eg. subst w1. cbn [selections flat_map selection Dice.index Dice.new app].
        now rewrite A4.
      * set (w2 := write w1 _) in *.
        assert (H2 : no_selection w1 w2) by (now apply no_selection_write).
        destruct H2 as (B1 & B2 & B3 & B4).
        destruct (IH w2 w' H) as ((C1 & C2 & C3) & Hcase).
        split; [repeat split; congruence|].
        destruct Hcase as [(Hrun & Hs) | (i & Hrun & Hi & Hne & Hs)].
        -- left. split; [exact Hrun | congruence].
        -- right. exists i. repeat split; try assumption; try lia. congruence.
Qed.

Lemma strict_eq_int_null i : strict_eq (VNum (Int i)) VNull = false.
Proof. reflexivity. Qed.

(** The selections of one run of the body of [playGame]. *)
Lemma play_body_selections fuel w w' :
  final_world (play_body fuel this w) = Some w' ->
  exists picks,
    selections (stdout w') = (selections (stdout w) ++ picks)%list /\
    one_die_each n picks.
Proof.
  unfold play_body. intros H. unfold bind at 1 in H.
  destruct (determineFirstPlayer fuel this w) as [cf w1|e1 w1| |] eqn:E0;
    try discriminate.
  2:{ cbn [final_world] in H. assert (w1 = w') by congruence. subst w1.
      destruct (Silent_determineFirstPlayer fuel this w w') as (_ & _ & _ & S0);
        [now rewrite E0|].
      exists []. rewrite app_nil_r. split; [exact S0 | now left]. }
  destruct (Silent_determineFirstPlayer fuel this w w1) as (_ & _ & _ & S0);
    [now rewrite E0|].
  destruct (strict_eq cf VNull).
  { cbn [ret final_world] in H. assert (w1 = w') by congruence. subst w1.
    exists []. rewrite app_nil_r. split; [exact S0 | now left]. }
  destruct (truthy cf).
  - unfold bind at 1 in H.
    destruct (computerChooseDice this (VNum (Int (-1))) w1) as [v1 w2|e2 w2| |] eqn:E1;
      try discriminate.
    2:{ cbn [final_world] in H. assert (w2 = w') by congruence. subst w2.
        destruct (computerChooseDice_selects (VNum (Int (-1))) w1 w')
          as (_ & _ & _ & [(_ & S1) | (i & Hrun & _)]); [now rewrite E1| |congruence].
        exists []. rewrite app_nil_r. split; [congruence | now left]. }
    destruct (computerChooseDice_selects (VNum (Int (-1))) w1 w2)
      as (_ & _ & _ & [((e & Hrun) & _) | (a & Hrun & Ha & _ & S1)]);
      [now rewrite E1 | congruence |].
    assert (Ev : v1 = VNum (Int a)) by congruence. subst v1.
    unfold bind at 1 in H. unfold userChooseDice in H.
    destruct (userChooseDice_loop this fuel (VNum (Int a)) w2) as [v2 w3|e3 w3| |] eqn:E2;
      try discriminate.
    2:{ now apply PromptFacts.userChooseDice_loop_no_throw in E2. }
    destruct (userChooseDice_selects (VNum (Int a)) fuel w2 w3)
      as (_ & [(Hrun2 & S2) | (b & Hrun2 & Hb & Hne & S2)]); [now rewrite E2| |].
    + assert (Ev : v2 = VNull) by congruence. subst v2.
      cbn [strict_eq ret final_world] in H. assert (w3 = w') by congruence. subst w3.
      exists [(Computer, a)]. split; [congruence|].
      right; left. now exists Computer, a.
    + assert (Ev : v2 = VNum (Int b)) by congruence. subst v2.
      rewrite strict_eq_int_null in H.
      destruct (Silent_play_from_selection fuel this _ _ _ _ _ w3 w' H)
        as (_ & _ & _ & S3).
      exists [(Computer, a); (User, b)]. split.
      * rewrite S3, S2, S1, S0, <- app_assoc. reflexivity.
      * right; right. exists Computer, a, User, b.
        cbn [strict_eq] in Hne. apply Z.eqb_neq in Hne.
        repeat split; try lia; try assumption. discriminate.
  - unfold bind at 1 in H. unfold userChooseDice in H.
    destruct (userChooseDice_loop this fuel (VNum (Int (-1))) w1) as [v1 w2|e2 w2| |] eqn:E1;
      try discriminate.
    2:{ now apply PromptFacts.userChooseDice_loop_no_throw in E1. }
    destruct (userChooseDice_selects (VNum (Int (-1))) fuel w1 w2)
      as (_ & [(Hrun1 & S1) | (a & Hrun1 & Ha & _ & S1)]); [now rewrite E1| |].
    + assert (Ev : v1 = VNull) by congruence. subst v1.
      cbn [strict_eq ret final_world] in H. assert (w2 = w') by congruence. subst w2.
      exists []. rewrite app_nil_r. split; [congruence | now left].
    + assert (Ev : v1 = VNum (Int a)) by congruence. subst v1.
      rewrite strict_eq_int_null in H. unfold bind at 1 in H.
      destruct (computerChooseDice this (VNum (Int a)) w2) as [v2 w3|e3 w3| |] eqn:E2;
        try discriminate.
      2:{ cbn [final_world] in H. assert (w3 = w') by congruence. subst w3.
          destruct (computerChooseDice_selects (VNum (Int a)) w2 w')
            as (_ & _ & _ & [(_ & S2) | (i & Hrun & _)]); [now rewrite E2| |congruence].
          exists [(User, a)]. split; [congruence|].
          right; left. now exists User, a. }
      destruct (computerChooseDice_selects (VNum (Int a)) w2 w3)
        as (_ & _ & _ & [((e & Hrun) & _) | (b & Hrun & Hb & Hne & S2)]);
        [now rewrite E2 | congruence |].
      assert (Ev : v2 = VNum (Int b)) by congruence. subst v2.
      destruct (Silent_play_from_selection fuel this _ _ _ _ _ w3 w' H)
        as (_ & _ & _ & S3).
      exists [(User, a); (Computer, b)]. split.
      * rewrite S3, S2, S1, S0, <- app_assoc. reflexivity.
      * right; right. exists User, a, Computer, b.
        cbn [strict_eq] in Hne. apply Z.eqb_neq in Hne.
        repeat split; try lia; try assumption. discriminate.
Qed.

Lemma playGame_final fuel w w' :
  final_world (playGame fuel this w) = Some w' ->
  exists w1,
    final_world (play_body fuel this w) = Some w1 /\ stdout w' = stdout w1.
Proof.
  unfold playGame, try_finally, try_catch.
  destruct (play_body fuel this w) as [[] w1|e w1| |]; try discriminate.
  - unfold bind, rl_close, ret. cbn [final_world]. intros H.
    exists w1. split; [reflexivity|]. inversion H. reflexivity.
  - unfold throw at 1. unfold bind, rl_close, throw. cbn [final_world]. intros H.
    exists w1. split; [reflexivity|]. inversion H. reflexivity.
Qed.

(** A [Math.random] outcome for which the computer, moving first, takes
    die [i]. *)
Lemma computerChooseDice_first i :
  0 <= i < n -> n <= 2 ^ 53 ->
  exists r,
    0 <= r < 2 ^ 53 /\
    forall w,
      uniform w (uniform_used w) = r ->
      exists w', computerChooseDice this (VNum (Int (-1))) w = Done (VNum (Int i)) w'.
Proof.
  intros Hi Hn.
  destruct (SelectionFacts.random_outcome_for n i Hi Hn) as [Hr Hpick].
  exists ((i * 2 ^ 53 + n - 1) / n). split; [exact Hr|].
  intros w Hw.
  unfold computerChooseDice, bind, math_random, console_log. cbv zeta.
  unfold filteri. rewrite SelectionFacts.filteri_from_all.
  2:{ intros k Hk. cbn [strict_eq]. destruct (Z.eqb_spec k (-1)); [lia | reflexivity]. }
  rewrite SelectionFacts.dice_length, Hw, (Z.mod_small _ _ Hr), Hpick.
  destruct (index_get_dice i Hi) as (config & ->).
  eexists. reflexivity.
Qed.

(** The first-move determination when the source hands out zeros and the
    user enters [u]: the computer moves first exactly when [u] is 0. *)
Lemma determineFirstPlayer_zero fuel w u rest :
  (forall k, entropy w k = 0) -> 0 <= u <= 1 ->
  stdin w = number_to_string u :: rest ->
  exists w1,
    determineFirstPlayer (S fuel) this w = Done (VBool (u =? 0)) w1 /\
    stdin w1 = rest.
Proof.
  intros Hz Hu E.
  unfold determineFirstPlayer. unfold bind at 1. cbn [console_log].
  cbn [determineFirstPlayer_loop]. unfold bind at 1.
  destruct (commitment_zero fuel 0 1 "first move determination"
              (write w LogDetermineFirst) ltac:(lia) Hz) as (w1 & Hc & S1).
  destruct (ExchangeFacts.fairRandomGeneration_number
              (S fuel) 0 1 "first move determination" (write w LogDetermineFirst)
              0 w1 (number_to_string u) rest u Hc)
    as (w' & Hrun & S'); [cbn [write stdin] in S1; congruence
                         | apply TextFacts.number_enters_number | exact Hu |].
  rewrite Hrun. exists w'. split; [|exact S'].
  assert (Hcase : u = 0 \/ u = 1) by lia.
  destruct Hcase as [-> | ->]; reflexivity.
Qed.

(** A roll at whose prompt the user exits ends the game, by a return or,
    for a die without faces, by the exception of the empty range. *)
Lemma play_from_selection_exit fuel cf a b name1 name2 w line rest :
  0 <= a < n -> (forall k, entropy w k = 0) ->
  stdin w = line :: rest -> is_cancel line = true ->
  exists w',
    final_world (play_from_selection (S fuel) this cf (VNum (Int a)) (VNum (Int b))
                   name1 name2 w) = Some w'.
Proof.
  intros Ha Hz E Hline. unfold play_from_selection. cbv zeta.
  destruct (index_get_dice a Ha) as (config & Eg).
  change (dice_get (dice this) (VNum (Int a))) with (index_get (dice this) a).
  rewrite Eg. unfold bind at 1. unfold rollDice at 1. unfold bind at 1.
  cbn [console_log rollDice_loop]. unfold bind at 1.
  destruct (fairRandomGeneration_ends fuel 0
              (Dice.getFaceCount (Dice.new config a) - 1) (name1 ++ " dice roll")
              (write w (LogTimeToRoll name1)) line rest Hz E Hline)
    as (w' & [Hrun | Hrun]); rewrite Hrun; exists w'; reflexivity.
Qed.

Lemma playGame_ends fuel w w1 :
  final_world (play_body fuel this w) = Some w1 ->
  exists w', final_world (playGame fuel this w) = Some w' /\ stdout w' = stdout w1.
Proof.
  unfold playGame, try_finally, try_catch.
  destruct (play_body fuel this w) as [[] w2|e w2| |]; try discriminate;
    cbn [final_world]; intros H; assert (w2 = w1) by congruence; subst w2;
    eexists; split; reflexivity.
Qed.

(** Every two different dice can be taken by the computer moving first
    and the user moving second. *)
Lemma game_computer_then_user fuel e i :
  0 <= e < n -> 0 <= i < n -> i <> e -> n <= 2 ^ 53 ->
  exists w w',
    final_world (playGame (S fuel) this w) = Some w' /\
    stdout w = [] /\
    selections (stdout w') = [(Computer, e); (User, i)].
Proof.
  intros He Hi Hne Hn.
  destruct (computerChooseDice_first e He Hn) as (r & Hr & Hpick).
  set (w0 := mkWorld (fun _ => 0) 0 (fun _ => r) 0
                     [number_to_string 0; number_to_string i; "x"] [] false).
  destruct (determineFirstPlayer_zero fuel w0 0 [number_to_string i; "x"])
    as (w1 & E0 & I1); [reflexivity | lia | reflexivity |].
  destruct (Silent_determineFirstPlayer (S fuel) this w0 w1) as (A1 & A2 & A3 & A4);
    [now rewrite E0|].
  destruct (Hpick w1) as (w2 & E1); [now rewrite A2, A3|].
  destruct (computerChooseDice_selects (VNum (Int (-1))) w1 w2)
    as (B1 & B2 & I2 & [((x & Hrun) & _) | (a & Hrun & _ & _ & B4)]);
    [now rewrite E1 | congruence |].
  assert (a = e) by congruence. subst a. clear Hrun.
  destruct (SelectionFacts.userChooseDice_accepts configs fuel e i w2 ["x"] Hi Hne)
    as (w3 & E2 & I3); [congruence|].
  unfold userChooseDice in E2.
  destruct (userChooseDice_selects (VNum (Int e)) (S fuel) w2 w3)
    as ((C1 & C2 & C3) & [(Hrun & _) | (b & Hrun & _ & _ & C4)]);
    [now rewrite E2 | congruence |].
  assert (b = i) by congruence. subst b. clear Hrun.
  destruct (play_from_selection_exit fuel (VBool true) e i "my" "your" w3 "x" [] He)
    as (w4 & Hend); [intros k; rewrite C1, B1, A1; reflexivity | exact I3 | reflexivity |].
  pose proof (Silent_play_from_selection _ _ _ _ _ _ _ _ _ Hend) as (_ & _ & _ & D4).
  assert (Hbody : final_world (play_body (S fuel) this w0) = Some w4).
  { unfold play_body. unfold bind at 1. rewrite E0.
    cbn [Z.eqb strict_eq truthy]. unfold bind at 1. rewrite E1.
    unfold bind at 1. unfold userChooseDice. rewrite E2, strict_eq_int_null.
    exact Hend. }
  destruct (playGame_ends (S fuel) w0 w4 Hbody) as (w' & Hgame & Hout).
  exists w0, w'. split; [exact Hgame|]. split; [reflexivity|].
  rewrite Hout, D4, C4, B4, A4. reflexivity.
Qed.

(** Every two different dice can be taken by the user moving first and
    the computer moving second. *)
Lemma game_user_then_computer fuel e i :
  0 <= e < n -> 0 <= i < n -> i <> e -> n <= 2 ^ 53 ->
  exists w w',
    final_world (playGame (S fuel) this w) = Some w' /\
    stdout w = [] /\
    selections (stdout w') = [(User, e); (Computer, i)].
Proof.
  intros He Hi Hne Hn.
  destruct (SelectionFacts.computerChooseDice_reaches configs e i He Hi Hne Hn)
    as (r & Hr & Hpick).
  set (w0 := mkWorld (fun _ => 0) 0 (fun _ => r) 0
                     [number_to_string 1; number_to_string e; "x"] [] false).
  destruct (determineFirstPlayer_zero fuel w0 1 [number_to_string e; "x"])
    as (w1 & E0 & I1); [reflexivity | lia | reflexivity |].
  destruct (Silent_determineFirstPlayer (S fuel) this w0 w1) as (A1 & A2 & A3 & A4);
    [now rewrite E0|].
  destruct (SelectionFacts.userChooseDice_accepts configs fuel (-1) e w1 ["x"] He)
    as (w2 & E1 & I2); [lia | congruence |].
  unfold userChooseDice in E1.
  destruct (userChooseDice_selects (VNum (Int (-1))) (S fuel) w1 w2)
    as ((B1 & B2 & B3) & [(Hrun & _) | (a & Hrun & _ & _ & B4)]);
    [now rewrite E1 | congruence |].
  assert (a = e) by congruence. subst a. clear Hrun.
  destruct (Hpick w2) as (w3 & E2); [now rewrite B2, B3, A2, A3|].
  destruct (computerChooseDice_selects (VNum (Int e)) w2 w3)
    as (C1 & C2 & I3 & [((x & Hrun) & _) | (b & Hrun & _ & _ & C4)]);
    [now rewrite E2 | congruence |].
  assert (b = i) by congruence. subst b. clear Hrun.
  destruct (play_from_selection_exit fuel (VBool false) e i "your" "my" w3 "x" [] He)
    as (w4 & Hend);
    [intros k; rewrite C1, B1, A1; reflexivity | congruence | reflexivity |].
  pose proof (Silent_play_from_selection _ _ _ _ _ _ _ _ _ Hend) as (_ & _ & _ & D4).
  assert (Hbody : final_world (play_body (S fuel) this w0) = Some w4).
  { unfold play_body. unfold bind at 1. rewrite E0.
    cbn [Z.eqb strict_eq truthy]. unfold bind at 1. unfold userChooseDice.
    rewrite E1, strict_eq_int_null. unfold bind at 1. rewrite E2.
    exact Hend. }
  destruct (playGame_ends (S fuel) w0 w4 Hbody) as (w' & Hgame & Hout).
  exists w0, w'. split; [exact Hgame|]. split; [reflexivity|].
  rewrite Hout, D4, C4, B4, A4. reflexivity.
Qed.
End Configs.

End ChoiceFacts.

(** C8.  Once the first player's die index [e] is chosen, the second
    player, computer or user, can end up with every index but [e] and
    with no other exclusion.  For the two selection functions called with
    [e]: the computer's draw never returns [e] and some [Math.random]
    outcome returns each other index; the user's prompt never returns [e]
    and returns each other index when its numeral is typed.  And a game
    hands the first player's choice to the second selection: however
    [playGame] ends, the selections it has announced are none, one, or two
    made by different players of different dice; and for every index [i]
    other than [e] there is a game in which the computer takes [e] and
    then the user takes [i], and a game in which the user takes [e] and
    then the computer takes [i]. *)
Theorem second_player_excludes_exactly_first_die (configs : list (list Z)) (e : Z) :
  0 <= e < Z.of_nat (List.length configs) ->
  Z.of_nat (List.length configs) <= 2 ^ 53 ->
  (forall w v w',
      DiceGame.computerChooseDice (DiceGame.new configs) (VNum (Int e)) w = Done v w' ->
      exists i, v = VNum (Int i) /\ 0 <= i < Z.of_nat (List.length configs) /\ i <> e) /\
  (forall i,
      0 <= i < Z.of_nat (List.length configs) -> i <> e ->
      exists r,
        0 <= r < 2 ^ 53 /\
        forall w,
          uniform w (uniform_used w) = r ->
          exists w',
            DiceGame.computerChooseDice (DiceGame.new configs) (VNum (Int e)) w
            = Done (VNum (Int i)) w') /\
  (forall fuel w v w',
      DiceGame.userChooseDice fuel (DiceGame.new configs) (VNum (Int e)) w = Done v w' ->
      v = VNull \/
      exists i, v = VNum (Int i) /\ 0 <= i < Z.of_nat (List.length configs) /\ i <> e) /\
  (forall i,
      0 <= i < Z.of_nat (List.length configs) -> i <> e ->
      forall fuel w rest,
        stdin w = number_to_string i :: rest ->
        exists w',
          DiceGame.userChooseDice (S fuel) (DiceGame.new configs) (VNum (Int e)) w
          = Done (VNum (Int i)) w' /\
          stdin w' = rest) /\
  (forall fuel w w',
      final_world (DiceGame.playGame fuel (DiceGame.new configs) w) = Some w' ->
      exists picks,
        selections (stdout w') = (selections (stdout w) ++ picks)%list /\
        (picks = [] \/
         (exists p a, picks = [(p, a)] /\ 0 <= a < Z.of_nat (List.length configs)) \/
         (exists p a q b,
             picks = [(p, a); (q, b)] /\ p <> q /\
             0 <= a < Z.of_nat (List.length configs) /\
             0 <= b < Z.of_nat (List.length configs) /\ b <> a))) /\
  (forall i,
      0 <= i < Z.of_nat (List.length configs) -> i <> e ->
      forall fuel,
        (exists w w',
            final_world (DiceGame.playGame (S fuel) (DiceGame.new configs) w) = Some w' /\
            stdout w = [] /\
            selections (stdout w') = [(Computer, e); (User, i)]) /\
        (exists w w',
            final_world (DiceGame.playGame (S fuel) (DiceGame.new configs) w) = Some w' /\
            stdout w = [] /\
            selections (stdout w') = [(User, e); (Computer, i)])).
Proof.
  intros He Hn. split; [|split; [|split; [|split; [|split]]]].
  - intros w v w' H.
    apply SelectionFacts.computerChooseDice_excludes in H.
    destruct H as (i & -> & Hi & Hne). exists i.
    cbn [strict_eq] in Hne. apply Z.eqb_neq in Hne. auto.
  - intros i Hi Hne. now apply SelectionFacts.computerChooseDice_reaches.
  - intros fuel w v w' H.
    apply SelectionFacts.userChooseDice_excludes in H.
    destruct H as [-> | (i & -> & Hi & Hne)]; [now left|]. right. exists i.
    cbn [strict_eq] in Hne. apply Z.eqb_neq in Hne. auto.
  - intros i Hi Hne fuel w rest E. now apply SelectionFacts.userChooseDice_accepts.
  - intros fuel w w' H.
    destruct (ChoiceFacts.playGame_final configs fuel w w' H) as (w1 & Hbody & Hout).
    destruct (ChoiceFacts.play_body_selections configs fuel w w1 Hbody)
      as (picks & Hsel & Hpicks).
    exists picks. split; [now rewrite Hout | exact Hpicks].
  - intros i Hi Hne fuel. split.
    + now apply ChoiceFacts.game_computer_then_user.
    + now apply ChoiceFacts.game_user_then_computer.
Qed.

Lemma second_player_excludes_exactly_first_die_witness :
  (exists w',
      DiceGame.userChooseDice 1 (DiceGame.new sample_configs) (VNum (Int 0))
        (initial_world [] [] ["2"; "x"])
      = Done (VNum (Int 2)) w' /\
      stdin w' = ["x"]) /\
  (exists picks,
      selections (stdout sample_game_end)
      = (selections (stdout (initial_world [] [] ["0"; "1"; "2"; "3"])) ++ picks)%list /\
      (picks = [] \/
       (exists p a, picks = [(p, a)] /\ 0 <= a < Z.of_nat (List.length sample_configs)) \/
       (exists p a q b,
           picks = [(p, a); (q, b)] /\ p <> q /\
           0 <= a < Z.of_nat (List.length sample_configs) /\
           0 <= b < Z.of_nat (List.length sample_configs) /\ b <> a))).
Proof.
  destruct (second_player_excludes_exactly_first_die sample_configs 0)
    as (_ & _ & _ & Huser & Hgame & _).
  - simpl. lia.
  - simpl. lia.
  - split.
    + apply (Huser 2); [simpl; lia | lia | reflexivity].
    + apply (Hgame 1%nat (initial_world [] [] ["0"; "1"; "2"; "3"]) sample_game_end).
      vm_compute. reflexivity.
Defined.
